(** * Chat subsystem of the office-management backend

    A shallow embedding of the authentication gates, the chat router and the
    chat tables of the backend, with the properties of the chat design
    checked against them.

    - [Jwt], [Http], [ChatRoutes]: src/middlewares/authenticateToken.ts and
      the chat router (routes/chat), mounted in src/index.ts.
    - [Socket]: the Socket.IO handshake middleware of src/index.ts.
    - [Schema]: the chat tables of src/db/schema.sql with their keys and
      foreign keys.
    - [Chat]: the chat controller, which the router imports from
      ../controllers/chatController.
    - [Uri]: the percent-decoding Express applies to route parameters.
    - [HttpLegacy], [Auth]: the earlier copy of the middleware, and the login
      and logout routes of routes/auth that write the session it checks.
    - [CookieHeader]: the Cookie header the handshake middleware parses.
    - [UserRefs]: the references of the chat tables to users.
    - [Jobs]: the jobs of src/scheduler.ts on the users and attendance
      tables, and the function auto_mark_absent_users of schema.sql. *)

From stdpp Require Import gmap strings list fin_maps sorting.
From Stdlib Require Import ZArith Ascii.

Local Open Scope string_scope.
Local Open Scope list_scope.
Local Open Scope Z_scope.

(** ** JSON web tokens *)

Module Jwt.

(** The fields of a verified payload.  The middleware reads [user.id],
    [user.role] and [user.sessionId]; the last one is undefined ([None]) in
    a token signed without it. *)
Record payload := Payload {
  id : Z;
  email : string;
  role : string;
  is2FAVerified : bool;
  sessionId : option string
}.

(** utils/generateToken.ts: the payload it hands to [jwt.sign],
    [{ id, email, role, is2FAVerified }].  The session identifier that
    routes/auth passes as a fifth argument is no parameter of this
    function. *)
Definition generateToken_payload (id : Z) (email role : string) (is2FAVerified : bool)
  : payload :=
  Payload id email role is2FAVerified None.

(** [jwt.verify(token, secret, cb)] calls [cb(err, user)]: [None] stands
    for a call with [err] set, [Some user] for a verified payload. *)
Definition verifier := string → option payload.

End Jwt.

(** JavaScript truthiness of a value that is a string, [null] or
    [undefined]: only a non-empty string is truthy. *)
Definition truthy (v : option string) : bool :=
  match v with
  | Some s => negb (String.eqb s "")
  | None => false
  end.

(** [a !== b] on such values. *)
Definition strict_neq (a b : option string) : bool :=
  negb (bool_decide (a = b)).

(** ** The HTTP gate: middlewares/authenticateToken.ts *)

Module Http.

(** The request methods of the CORS options of index.ts, OPTIONS aside. *)
Inductive method := GET | POST | PUT | PATCH | DELETE.

#[global] Instance method_eq_dec : EqDecision method.
Proof. solve_decision. Defined.

(** What the middleware and the router read of a request: the method, the
    path (without query string) and [req.cookies?.token]. *)
Record request := Request {
  req_method : method;
  req_path : string;
  cookie_token : option string
}.

Record response := Response {
  status : Z;
  message : string;
  cleared_cookie : bool   (* res.clearCookie('token', ...) was called *)
}.

(** Outcome of a middleware: it answers itself, or calls [next()] after
    setting [req.user]. *)
Inductive mw_result :=
| Respond (r : response)
| Next (user : Jwt.payload).

(** [pool.query('SELECT current_session_id FROM users WHERE id = $1')]:
    [None] when the query throws, else the rows' [current_session_id]
    (a row holds NULL or a string). *)
Definition session_db := Z → option (list (option string)).

Section Gate.
Variable verify : Jwt.verifier.
Variable query_session : session_db.

Definition is_single_session_role (r : string) : bool :=
  String.eqb r "admin" || String.eqb r "super_admin".

(** The request carries no token cookie, or one that [jwt.verify]
    rejects. *)
Definition lacks_valid_token (req : request) : Prop :=
  truthy (cookie_token req) = false ∨
  verify (default "" (cookie_token req)) = None.

Definition authenticateToken (req : request) : mw_result :=
  if negb (truthy (cookie_token req)) then
    Respond (Response 401 "Authentication failed: Token is missing" false)
  else
    match verify (default "" (cookie_token req)) with
    | None =>
        Respond (Response 403 "Authentication failed: Invalid or expired token" false)
    | Some user =>
        if is_single_session_role (Jwt.role user) then
          match query_session (Jwt.id user) with
          | None =>
              Respond (Response 500 "Internal server error during session validation" false)
          | Some [] => Next user
          | Some (dbSessionId :: _) =>
              if truthy dbSessionId && strict_neq (Jwt.sessionId user) dbSessionId then
                Respond (Response 401 "Session expired. You logged in on another device." true)
              else Next user
          end
        else Next user
    end.
End Gate.

End Http.

(** ** Percent-decoding of route parameters *)

Module Uri.

(** A JavaScript string by its UTF-16 code units. *)
Definition jsstring := list N.

(** The code units of a string of characters below 256, as a request path
    is. *)
Fixpoint of_string (s : string) : jsstring :=
  match s with
  | EmptyString => []
  | String c rest => N_of_ascii c :: of_string rest
  end.

Definition hex_value (c : Ascii.ascii) : option N :=
  let n := N_of_ascii c in
  if ((48 <=? n) && (n <=? 57))%N then Some (n - 48)%N
  else if ((65 <=? n) && (n <=? 70))%N then Some (n - 55)%N
  else if ((97 <=? n) && (n <=? 102))%N then Some (n - 87)%N
  else None.

(** Where the decoder stands in an escape [%XY]. *)
Inductive escape := NoEscape | Percent | Hex1 (high : N).

(** A UTF-8 sequence under way: the bits read, the number of bytes to come
    and the range the next byte has to be in. *)
Record sequence := Sequence {
  seq_bits : N;
  seq_more : nat;
  seq_low : N;
  seq_high : N
}.

(** The first byte of a well-formed UTF-8 sequence: a code point of its
    own, or the start of a sequence of two, three or four bytes; the ranges
    exclude overlong forms, surrogates and code points above 10FFFF. *)
Definition first_byte (b : N) : option (N + sequence) :=
  (if b <? 128 then Some (inl b)
   else if (194 <=? b) && (b <=? 223) then Some (inr (Sequence (b - 192) 1 128 191))
   else if b =? 224 then Some (inr (Sequence 0 2 160 191))
   else if (225 <=? b) && (b <=? 236) then Some (inr (Sequence (b - 224) 2 128 191))
   else if b =? 237 then Some (inr (Sequence 13 2 128 159))
   else if (238 <=? b) && (b <=? 239) then Some (inr (Sequence (b - 224) 2 128 191))
   else if b =? 240 then Some (inr (Sequence 0 3 144 191))
   else if (241 <=? b) && (b <=? 243) then Some (inr (Sequence (b - 240) 3 128 191))
   else if b =? 244 then Some (inr (Sequence 4 3 128 143))
   else None)%N.

(** The code units of a code point: itself, or a surrogate pair. *)
Definition utf16 (v : N) : jsstring :=
  (if v <? 65536 then [v]
   else [55296 + (v - 65536) / 1024; 56320 + (v - 65536) mod 1024])%N.

(** One decoded byte: the code units it completes and the sequence it
    leaves under way; [None] where [decodeURIComponent] throws. *)
Definition decoded_byte (st : option sequence) (b : N)
  : option (jsstring * option sequence) :=
  match st with
  | None =>
      match first_byte b with
      | Some (inl v) => Some ([v], None)
      | Some (inr q) => Some ([], Some q)
      | None => None
      end
  | Some q =>
      if ((seq_low q <=? b) && (b <=? seq_high q))%N then
        let v := (seq_bits q * 64 + (b - 128))%N in
        match seq_more q with
        | 1%nat => Some (utf16 v, None)
        | S k => Some ([], Some (Sequence v k 128 191))
        | O => None
        end
      else None
  end.

Fixpoint decode (esc : escape) (st : option sequence) (s : string) : option jsstring :=
  match s with
  | EmptyString =>
      match esc, st with
      | NoEscape, None => Some []
      | _, _ => None
      end
  | String c rest =>
      match esc with
      | NoEscape =>
          if Ascii.eqb c "%"%char then decode Percent st rest
          else
            match st with
            | None => cons (N_of_ascii c) <$> decode NoEscape None rest
            | Some _ => None
            end
      | Percent =>
          match hex_value c with
          | Some h => decode (Hex1 h) st rest
          | None => None
          end
      | Hex1 h =>
          match hex_value c with
          | Some l =>
              match decoded_byte st (16 * h + l)%N with
              | Some (out, st') => app out <$> decode NoEscape st' rest
              | None => None
              end
          | None => None
          end
      end
  end.

(** [decodeURIComponent]: every escape [%XY] stands for a byte, and the
    escaped bytes have to be well-formed UTF-8; [None] is the URIError. *)
Definition decodeURIComponent (s : string) : option jsstring :=
  decode NoEscape None s.

End Uri.

(** ** The chat router: routes/chat *)

Module ChatRoutes.
Import Http.

(** The controller functions the router imports. *)
Inductive handler :=
| getChats | getMessages | getOrCreateDirectChat | getUsers | createChat
| markMessagesRead | addMembers | makeAdmin | removeMember | leaveChat.

(** A segment of a route path: a literal or a [:name] parameter. *)
Inductive segment := Lit (s : string) | Param (name : string).

Record route := Route {
  route_method : method;
  route_path : list segment;
  route_handler : handler
}.

(** The registrations of the router, in source order. *)
Definition routes : list route :=
  [ Route GET [] getChats;
    Route GET [Param "chatId"; Lit "messages"] getMessages;
    Route POST [Lit "dm"] getOrCreateDirectChat;
    Route GET [Lit "users"] getUsers;
    Route POST [Lit "create"] createChat;
    Route POST [Lit "mark-read"] markMessagesRead;
    Route POST [Param "chatId"; Lit "add-members"] addMembers;
    Route POST [Param "chatId"; Lit "make-admin"] makeAdmin;
    Route POST [Param "chatId"; Lit "remove-member"] removeMember;
    Route POST [Param "chatId"; Lit "leave"] leaveChat ].

(** [app.use('/api/chats', chatRoutes)] *)
Definition mount : string := "/api/chats".

(** *** Express path matching

    A path is cut at its slashes; one trailing slash is ignored (routing is
    not strict).  A literal segment matches itself in either letter case
    (routing is not case sensitive; the literals registered are ASCII), a
    parameter matches one non-empty segment.  The parameters of a path that
    matches are percent-decoded, and a parameter that does not decode ends
    the routing with 400.  The first registered route that matches, with its
    method, wins. *)

Fixpoint split_slash (s : string) : list string :=
  match s with
  | EmptyString => [EmptyString]
  | String c rest =>
      if Ascii.eqb c "/"%char then EmptyString :: split_slash rest
      else match split_slash rest with
           | seg :: segs => String c seg :: segs
           | [] => [String c EmptyString]
           end
  end.

Fixpoint drop_trailing_empty (l : list string) : list string :=
  match l with
  | [] => []
  | [s] => if String.eqb s "" then [] else [s]
  | s :: l' => s :: drop_trailing_empty l'
  end.

(** Segments of a path that starts with a slash. *)
Definition path_segments (p : string) : option (list string) :=
  match p with
  | String c rest =>
      if Ascii.eqb c "/"%char then Some (drop_trailing_empty (split_slash rest)) else None
  | EmptyString => None
  end.

(** A letter A to Z as its lower case, any other character as itself. *)
Definition lower (c : Ascii.ascii) : Ascii.ascii :=
  let n := N_of_ascii c in
  if ((65 <=? n) && (n <=? 90))%N then ascii_of_N (n + 32) else c.

(** Equality of strings up to the case of the letters A to Z. *)
Fixpoint eqb_nocase (a b : string) : bool :=
  match a, b with
  | EmptyString, EmptyString => true
  | String x a', String y b' => Ascii.eqb (lower x) (lower y) && eqb_nocase a' b'
  | _, _ => false
  end.

(** The parameters of a route as the path has them, and decoded. *)
Definition raw_params := list (string * string).
Definition params := list (string * Uri.jsstring).

(** The match of the path against the pattern of a route. *)
Fixpoint match_segments (pat : list segment) (segs : list string) : option raw_params :=
  match pat, segs with
  | [], [] => Some []
  | Lit s :: pat', seg :: segs' =>
      if eqb_nocase s seg then match_segments pat' segs' else None
  | Param name :: pat', seg :: segs' =>
      if String.eqb seg "" then None
      else option_map (cons (name, seg)) (match_segments pat' segs')
  | _, _ => None
  end.

(** [decode_param] on each parameter; [None] when one of them throws. *)
Fixpoint decode_params (raw : raw_params) : option params :=
  match raw with
  | [] => Some []
  | (name, v) :: rest =>
      match Uri.decodeURIComponent v with
      | Some d => option_map (cons (name, d)) (decode_params rest)
      | None => None
      end
  end.

(** Where the routing of a request ends: at a controller function, at no
    route (404), or at a parameter that does not decode (400). *)
Inductive dispatched :=
| Hit (h : handler) (ps : params)
| Miss
| BadRequest.

(** The routes in order.  The path is matched and its parameters decoded
    before the method is looked at; once a parameter has failed to decode no
    later route is taken. *)
Fixpoint first_match (rs : list route) (m : method) (segs : list string) : dispatched :=
  match rs with
  | [] => Miss
  | r :: rs' =>
      match match_segments (route_path r) segs with
      | None => first_match rs' m segs
      | Some raw =>
          match decode_params raw with
          | None => BadRequest
          | Some ps =>
              if bool_decide (route_method r = m) then Hit (route_handler r) ps
              else first_match rs' m segs
          end
      end
  end.

(** Dispatch inside the router, on the path left after the mount point. *)
Definition dispatch (m : method) (path : string) : dispatched :=
  match path_segments path with
  | Some segs => first_match routes m segs
  | None => Miss
  end.

(** What is left of [s] after the prefix [p]. *)
Fixpoint strip_prefix (p s : string) : option string :=
  match p, s with
  | EmptyString, _ => Some s
  | String a p', String b s' => if Ascii.eqb a b then strip_prefix p' s' else None
  | String _ _, EmptyString => None
  end.

(** The same up to the case of the letters. *)
Fixpoint strip_prefix_nocase (p s : string) : option string :=
  match p, s with
  | EmptyString, _ => Some s
  | String a p', String b s' =>
      if Ascii.eqb (lower a) (lower b) then strip_prefix_nocase p' s' else None
  | String _ _, EmptyString => None
  end.

(** The part of the path after the mount point, ["/"] when nothing is
    left; [None] when the path is not under the mount point. *)
Definition under_mount (path : string) : option string :=
  match strip_prefix_nocase mount path with
  | Some EmptyString => Some "/"
  | Some (String c rest) => if Ascii.eqb c "/"%char then Some (String c rest) else None
  | None => None
  end.

(** Where a method and a full path end; [Miss] also when the path is not
    under the mount point. *)
Definition reach (m : method) (path : string) : dispatched :=
  match under_mount path with
  | Some rest => dispatch m rest
  | None => Miss
  end.

(** A chat identifier as it stands in a path: a segment without a slash. *)
Fixpoint slash_free (s : string) : bool :=
  match s with
  | EmptyString => true
  | String c rest => negb (Ascii.eqb c "/"%char) && slash_free rest
  end.

Definition is_segment (s : string) : Prop :=
  s ≠ "" ∧ slash_free s = true.

(** Where a route with a chat identifier ends: at its controller function
    with the decoded identifier, or at 400 when the identifier does not
    decode. *)
Definition with_chatId (h : handler) (id : string) : dispatched :=
  match Uri.decodeURIComponent id with
  | Some v => Hit h [("chatId", v)]
  | None => BadRequest
  end.

(** What a request to the router led to: the response and the controller
    functions that ran. *)
Record outcome := Outcome {
  out_response : response;
  out_ran : list handler
}.

Section Router.
Variable verify : Jwt.verifier.
Variable query_session : session_db.
(** The controller functions themselves (controllers/chatController). *)
Variable run_handler : handler → params → Jwt.payload → request → response.

(** [router.use(authenticateToken)] followed by the routes. *)
Definition chat_router (req : request) : outcome :=
  match authenticateToken verify query_session req with
  | Respond r => Outcome r []
  | Next user =>
      match dispatch (req_method req) (req_path req) with
      | Hit h ps => Outcome (run_handler h ps user req) [h]
      | Miss => Outcome (Response 404 "Not Found" false) []
      | BadRequest => Outcome (Response 400 "Bad Request" false) []
      end
  end.

(** The application in front of the router: [None] when the request is
    for another router. *)
Definition app (req : request) : option outcome :=
  match under_mount (req_path req) with
  | Some rest =>
      Some (chat_router (Request (req_method req) rest (cookie_token req)))
  | None => None
  end.
End Router.

End ChatRoutes.

(** ** The socket gate: the [io.use] middleware of index.ts *)

Module Socket.

(** *** The cookie-header parse

    The header is matched against the regular expression made of: a
    non-capturing group that is either the start of the header or a
    semicolon followed by any number of white-space characters; the
    literal [token=]; and a capturing group of one or more characters
    other than a semicolon.  The token is the captured group.  Header
    characters are Latin-1; the white-space class of JavaScript holds tab,
    line feed, vertical tab, form feed, carriage return, space and
    no-break space among them. *)

Definition is_space (c : Ascii.ascii) : bool :=
  let n := nat_of_ascii c in
  ((9 <=? n) && (n <=? 13) || (n =? 32) || (n =? 160))%nat.

Fixpoint skip_spaces (s : string) : string :=
  match s with
  | String c rest => if is_space c then skip_spaces rest else s
  | EmptyString => EmptyString
  end.

(** The capturing group is greedy: the longest prefix without a semicolon. *)
Fixpoint until_semicolon (s : string) : string :=
  match s with
  | String c rest =>
      if Ascii.eqb c ";"%char then EmptyString else String c (until_semicolon rest)
  | EmptyString => EmptyString
  end.

(** The literal [token=] and the capturing group at the start of [s]. *)
Definition token_here (s : string) : option string :=
  match ChatRoutes.strip_prefix "token=" s with
  | Some rest =>
      let v := until_semicolon rest in
      if String.eqb v "" then None else Some v
  | None => None
  end.

(** The semicolon alternative, tried at each position from the left.  The
    character after the spaces must be the [t] of [token=], which is not a
    space, so only the longest run of spaces can lead to a match. *)
Fixpoint after_semicolon (s : string) : option string :=
  match s with
  | EmptyString => None
  | String c rest =>
      match (if Ascii.eqb c ";"%char then token_here (skip_spaces rest) else None) with
      | Some v => Some v
      | None => after_semicolon rest
      end
  end.

(** Position 0 tries the start-of-header alternative first, then the
    semicolon one; later positions only the latter. *)
Definition tokenMatch (cookieHeader : string) : option string :=
  match token_here cookieHeader with
  | Some v => Some v
  | None => after_semicolon cookieHeader
  end.

(** *** The middleware *)

Inductive handshake_result :=
| Refused (error : string)       (* next(new Error(...)) *)
| Accepted (user : Jwt.payload). (* socket.data.user = user; next() *)

Section Gate.
Variable verify : Jwt.verifier.

(** [cookieHeader] is [socket.handshake.headers.cookie]. *)
Definition io_use (cookieHeader : option string) : handshake_result :=
  if negb (truthy cookieHeader) then
    Refused "Authentication error: No cookies found"
  else
    match tokenMatch (default "" cookieHeader) with
    | None => Refused "Authentication error: Token not found"
    | Some token =>
        match verify token with
        | None => Refused "Authentication error: Invalid token"
        | Some user => Accepted user
        end
    end.
End Gate.

(** The handshake carries a token cookie that [jwt.verify] accepts. *)
Definition presents_valid_token (verify : Jwt.verifier) (cookieHeader : option string) : Prop :=
  ∃ token user,
    tokenMatch (default "" cookieHeader) = Some token ∧ verify token = Some user.

(** *** The gateway around the middleware

    Socket.IO runs the middleware on every connection attempt.  When the
    middleware passes an error to [next], the attempt is refused: the
    socket is closed, no [connection] event is emitted for it and packets
    of that socket are dropped.  Otherwise the [connection] listener
    ([handleSocketConnection] of controllers/chatController) runs, and
    later events of the socket reach the listeners it registered. *)

Inductive conn_state :=
| Connecting (cookieHeader : option string)
| Joined (user : Jwt.payload) (rooms : gset string)
| Disconnected.

Record connection := Connection {
  conn : conn_state;
  conn_handled : list string   (* events of this socket that reached a listener *)
}.

(** What arrives for one socket: the end of its handshake, an event packet,
    or the loss of the transport. *)
Inductive input :=
| Handshake
| Packet (event : string)
| Close.

Section Gateway.
Variable verify : Jwt.verifier.
(** The [connection] listener: the rooms it joins the socket to. *)
Variable on_connection : Jwt.payload → gset string.
(** The event listeners: the rooms of the socket after an event. *)
Variable on_event : Jwt.payload → gset string → string → gset string.

Definition step (c : connection) (i : input) : connection :=
  match conn c, i with
  | Connecting hdr, Handshake =>
      match io_use verify hdr with
      | Refused _ => Connection Disconnected (conn_handled c)
      | Accepted user => Connection (Joined user (on_connection user)) (conn_handled c)
      end
  | Connecting _, Packet _ => c          (* not connected yet: dropped *)
  | Joined user rooms, Packet ev =>
      Connection (Joined user (on_event user rooms ev)) (conn_handled c ++ [ev])
  | Joined _ _, Handshake => c
  | _, Close => Connection Disconnected (conn_handled c)
  | Disconnected, _ => c
  end.

Definition run (c : connection) (inputs : list input) : connection :=
  foldl step c inputs.

Definition rooms_of (c : connection) : gset string :=
  match conn c with
  | Joined _ rooms => rooms
  | _ => ∅
  end.

(** A connection attempt arriving with the given cookie header. *)
Definition attempt (cookieHeader : option string) : connection :=
  Connection (Connecting cookieHeader) [].
End Gateway.

(** A connection that is still in its handshake with header [hdr], or
    closed, and that no event has reached. *)
Definition outside (hdr : option string) (c : connection) : Prop :=
  (conn c = Connecting hdr ∨ conn c = Disconnected) ∧ conn_handled c = [].

End Socket.

(** ** The chat tables: db/schema.sql, section 7 *)

Module Schema.

Inductive chat_type := direct | group | space | announcement.
Inductive message_sender_type := user | system | bot.
Inductive attachment_type := image | file | video | audio.

#[global] Instance chat_type_eq_dec : EqDecision chat_type.
Proof. solve_decision. Defined.

(** A row of [chats] without its key [id].  Columns that reference another
    table keep their NULL ([None]); flags and timestamps stand for the
    value the row holds. *)
Record chat_row := ChatRow {
  type : chat_type;                (* NOT NULL *)
  name : option string;
  description : option string;
  created_by : option Z;           (* REFERENCES users(id) ON DELETE SET NULL *)
  created_at : Z;
  updated_at : Z
}.

(** A row of [chat_members] without its key [(chat_id, user_id)]. *)
Record member_row := MemberRow {
  is_admin : bool;
  joined_at : Z
}.

(** A row of [messages] without its key [id]. *)
Record message_row := MessageRow {
  chat_id : option Z;              (* REFERENCES chats(id) ON DELETE CASCADE *)
  sender_id : option Z;            (* REFERENCES users(id) ON DELETE SET NULL *)
  sender_type : message_sender_type;
  content : option string;
  attachment_url : option string;
  attachment_kind : option attachment_type;
  is_read : bool;                  (* DEFAULT FALSE *)
  read_by : list Z;                (* JSONB array of user ids, DEFAULT '[]' *)
  sent_at : Z                      (* created_at *)
}.

(** The tables, each keyed by its primary key, and the two SERIAL
    sequences. *)
Record store := Store {
  users : gset Z;
  chats : gmap Z chat_row;
  chat_members : gmap (Z * Z) member_row;
  messages : gmap Z message_row;
  chats_id_seq : Z;
  messages_id_seq : Z
}.

Definition empty : store := Store ∅ ∅ ∅ ∅ 1 1.

(** A foreign key is satisfied by NULL or by a key of the referenced
    table. *)
Definition fk_user (s : store) (u : option Z) : bool :=
  match u with
  | Some i => bool_decide (i ∈ users s)
  | None => true
  end.

Definition fk_chat (s : store) (c : option Z) : bool :=
  match c with
  | Some i => bool_decide (is_Some (chats s !! i))
  | None => true
  end.

Definition clear_creator (u : Z) (r : chat_row) : chat_row :=
  if bool_decide (created_by r = Some u)
  then ChatRow (type r) (name r) (description r) None (created_at r) (updated_at r)
  else r.

Definition clear_sender (u : Z) (r : message_row) : message_row :=
  if bool_decide (sender_id r = Some u)
  then MessageRow (chat_id r) None (sender_type r) (content r) (attachment_url r)
         (attachment_kind r) (is_read r) (read_by r) (sent_at r)
  else r.

(** The statements on these tables.  An insert into a table with a SERIAL
    key gives the key or leaves it to the sequence. *)
Inductive statement :=
| InsertUser (id : Z)
| DeleteUser (id : Z)
| InsertChat (id : option Z) (r : chat_row)
| UpdateChat (id : Z) (r : chat_row)
| DeleteChat (id : Z)
| InsertMember (chat usr : Z) (r : member_row)
| UpdateMember (chat usr : Z) (r : member_row)
| DeleteMember (chat usr : Z)
| InsertMessage (id : option Z) (r : message_row)
| UpdateMessage (id : Z) (r : message_row)
| DeleteMessage (id : Z).

(** The values of INT, the type of a SERIAL key: a sequence that has
    handed out the last of them raises. *)
Definition int4 (i : Z) : bool := bool_decide (-2147483648 ≤ i ≤ 2147483647).

(** One statement under the constraints of the schema: [None] when a
    primary key or a foreign key rejects it, or when the id is no INT, as
    the next value of a sequence past its end.  An update keeps the key of
    its row; an update or delete of a row that is not there changes nothing.
    That a rejected insert still advances its sequence is left out. *)
Definition exec (st : statement) (s : store) : option store :=
  match st with
  | InsertUser i =>
      if negb (int4 i) then None
      else if bool_decide (i ∈ users s) then None
      else Some (Store ({[i]} ∪ users s) (chats s) (chat_members s) (messages s)
                   (chats_id_seq s) (messages_id_seq s))
  | DeleteUser i =>
      (* chat_members.user_id cascades; created_by and sender_id are set to NULL *)
      Some (Store (users s ∖ {[i]})
              (clear_creator i <$> chats s)
              (filter (λ kv, kv.1.2 ≠ i) (chat_members s))
              (clear_sender i <$> messages s)
              (chats_id_seq s) (messages_id_seq s))
  | InsertChat oid r =>
      let i := default (chats_id_seq s) oid in
      let seq := if oid is Some _ then chats_id_seq s else chats_id_seq s + 1 in
      if negb (int4 i) then None
      else if bool_decide (is_Some (chats s !! i)) then None
      else if negb (fk_user s (created_by r)) then None
      else Some (Store (users s) (<[i := r]> (chats s)) (chat_members s) (messages s)
                   seq (messages_id_seq s))
  | UpdateChat i r =>
      if bool_decide (is_Some (chats s !! i)) then
        if negb (fk_user s (created_by r)) then None
        else Some (Store (users s) (<[i := r]> (chats s)) (chat_members s) (messages s)
                     (chats_id_seq s) (messages_id_seq s))
      else Some s
  | DeleteChat i =>
      (* chat_members.chat_id and messages.chat_id cascade *)
      Some (Store (users s) (delete i (chats s))
              (filter (λ kv, kv.1.1 ≠ i) (chat_members s))
              (filter (λ kv, chat_id kv.2 ≠ Some i) (messages s))
              (chats_id_seq s) (messages_id_seq s))
  | InsertMember c u r =>
      if bool_decide (is_Some (chat_members s !! (c, u))) then None
      else if negb (fk_chat s (Some c) && fk_user s (Some u)) then None
      else Some (Store (users s) (chats s) (<[(c, u) := r]> (chat_members s)) (messages s)
                   (chats_id_seq s) (messages_id_seq s))
  | UpdateMember c u r =>
      if bool_decide (is_Some (chat_members s !! (c, u))) then
        Some (Store (users s) (chats s) (<[(c, u) := r]> (chat_members s)) (messages s)
                (chats_id_seq s) (messages_id_seq s))
      else Some s
  | DeleteMember c u =>
      Some (Store (users s) (chats s) (delete (c, u) (chat_members s)) (messages s)
              (chats_id_seq s) (messages_id_seq s))
  | InsertMessage oid r =>
      let i := default (messages_id_seq s) oid in
      let seq := if oid is Some _ then messages_id_seq s else messages_id_seq s + 1 in
      if negb (int4 i) then None
      else if bool_decide (is_Some (messages s !! i)) then None
      else if negb (fk_chat s (chat_id r) && fk_user s (sender_id r)) then None
      else Some (Store (users s) (chats s) (chat_members s) (<[i := r]> (messages s))
                   (chats_id_seq s) seq)
  | UpdateMessage i r =>
      if bool_decide (is_Some (messages s !! i)) then
        if negb (fk_chat s (chat_id r) && fk_user s (sender_id r)) then None
        else Some (Store (users s) (chats s) (chat_members s) (<[i := r]> (messages s))
                     (chats_id_seq s) (messages_id_seq s))
      else Some s
  | DeleteMessage i =>
      Some (Store (users s) (chats s) (chat_members s) (delete i (messages s))
              (chats_id_seq s) (messages_id_seq s))
  end.

(** A sequence of statements; a rejected statement leaves the store as it
    was. *)
Definition exec_all (sts : list statement) (s : store) : store :=
  foldl (λ acc st, default acc (exec st acc)) s sts.

(** Every membership row names a chat that exists. *)
Definition members_reference_chats (s : store) : Prop :=
  ∀ c u r, chat_members s !! (c, u) = Some r → is_Some (chats s !! c).

(** Every message row names a chat that exists. *)
Definition messages_reference_chats (s : store) : Prop :=
  ∀ i m, messages s !! i = Some m →
    ∃ c, chat_id m = Some c ∧ is_Some (chats s !! c).

(** Every message row that names a chat names one that exists. *)
Definition messages_not_dangling (s : store) : Prop :=
  ∀ i m c, messages s !! i = Some m → chat_id m = Some c → is_Some (chats s !! c).

Definition ref_integrity (s : store) : Prop :=
  members_reference_chats s ∧ messages_not_dangling s.

End Schema.

(** ** The chat controller

    The router and index.ts import controllers/chatController, which is not
    among the sources.  The operations below follow the design of the chat
    core (sections 3, 4, 5 and 7 of the specification) and run on the tables
    of [Schema] through its statements. *)

Module Chat.
Import Schema.

(** Modelled from the spec: the error taxonomy of section 7 (the controller
    that raises the errors is missing).  [Internal] is the generic failure
    of a transaction the store rejected. *)
Inductive error :=
| NotAMember | InsufficientRole | InvalidChatKind | EmptyMembership
| MustTransferAdminFirst | ReadOnlyChat | NotFound | Internal.

(** The outcome of an operation. *)
Inductive result (A : Type) :=
| Ok (a : A)
| Err (e : error).
Arguments Ok {A} a.
Arguments Err {A} e.

(** Modelled from the spec: an operation is a transaction on the store
    (section 7, "either fully applied or not at all"): it returns its result
    and the store it leaves, and a failed operation leaves the store it
    found. *)
Definition tx (A : Type) := store → result A * store.

(** The end of a transaction made of statements: all of them applied, or
    none when the store rejected one. *)
Definition commit {A : Type} (s : store) (r : option (A * store)) : result A * store :=
  match r with
  | Some (a, s') => (Ok a, s')
  | None => (Err Internal, s)
  end.

(** *** Membership snapshot *)

(** The users with a membership row in chat [c]. *)
Definition members_of (s : store) (c : Z) : gset Z :=
  set_map (C := gset (Z * Z)) (D := gset Z) snd
    (filter (λ k : Z * Z, k.1 = c) (dom (chat_members s))).

(** The users whose membership row in chat [c] has [is_admin] set. *)
Definition admins_of (s : store) (c : Z) : gset Z :=
  set_map (C := gset (Z * Z)) (D := gset Z) snd
    (dom (filter (λ kv : Z * Z * member_row, kv.1.1 = c ∧ is_admin kv.2 = true)
            (chat_members s))).

(** The kind of chat [c], when the chat exists. *)
Definition kind_of (s : store) (c : Z) : option chat_type :=
  type <$> chats s !! c.

(** *** Order of messages

    Modelled from the spec: within one chat the messages are ordered by
    (creation timestamp, identifier) (section 3). *)

Definition key := (Z * Z)%type.

Definition key_of (kv : Z * message_row) : key := (sent_at kv.2, kv.1).

(** The lexicographic order on keys, strict and not. *)
Definition key_lt (a b : key) : Prop := a.1 < b.1 ∨ (a.1 = b.1 ∧ a.2 < b.2).
Definition key_le (a b : key) : Prop := a.1 < b.1 ∨ (a.1 = b.1 ∧ a.2 ≤ b.2).

(** [newer_first x y]: [x] is not older than [y]. *)
Definition newer_first (x y : Z * message_row) : Prop := key_le (key_of y) (key_of x).
Definition strictly_newer (x y : Z * message_row) : Prop := key_lt (key_of y) (key_of x).

#[global] Instance key_lt_dec a b : Decision (key_lt a b).
Proof. unfold key_lt. apply _. Defined.
#[global] Instance key_le_dec a b : Decision (key_le a b).
Proof. unfold key_le. apply _. Defined.
#[global] Instance newer_first_dec x y : Decision (newer_first x y).
Proof. unfold newer_first. apply _. Defined.

(** The message rows of chat [c], each with its identifier. *)
Definition chat_messages (s : store) (c : Z) : list (Z * message_row) :=
  filter (λ kv : Z * message_row, chat_id kv.2 = Some c) (map_to_list (messages s)).

(** *** Chat Repository *)

(** Modelled from the spec: the lookup of [getOrCreateDirectChat] (section
    4.1, the controller is missing), a membership join on both ids with kind
    direct. *)
Definition is_direct_between (s : store) (a b c : Z) : Prop :=
  kind_of s c = Some direct ∧
  is_Some (chat_members s !! (c, a)) ∧ is_Some (chat_members s !! (c, b)).

#[global] Instance is_direct_between_dec s a b c : Decision (is_direct_between s a b c).
Proof. unfold is_direct_between. apply _. Defined.

(** Modelled from the spec: the existing direct chat of the pair, if the
    join finds one. *)
Definition find_direct (s : store) (a b : Z) : option Z :=
  head (filter (is_direct_between s a b) (elements (dom (chats s)))).

(** Modelled from the spec: the creation of the chat plus both membership
    rows, as one transaction; the identifier comes from the sequence. *)
Definition create_direct (now a b : Z) (s : store) : option (Z * store) :=
  let c := chats_id_seq s in
  s1 ← exec (InsertChat None (ChatRow direct None None (Some a) now now)) s;
  s2 ← exec (InsertMember c a (MemberRow false now)) s1;
  s3 ← exec (InsertMember c b (MemberRow false now)) s2;
  Some (c, s3).

(** Modelled from the spec: [getOrCreateDirectChat] of section 4.1 (the
    controller is missing): the existing direct chat of the pair if there is
    one, otherwise the atomic creation. *)
Definition getOrCreateDirectChat (now a b : Z) : tx Z := λ s,
  match find_direct s a b with
  | Some c => (Ok c, s)
  | None => commit s (create_direct now a b s)
  end.

(** Modelled from the spec: the messages of a chat in descending order
    (section 4.1), newest first. *)
Definition history (s : store) (c : Z) : list (Z * message_row) :=
  merge_sort newer_first (chat_messages s c).

(** Modelled from the spec: "older than the [before] cursor (or newest page
    if omitted)". *)
Definition older_than (before : option key) (kv : Z * message_row) : Prop :=
  match before with
  | Some k => key_lt (key_of kv) k
  | None => True
  end.

#[global] Instance older_than_dec before kv : Decision (older_than before kv).
Proof. destruct before; simpl; apply _. Defined.

(** Modelled from the spec: [listMessages] of section 4.1 (the controller
    is missing): for a member, the first [limit] messages older than the
    cursor; [NotAMember] for anyone else. *)
Definition listMessages (s : store) (c caller : Z) (before : option key) (limit : nat)
  : result (list (Z * message_row)) :=
  if bool_decide (caller ∈ members_of s c)
  then Ok (take limit (filter (older_than before) (history s c)))
  else Err NotAMember.

(** Modelled from the spec: the returned oldest-message cursor of a page. *)
Definition next_cursor (page : list (Z * message_row)) : option key :=
  key_of <$> last page.

(** Modelled from the spec: a client that pages through a chat, restarting
    from the returned cursor: one call per limit of the schedule, each with
    the cursor of the page before; it stops at an empty page. *)
Fixpoint paging (s : store) (c caller : Z) (before : option key) (limits : list nat)
  : result (list (Z * message_row)) :=
  match limits with
  | [] => Ok []
  | n :: rest =>
      match listMessages s c caller before n with
      | Err e => Err e
      | Ok page =>
          match next_cursor page with
          | None => Ok []
          | Some k =>
              match paging s c caller (Some k) rest with
              | Ok older => Ok (page ++ older)
              | Err e => Err e
              end
          end
      end
  end.

(** Modelled from the spec: [leaveChat] of sections 4.1 and 4.2 (the
    controller is missing).  Leaving a direct chat deletes it for both
    parties.  In the other kinds the sole admin cannot leave while other
    members remain; the last member leaving deletes the chat and, by the
    cascade, its messages; anyone else just loses the membership row.  The
    result is the updated membership list. *)
Definition leaveChat (c actor : Z) : tx (list Z) := λ s,
  match chats s !! c with
  | None => (Err NotFound, s)
  | Some row =>
      if negb (bool_decide (actor ∈ members_of s c)) then (Err NotAMember, s)
      else if bool_decide (type row = direct) then
        commit s (s' ← exec (DeleteChat c) s; Some (elements (members_of s' c), s'))
      else if bool_decide (admins_of s c = {[actor]}) &&
              negb (bool_decide (members_of s c = {[actor]})) then
        (Err MustTransferAdminFirst, s)
      else if bool_decide (members_of s c = {[actor]}) then
        commit s (s' ← exec (DeleteChat c) s; Some (elements (members_of s' c), s'))
      else
        commit s (s' ← exec (DeleteMember c actor) s; Some (elements (members_of s' c), s'))
  end.

(** *** Message Service *)

(** What a message carries: text, or an attachment with optional text. *)
Inductive body :=
| Text (content : string)
| Attachment (url : string) (kind : attachment_type) (caption : option string).

(** Modelled from the spec: the row of a new message, with the read state
    of section 4.3: flag false, no readers. *)
Definition new_message (c sender : Z) (b : body) (now : Z) : message_row :=
  match b with
  | Text t => MessageRow (Some c) (Some sender) user (Some t) None None false [] now
  | Attachment url k cap =>
      MessageRow (Some c) (Some sender) user cap (Some url) (Some k) false [] now
  end.

(** Modelled from the spec: [sendMessage] of section 4.3 (the controller is
    missing).  The hand-over to the gateway is not part of the store
    transaction. *)
Definition sendMessage (now c sender : Z) (b : body) : tx Z := λ s,
  match chat_members s !! (c, sender) with
  | None => (Err NotAMember, s)
  | Some m =>
      match chats s !! c with
      | None => (Err NotFound, s)
      | Some row =>
          if bool_decide (type row = announcement) && negb (is_admin m)
          then (Err ReadOnlyChat, s)
          else commit s
                 (s' ← exec (InsertMessage None (new_message c sender b now)) s;
                  Some (messages_id_seq s, s'))
      end
  end.

(** Modelled from the spec: the read state of section 3, a flag in direct
    chats and a set of readers in the other kinds. *)
Definition has_read (k : chat_type) (u : Z) (m : message_row) : bool :=
  match k with
  | direct => is_read m
  | _ => bool_decide (u ∈ read_by m)
  end.

(** Modelled from the spec: adding a reader to a read-set, kept as the
    array of user ids of the [read_by] column. *)
Definition add_reader (u : Z) (readers : list Z) : list Z :=
  if bool_decide (u ∈ readers) then readers else readers ++ [u].

(** Modelled from the spec: marking one message read by [u]: the flag in a
    direct chat, the read-set in the other kinds. *)
Definition mark (k : chat_type) (u : Z) (m : message_row) : message_row :=
  match k with
  | direct =>
      MessageRow (chat_id m) (sender_id m) (sender_type m) (content m) (attachment_url m)
        (attachment_kind m) true (read_by m) (sent_at m)
  | _ =>
      MessageRow (chat_id m) (sender_id m) (sender_type m) (content m) (attachment_url m)
        (attachment_kind m) (is_read m) (add_reader u (read_by m)) (sent_at m)
  end.

(** The messages of chat [c] that [u] did not write. *)
Definition from_others (c u : Z) (kv : Z * message_row) : Prop :=
  chat_id kv.2 = Some c ∧ sender_id kv.2 ≠ Some u.

(** A message of the chat that [u] did not write and has not read. *)
Definition unread (k : chat_type) (c u : Z) (kv : Z * message_row) : Prop :=
  from_others c u kv ∧ has_read k u kv.2 = false.

(** Modelled from the spec: [unreadCount] of section 4.3 (the controller is
    missing): the count of messages of the chat not written by the user and
    not yet marked read by the user. *)
Definition unreadCount (s : store) (c u : Z) : nat :=
  match kind_of s c with
  | Some k => length (filter (unread k c u) (map_to_list (messages s)))
  | None => 0%nat
  end.

(** Modelled from the spec: the messages [markRead] acts on, those of the
    chat up to [upto] in the order of the chat and written by someone
    else. *)
Definition in_scope (c reader : Z) (upto : key) (kv : Z * message_row) : Prop :=
  from_others c reader kv ∧ key_le (key_of kv) upto.

#[global] Instance from_others_dec c u kv : Decision (from_others c u kv).
Proof. unfold from_others. apply _. Defined.
#[global] Instance unread_dec k c u kv : Decision (unread k c u kv).
Proof. unfold unread. apply _. Defined.
#[global] Instance in_scope_dec c u k kv : Decision (in_scope c u k kv).
Proof. unfold in_scope. apply _. Defined.

(** What [markRead] does to the row with identifier [i]. *)
Definition mark_in_scope (k : chat_type) (c reader : Z) (upto : key)
    (i : Z) (m : message_row) : message_row :=
  if bool_decide (in_scope c reader upto (i, m)) then mark k reader m else m.

(** Modelled from the spec: [markRead] of section 4.3 (the controller is
    missing): every message in scope is marked, and the result is the number
    of them the reader had not read before. *)
Definition markRead (c reader upto : Z) : tx nat := λ s,
  match kind_of s c, messages s !! upto with
  | Some k, Some um =>
      if bool_decide (chat_id um = Some c) then
        let cut := key_of (upto, um) in
        let newly :=
          length (filter (λ kv, in_scope c reader cut kv ∧ has_read k reader kv.2 = false)
                    (map_to_list (messages s))) in
        (Ok newly,
         Store (users s) (chats s) (chat_members s)
           (map_imap (λ i m, Some (mark_in_scope k c reader cut i m)) (messages s))
           (chats_id_seq s) (messages_id_seq s))
      else (Err NotFound, s)
  | _, _ => (Err NotFound, s)
  end.

(** *** Two calls in flight

    Modelled from the spec: a call of [getOrCreateDirectChat] acts on the
    store twice (section 4.1): the lookup, a query, and, when the lookup
    found no chat, the creation, one transaction.  Requests run concurrently
    (section 5): with two calls in flight the store takes these actions one
    at a time, those of one call in their order, interleaved in a way the
    callers do not control.  schema.sql declares no constraint over the pair
    of a direct chat, so nothing in the store ties the lookup of a call to
    its creation. *)

(** A call before its lookup, after a lookup that found no chat, or
    returned. *)
Inductive call :=
| Pending (a b : Z)
| Missing (a b : Z)
| Returned (r : result Z).

(** Modelled from the spec: the lookup of a call. *)
Definition lookup (s : store) (a b : Z) : call :=
  match find_direct s a b with
  | Some c => Returned (Ok c)
  | None => Missing a b
  end.

(** The store and the two calls. *)
Record world := World {
  db : store;
  call1 : call;
  call2 : call
}.

(** The store takes the next action of one of the calls. *)
Inductive step (now : Z) : world → world → Prop :=
| step_lookup1 s a b c2 :
    step now (World s (Pending a b) c2) (World s (lookup s a b) c2)
| step_create1 s a b c2 :
    step now (World s (Missing a b) c2)
      (World (commit s (create_direct now a b s)).2
         (Returned (commit s (create_direct now a b s)).1) c2)
| step_lookup2 s a b c1 :
    step now (World s c1 (Pending a b)) (World s c1 (lookup s a b))
| step_create2 s a b c1 :
    step now (World s c1 (Missing a b))
      (World (commit s (create_direct now a b s)).2 c1
         (Returned (commit s (create_direct now a b s)).1)).

Definition both_returned (w : world) (r1 r2 : result Z) : Prop :=
  call1 w = Returned r1 ∧ call2 w = Returned r2.

Definition is_missing (c : call) : bool :=
  match c with
  | Missing _ _ => true
  | _ => false
  end.

(** Both calls stand between their lookup and their creation: the calls
    overlap. *)
Definition both_missing (w : world) : Prop :=
  is_missing (call1 w) = true ∧ is_missing (call2 w) = true.

(** A step of calls that do not overlap. *)
Definition step_apart (now : Z) (w w' : world) : Prop :=
  step now w w' ∧ ¬ both_missing w'.

(** Modelled from the spec: a direct chat of a pair (section 3): kind
    direct, membership set the pair. *)
Definition direct_chat_of (s : store) (a b c : Z) : Prop :=
  kind_of s c = Some direct ∧ members_of s c = {[a; b]}.

(** Modelled from the spec: the invariants of the data model (section 3)
    that the get-or-create relies on (a direct chat has exactly two members,
    at most one direct chat per pair), with the foreign key of membership
    rows and the sequence ahead of the identifiers in use. *)
Record chat_inv (s : store) : Prop := ChatInv {
  inv_members : members_reference_chats s;
  inv_seq : ∀ c, is_Some (chats s !! c) → c < chats_id_seq s;
  inv_direct_two : ∀ c, kind_of s c = Some direct → size (members_of s c) = 2%nat;
  inv_direct_unique : ∀ c1 c2,
    kind_of s c1 = Some direct → kind_of s c2 = Some direct →
    members_of s c1 = members_of s c2 → c1 = c2
}.

(** The same without the uniqueness, which calls that overlap do not
    keep. *)
Definition well_kept (s : store) : Prop :=
  members_reference_chats s ∧
  (∀ c, is_Some (chats s !! c) → c < chats_id_seq s) ∧
  (∀ c, kind_of s c = Some direct → size (members_of s c) = 2%nat).

(** The sequence of the chat ids can still hand out [k] values. *)
Definition chat_ids_left (k : Z) (s : store) : Prop :=
  1 ≤ chats_id_seq s ∧ chats_id_seq s + k ≤ 2147483648.

(** The two ends of the pair, in either order. *)
Definition endpoints (A B a b : Z) : Prop := (a, b) = (A, B) ∨ (a, b) = (B, A).

(** A call of the pair: it is for the pair, and a call that has returned
    has returned a direct chat of the pair. *)
Definition call_ok (A B : Z) (s : store) (c : call) : Prop :=
  match c with
  | Pending a b | Missing a b => endpoints A B a b
  | Returned r => ∃ i, r = Ok i ∧ direct_chat_of s A B i
  end.

(** The creations a call may still make. *)
Definition to_create (c : call) : Z :=
  match c with
  | Returned _ => 0
  | _ => 1
  end.

(** What holds of every world two calls of the pair [A], [B] reach from
    the store [s0]: the store is well kept, with the users of [s0] and ids
    left for the creations to come; every direct chat of the pair was there
    in [s0] or is the one a call has returned; and if [s0] has a direct chat
    of the pair the store is still [s0] and no call is to create one. *)
Definition in_flight (s0 : store) (A B : Z) (w : world) : Prop :=
  well_kept (db w) ∧ users (db w) = users s0 ∧
  chat_ids_left (to_create (call1 w) + to_create (call2 w)) (db w) ∧
  call_ok A B (db w) (call1 w) ∧ call_ok A B (db w) (call2 w) ∧
  (∀ c, direct_chat_of (db w) A B c →
        direct_chat_of s0 A B c ∨ call1 w = Returned (Ok c) ∨ call2 w = Returned (Ok c)) ∧
  (∀ c0, direct_chat_of s0 A B c0 →
         db w = s0 ∧ is_missing (call1 w) = false ∧ is_missing (call2 w) = false).

(** What holds in addition while the calls do not overlap: the pair has at
    most one direct chat, and none while a call is to create one. *)
Definition apart (A B : Z) (w : world) : Prop :=
  ¬ both_missing w ∧
  (∀ c1 c2, direct_chat_of (db w) A B c1 → direct_chat_of (db w) A B c2 → c1 = c2) ∧
  (is_missing (call1 w) = true ∨ is_missing (call2 w) = true →
   ∀ c, ¬ direct_chat_of (db w) A B c).

End Chat.

(** ** Sample data *)

Module Sample.

(** A verifier that rejects every token, a session table without rows and
    a controller that answers 200. *)
Definition reject_all : Jwt.verifier := λ _, None.
Definition no_sessions : Http.session_db := λ _, Some [].
Definition ok_handler : ChatRoutes.handler → ChatRoutes.params → Jwt.payload →
    Http.request → Http.response :=
  λ _ _ _ _, Http.Response 200 "ok" false.

(** An admin who logged in again elsewhere: the token of the first login
    still verifies, the users table holds the session of the second. *)
Definition first_login : Jwt.payload :=
  Jwt.Payload 1 "admin@office.test" "admin" true (Some "session-1").
Definition verify : Jwt.verifier :=
  λ t, if String.eqb t "first.login.token" then Some first_login else None.
Definition sessions : Http.session_db :=
  λ i, if i =? 1 then Some [Some "session-2"] else Some [].

(** Socket listeners that join one room and keep the rooms on events. *)
Definition on_connection : Jwt.payload → gset string := λ _, {["chat:1"]}.
Definition on_event : Jwt.payload → gset string → string → gset string :=
  λ _ rooms _, rooms.

(** The group chat Eng of users 1 (admin), 2 and 3, with one message of
    user 1, built from the empty store. *)
Definition eng_statements : list Schema.statement :=
  [ Schema.InsertUser 1; Schema.InsertUser 2; Schema.InsertUser 3;
    Schema.InsertChat None (Schema.ChatRow Schema.group (Some "Eng") None (Some 1) 100 100);
    Schema.InsertMember 1 1 (Schema.MemberRow true 100);
    Schema.InsertMember 1 2 (Schema.MemberRow false 100);
    Schema.InsertMember 1 3 (Schema.MemberRow false 100);
    Schema.InsertMessage None
      (Schema.MessageRow (Some 1) (Some 1) Schema.user (Some "hi") None None false [] 110) ].

Definition eng : Schema.store := Schema.exec_all eng_statements Schema.empty.

(** The same chat after three more messages, two of them with the same
    timestamp and the last one with the oldest. *)
Definition busy_statements : list Schema.statement :=
  eng_statements ++
  [ Schema.InsertMessage None
      (Schema.MessageRow (Some 1) (Some 2) Schema.user (Some "hello") None None false [] 120);
    Schema.InsertMessage None
      (Schema.MessageRow (Some 1) (Some 3) Schema.user (Some "hey") None None false [] 120);
    Schema.InsertMessage None
      (Schema.MessageRow (Some 1) (Some 1) Schema.user None (Some "/uploads/plan.pdf")
         (Some Schema.file) false [] 105) ].

Definition busy : Schema.store := Schema.exec_all busy_statements Schema.empty.

(** The chat once users 2 and 3 have left. *)
Definition solo : Schema.store :=
  Schema.exec_all [Schema.DeleteMember 1 2; Schema.DeleteMember 1 3] eng.

(** A message row without a chat, as a system notice would be stored. *)
Definition notice : Schema.message_row :=
  Schema.MessageRow None None Schema.system (Some "maintenance tonight") None None false [] 50.

End Sample.


(** ** The earlier gate: the copy of authenticateToken.ts without sessions *)

Module HttpLegacy.
Import Http.

(** The middleware before the single-session check was added: missing
    cookie 401, token rejected by [jwt.verify] 403, else [next()]. *)
Definition authenticateToken (verify : Jwt.verifier) (req : request) : mw_result :=
  if negb (truthy (cookie_token req)) then
    Respond (Response 401 "Authentication failed: Token is missing" false)
  else
    match verify (default "" (cookie_token req)) with
    | None =>
        Respond (Response 403 "Authentication failed: Invalid or expired token" false)
    | Some user => Next user
    end.

End HttpLegacy.

(** ** References to users in the chat tables *)

Module UserRefs.
Import Schema.

(** Every membership row names a user that exists. *)
Definition members_reference_users (s : store) : Prop :=
  ∀ c u r, chat_members s !! (c, u) = Some r → u ∈ users s.

(** Every message whose sender is not NULL names a user that exists. *)
Definition senders_reference_users (s : store) : Prop :=
  ∀ i m u, messages s !! i = Some m → sender_id m = Some u → u ∈ users s.

(** Every chat whose creator is not NULL names a user that exists. *)
Definition creators_reference_users (s : store) : Prop :=
  ∀ c row u, chats s !! c = Some row → created_by row = Some u → u ∈ users s.

Definition user_integrity (s : store) : Prop :=
  members_reference_users s ∧ senders_reference_users s ∧ creators_reference_users s.

End UserRefs.


(** ** The authentication routes: login and logout of routes/auth *)

Module Auth.
Import Http.

(** The columns of [users] the routes and the scheduled jobs read or write;
    [role] and [status] may be NULL, and [two_factor_enabled] is read by its
    truthiness. *)
Record user_row := UserRow {
  u_email : string;
  u_password_hash : string;
  u_role : option string;
  u_status : option string;
  u_two_factor_enabled : bool;
  u_two_factor_secret : option string;
  u_current_session_id : option string
}.

(** [user.role === 'admin' || user.role === 'super_admin'] on the row. *)
Definition single_session_row (r : user_row) : bool :=
  from_option is_single_session_role false (u_role r).

(** [UPDATE users SET current_session_id = $1 ...] on one row. *)
Definition set_session (sid : option string) (r : user_row) : user_row :=
  UserRow (u_email r) (u_password_hash r) (u_role r) (u_status r)
    (u_two_factor_enabled r) (u_two_factor_secret r) sid.

(** [SELECT * FROM users WHERE email = $1]: the rows with their ids. *)
Definition by_email (t : gmap Z user_row) (e : string) : list (Z * user_row) :=
  map_to_list (filter (λ kv : Z * user_row, u_email kv.2 = e) t).

(** [email VARCHAR(100) UNIQUE NOT NULL] *)
Definition unique_emails (t : gmap Z user_row) : Prop :=
  ∀ i j r1 r2, t !! i = Some r1 → t !! j = Some r2 → u_email r1 = u_email r2 → i = j.

(** The session query of the middleware on this table. *)
Definition sessions (t : gmap Z user_row) : session_db :=
  λ i, Some (match t !! i with
             | Some r => [u_current_session_id r]
             | None => []
             end).

(** What a route does to the token cookie. *)
Inductive cookie_action :=
| NoCookie
| SetCookie (token : option string)   (* res.cookie('token', token, ...) *)
| ClearCookie.                        (* res.clearCookie('token', ...) *)

Record reply := Reply {
  reply_status : Z;
  reply_message : string;
  reply_cookie : cookie_action
}.

(** [decodeToken(token)]: it throws, or returns what it decoded, [null]
    included. *)
Inductive decoded :=
| Throws
| Decoded (user : option Jwt.payload).

(** The body of POST /login; [forceLogout] by its truthiness. *)
Record login_body := LoginBody {
  email : string;
  password : string;
  forceLogout : bool
}.

Section Routes.
(** utils/matchPassword; [None] when it throws. *)
Variable matchPassword : string → string → option bool.
(** utils/generateToken as the routes call it, the session identifier being
    the fifth argument; it returns a token or [null]. *)
Variable generateToken :
  Z → string → option string → bool → option string → option string.
(** utils/decodeToken. *)
Variable decodeToken : string → decoded.

(** POST /login; [sid] is the identifier [crypto.randomUUID()] returns. *)
Definition login (b : login_body) (sid : string) (t : gmap Z user_row)
  : reply * gmap Z user_row :=
  match head (by_email t (email b)) with
  | None => (Reply 401 "Invalid credentials" NoCookie, t)
  | Some (i, user) =>
      match matchPassword (password b) (u_password_hash user) with
      | None => (Reply 500 "Server error" NoCookie, t)
      | Some false => (Reply 401 "Invalid credentials" NoCookie, t)
      | Some true =>
          if single_session_row user &&
             truthy (u_current_session_id user) && negb (forceLogout b)
          then (Reply 409 "User is already logged in on another device." NoCookie, t)
          else
            (Reply 200 "Login successful"
               (SetCookie (generateToken i (u_email user) (u_role user)
                             (negb (u_two_factor_enabled user)) (Some sid))),
             alter (set_session (Some sid)) i t)
      end
  end.

(** POST /logout; [decoded.id] counts when it is truthy, that is not 0. *)
Definition logout (cookie : option string) (t : gmap Z user_row)
  : reply * gmap Z user_row :=
  if truthy cookie then
    match decodeToken (default "" cookie) with
    | Throws => (Reply 500 "Error during logout" NoCookie, t)
    | Decoded (Some user) =>
        (Reply 200 "Logout successful" ClearCookie,
         if bool_decide (Jwt.id user = 0) then t
         else alter (set_session None) (Jwt.id user) t)
    | Decoded None => (Reply 200 "Logout successful" ClearCookie, t)
    end
  else (Reply 200 "Logout successful" ClearCookie, t).

End Routes.

End Auth.


(** ** The Cookie header a client sends *)

Module CookieHeader.

(** The cookies of a request, in the order of the header, and the header
    text: pairs [name=value] separated by a semicolon and a space. *)
Fixpoint render (cookies : list (string * string)) : string :=
  match cookies with
  | [] => ""
  | (n, v) :: rest =>
      match rest with
      | [] => n +:+ "=" +:+ v
      | _ :: _ => n +:+ "=" +:+ v +:+ "; " +:+ render rest
      end
  end.

(** No character of [s] satisfies [bad]. *)
Fixpoint free_of (bad : Ascii.ascii → bool) (s : string) : bool :=
  match s with
  | EmptyString => true
  | String c rest => negb (bad c) && free_of bad rest
  end.

Definition is_semicolon (c : Ascii.ascii) : bool := Ascii.eqb c ";"%char.

(** A cookie name holds no semicolon, no equals sign and no white space; a
    cookie value holds no semicolon. *)
Definition name_char_excluded (c : Ascii.ascii) : bool :=
  is_semicolon c || Ascii.eqb c "="%char || Socket.is_space c.

Definition well_formed (cookies : list (string * string)) : Prop :=
  Forall (λ nv, free_of name_char_excluded nv.1 = true ∧ free_of is_semicolon nv.2 = true)
    cookies.

(** The value of the first cookie named [token] that is not empty. *)
Fixpoint first_token (cookies : list (string * string)) : option string :=
  match cookies with
  | [] => None
  | (n, v) :: rest =>
      if String.eqb n "token" && negb (String.eqb v "") then Some v
      else first_token rest
  end.

End CookieHeader.

(** ** The scheduled jobs: scheduler.ts and the functions of db/schema.sql *)

Module Jobs.
Import Http Auth.

(** [CREATE TYPE attendance_status] *)
Inductive attendance_status := Present | Absent | HalfDay | OnLeave | Late.

(** The columns of [attendance] the jobs read or write; a DATE is a day
    number, a TIME the text the statement passes. *)
Record attendance_row := AttendanceRow {
  a_user_id : option Z;
  a_date : Z;
  a_status : attendance_status;
  a_check_in_time : option string;
  a_check_out_time : option string;
  a_remarks : option string
}.

(** [holidays] by the dates of its rows. *)
Record store := Store {
  users : gmap Z user_row;
  attendance : gmap Z attendance_row;
  attendance_id_seq : Z;
  holidays : list Z
}.

(** Some row of [attendance] is of user [u] on day [d]: the conflict target
    of [UNIQUE(user_id, date)]. *)
Definition has_row (att : gmap Z attendance_row) (u d : Z) : Prop :=
  map_Exists (λ _ r, a_user_id r = Some u ∧ a_date r = d) att.

(** [UNIQUE(user_id, date)]; rows whose [user_id] is NULL never conflict. *)
Definition unique_user_date (att : gmap Z attendance_row) : Prop :=
  ∀ i j r1 r2 u, att !! i = Some r1 → att !! j = Some r2 →
    a_user_id r1 = Some u → a_user_id r2 = Some u → a_date r1 = a_date r2 → i = j.

(** The sequence of the ids is ahead of every row, as it is when every row
    took its id from it. *)
Definition seq_ahead (s : store) : Prop :=
  map_Forall (λ i _, i < attendance_id_seq s) (attendance s).

(** [WHERE status = 'Active'] *)
Definition is_active (r : user_row) : bool := bool_decide (u_status r = Some "Active").

(** [role NOT IN (...)]; on a NULL role the condition is not true. *)
Definition role_not_in (excluded : list string) (r : user_row) : bool :=
  match u_role r with
  | Some x => bool_decide (x ∉ excluded)
  | None => false
  end.

(** [SELECT id FROM users WHERE ...], in the order of the scan.  SQL leaves
    that order open: it is the order of the rows' places in the table, which
    [place] gives for each id. *)
Definition scanned_before (place : Z → Z) (i j : Z) : Prop := place i ≤ place j.

#[global] Instance scanned_before_dec place i j : Decision (scanned_before place i j).
Proof. unfold scanned_before. apply _. Defined.

Definition select_ids (place : Z → Z) (f : Z → user_row → bool) (t : gmap Z user_row)
  : list Z :=
  merge_sort (scanned_before place)
    (map_to_list (filter (λ kv : Z * user_row, f kv.1 kv.2 = true) t)).*1.

(** The number of active users. *)
Definition active_count (s : store) : nat :=
  size (filter (λ kv : Z * user_row, is_active kv.2 = true) (users s)).

(** [id SERIAL]: the sequence hands out no value above this one. *)
Definition serial_max : Z := 2147483647.

(** The sequence of the ids can still hand out [k] values. *)
Definition ids_left (k : nat) (s : store) : Prop :=
  attendance_id_seq s + Z.of_nat k ≤ serial_max + 1.

(** The rows after an INSERT, the sequence and the row count; or the
    statement aborted, which rolls the rows back but not the sequence. *)
Inductive inserted :=
| Rows (att : gmap Z attendance_row) (seq : Z) (rowCount : nat)
| Aborted (seq : Z).

Definition absent_row (u d : Z) (remarks : string) : attendance_row :=
  AttendanceRow (Some u) d Absent None None (Some remarks).

(** [INSERT INTO attendance (user_id, date, status, remarks) SELECT ...] row
    by row.  Each row takes its id from the sequence, which raises once it
    has handed out [serial_max]; a row that conflicts on (user_id, date) is
    skipped under [ON CONFLICT (user_id, date) DO NOTHING] and aborts the
    statement otherwise, and an id already in use aborts it. *)
Fixpoint insert_absent (do_nothing : bool) (remarks : string) (d : Z) (us : list Z)
    (att : gmap Z attendance_row) (seq : Z) (n : nat) : inserted :=
  match us with
  | [] => Rows att seq n
  | u :: rest =>
      if bool_decide (serial_max < seq) then Aborted seq
      else if bool_decide (has_row att u d) then
        if do_nothing then insert_absent do_nothing remarks d rest att (seq + 1) n
        else Aborted (seq + 1)
      else if bool_decide (is_Some (att !! seq)) then Aborted (seq + 1)
      else insert_absent do_nothing remarks d rest
             (<[seq := absent_row u d remarks]> att) (seq + 1) (S n)
  end.

Inductive job_result :=
| SkippedSunday
| SkippedHoliday
| Completed (rowCount : nat)
| Failed.

(** The job of midnight; [weekday] is [today.getDay()] and [today] the
    CURRENT_DATE of the database. *)
Definition autoAbsent (place : Z → Z) (weekday today : Z) (s : store)
  : job_result * store :=
  if bool_decide (weekday = 0) then (SkippedSunday, s)
  else if bool_decide (today ∈ holidays s) then (SkippedHoliday, s)
  else
    match insert_absent true "System Auto-marked" today
            (select_ids place (λ _ r, is_active r) (users s))
            (attendance s) (attendance_id_seq s) 0 with
    | Rows att seq n => (Completed n, Store (users s) att seq (holidays s))
    | Aborted seq => (Failed, Store (users s) (attendance s) seq (holidays s))
    end.

(** The function [auto_mark_absent_users()] of schema.sql; the NOT EXISTS
    sees the rows as they were before the statement. *)
Definition auto_mark_absent_users (place : Z → Z) (today : Z) (s : store) : inserted :=
  insert_absent false "System Auto-marked: No check-in by 7 PM" today
    (select_ids place (λ i r, is_active r && role_not_in ["super_admin"] r &&
                        negb (bool_decide (has_row (attendance s) i today)))
       (users s))
    (attendance s) (attendance_id_seq s) 0.

(** The row is one the UPDATE of the job of 23:30 closes. *)
Definition closes (t : gmap Z user_row) (d : Z) (r : attendance_row) : bool :=
  bool_decide (a_date r = d) && bool_decide (a_check_out_time r = None) &&
  match a_user_id r with
  | Some u =>
      match t !! u with
      | Some row => role_not_in ["admin"; "super_admin"] row
      | None => false
      end
  | None => false
  end.

(** [CASE WHEN remarks IS NULL OR remarks = '' THEN ... ELSE ... END] *)
Definition closing_remarks (remarks : option string) : string :=
  match remarks with
  | None => "Auto Clock-out"
  | Some x => if String.eqb x "" then "Auto Clock-out" else x +:+ " | Auto Clock-out"
  end.

Definition close (time : string) (r : attendance_row) : attendance_row :=
  AttendanceRow (a_user_id r) (a_date r) (a_status r) (a_check_in_time r)
    (Some time) (Some (closing_remarks (a_remarks r))).

(** [RETURNING user_id] of the rows closed. *)
Definition closed_users (t : gmap Z user_row) (d : Z) (att : gmap Z attendance_row)
  : gset Z :=
  list_to_set (omap (λ kv : Z * attendance_row,
                       if closes t d kv.2 then a_user_id kv.2 else None)
                 (map_to_list att)).

(** The job of 23:30; [currentDate] is the UTC date of the server.  It
    returns the row count of the UPDATE of [users]. *)
Definition autoClockOut (currentDate : Z) (s : store) : nat * store :=
  let closed := closed_users (users s) currentDate (attendance s) in
  (size (filter (λ kv : Z * user_row, kv.1 ∈ closed) (users s)),
   Store (map_imap (λ i row, Some (if bool_decide (i ∈ closed)
                                   then set_session None row else row)) (users s))
     ((λ r, if closes (users s) currentDate r then close "23:30:00" r else r)
        <$> attendance s)
     (attendance_id_seq s) (holidays s)).

End Jobs.

(** ** Sample users for the authentication routes *)

Module SampleAuth.

(** An admin with an active session and an employee with two-factor
    authentication who is logged out. *)
Definition admin_row : Auth.user_row :=
  Auth.UserRow "admin@office.test" "hash-of-secret" (Some "admin") (Some "Active") false None
    (Some "session-1").
Definition staff_row : Auth.user_row :=
  Auth.UserRow "staff@office.test" "hash-of-pass" (Some "employee") (Some "Active") true
    (Some "hash-of-123456") None.
Definition users : gmap Z Auth.user_row := {[ 1 := admin_row; 2 := staff_row ]}.

Definition matchPassword : string → string → option bool :=
  λ plain hash, Some (String.eqb ("hash-of-" +:+ plain) hash).
Definition generateToken :
    Z → string → option string → bool → option string → option string :=
  λ _ _ _ _ sid, Some ("token-of-" +:+ default "" sid).
Definition decodeToken : string → Auth.decoded := λ t, Auth.Decoded (Sample.verify t).

(** The admin logs in from a second device, first as is, then forcing the
    logout of the first. *)
Definition admin_login : Auth.login_body :=
  Auth.LoginBody "admin@office.test" "secret" false.
Definition forced_login : Auth.login_body :=
  Auth.LoginBody "admin@office.test" "secret" true.

End SampleAuth.

(** ** A sample office for the scheduled jobs *)

Module SampleJobs.

(** The admin and the employee of [SampleAuth], the owner of the system, a
    second employee with a session and a user whose role is NULL; all of
    them active. *)
Definition owner_row : Auth.user_row :=
  Auth.UserRow "owner@office.test" "hash-of-owner" (Some "super_admin") (Some "Active")
    false None None.
Definition clerk_row : Auth.user_row :=
  Auth.UserRow "clerk@office.test" "hash-of-clerk" (Some "employee") (Some "Active")
    false None (Some "session-7").
Definition guest_row : Auth.user_row :=
  Auth.UserRow "guest@office.test" "hash-of-guest" None (Some "Active") false None None.

(** On day 20 the employee checked in at nine and has not checked out. *)
Definition office : Jobs.store :=
  Jobs.Store
    (<[3 := owner_row]> (<[4 := clerk_row]> (<[5 := guest_row]> SampleAuth.users)))
    {[ 1 := Jobs.AttendanceRow (Some 2) 20 Jobs.Present (Some "09:00:00") None None ]}
    2 [25].

(** A scan that returns the users in the order of their ids. *)
Definition by_id : Z → Z := λ i, i.

End SampleJobs.

(** * Properties *)

(** ** The HTTP gate and the chat router *)

Section HttpGate.
Import Http ChatRoutes.
Variable verify : Jwt.verifier.
Variable query_session : session_db.
Variable run_handler : handler → params → Jwt.payload → request → response.

Lemma authenticateToken_missing req :
  truthy (cookie_token req) = false →
  authenticateToken verify query_session req =
    Respond (Response 401 "Authentication failed: Token is missing" false).
Proof. intros H. unfold authenticateToken. by rewrite H. Qed.

Lemma authenticateToken_invalid req :
  truthy (cookie_token req) = true →
  verify (default "" (cookie_token req)) = None →
  authenticateToken verify query_session req =
    Respond (Response 403 "Authentication failed: Invalid or expired token" false).
Proof. intros H1 H2. unfold authenticateToken. by rewrite H1, H2. Qed.

Lemma router_turns_away req :
  lacks_valid_token verify req →
  out_ran (chat_router verify query_session run_handler req) = [] ∧
  status (out_response (chat_router verify query_session run_handler req)) =
    (if truthy (cookie_token req) then 403 else 401).
Proof.
  intros Hno. unfold chat_router.
  destruct (truthy (cookie_token req)) eqn:Htok.
  - destruct Hno as [Hno | Hno]; [congruence |].
    by rewrite authenticateToken_invalid.
  - by rewrite authenticateToken_missing.
Qed.

(** C1 (amended): a request to the chat router without a token cookie is
    answered 401, one whose token fails verification is answered 403, and
    in both cases no controller function runs, whatever the method and the
    path. *)
Theorem chat_router_turns_away_unauthenticated req :
  lacks_valid_token verify req →
  out_ran (chat_router verify query_session run_handler req) = [] ∧
  status (out_response (chat_router verify query_session run_handler req)) =
    (if truthy (cookie_token req) then 403 else 401) ∧
  authenticateToken verify query_session req =
    Respond (if truthy (cookie_token req)
             then Response 403 "Authentication failed: Invalid or expired token" false
             else Response 401 "Authentication failed: Token is missing" false).
Proof.
  intros Hno. destruct (router_turns_away req Hno) as [Hran Hst].
  split_and!; [done | done |].
  destruct (truthy (cookie_token req)) eqn:Htok.
  - destruct Hno as [Hno | Hno]; [congruence |].
    by apply authenticateToken_invalid.
  - by apply authenticateToken_missing.
Qed.

(** The same for a request as the application receives it, under the mount
    point of the chat router. *)
Lemma app_turns_away_unauthenticated req o :
  app verify query_session run_handler req = Some o →
  lacks_valid_token verify req →
  out_ran o = [] ∧
  status (out_response o) = (if truthy (cookie_token req) then 403 else 401).
Proof.
  intros Happ Hno. unfold app in Happ.
  destruct (under_mount (req_path req)) as [rest |]; [| done].
  injection Happ as <-.
  exact (router_turns_away (Request (req_method req) rest (cookie_token req)) Hno).
Qed.
End HttpGate.

Lemma chat_router_turns_away_unauthenticated_witness :
  Http.lacks_valid_token Sample.reject_all (Http.Request Http.GET "/" None) ∧
  ChatRoutes.out_ran (ChatRoutes.chat_router Sample.reject_all Sample.no_sessions Sample.ok_handler
                        (Http.Request Http.GET "/" None)) = [] ∧
  Http.status (ChatRoutes.out_response
                 (ChatRoutes.chat_router Sample.reject_all Sample.no_sessions Sample.ok_handler
                    (Http.Request Http.GET "/" None))) = 401.
Proof.
  split; [left; reflexivity |].
  destruct (chat_router_turns_away_unauthenticated Sample.reject_all Sample.no_sessions
              Sample.ok_handler (Http.Request Http.GET "/" None)) as (Hran & Hst & _).
  - left; reflexivity.
  - split; [exact Hran | exact Hst].
Defined.

(** C1 as stated fails: a request whose token fails verification is answered
    403, not 401. *)
Lemma chat_router_invalid_token_is_403 :
  ¬ (∀ verify query_session run_handler req,
       Http.lacks_valid_token verify req →
       Http.status (ChatRoutes.out_response
                      (ChatRoutes.chat_router verify query_session run_handler req)) = 401 ∧
       ChatRoutes.out_ran (ChatRoutes.chat_router verify query_session run_handler req) = []).
Proof.
  intros H.
  destruct (H Sample.reject_all Sample.no_sessions Sample.ok_handler
              (Http.Request Http.GET "/" (Some "expired.token.value"))) as [Hst _].
  - right; reflexivity.
  - vm_compute in Hst. discriminate.
Qed.

(** ** The REST surface *)

Section RestSurface.
Import Http ChatRoutes.

Lemma split_slash_nonempty s : split_slash s ≠ [].
Proof. induction s as [| c s IH]; simpl; [done |]. by repeat case_match. Qed.

(** A slash-free segment in front of a slash is the first segment. *)
Lemma split_slash_segment seg rest :
  slash_free seg = true →
  split_slash (seg +:+ String "/" rest) = seg :: split_slash rest.
Proof.
  induction seg as [| c seg IH]; simpl; [done |].
  intros H. apply andb_true_iff in H as [Hc Hseg]. apply negb_true_iff in Hc.
  rewrite Hc, (IH Hseg). done.
Qed.

Lemma under_mount_sub rest :
  under_mount (mount +:+ String "/" rest) = Some (String "/" rest).
Proof. reflexivity. Qed.

(** The routes with a chat identifier, inside the router. *)
Lemma dispatch_chat_route m id action d :
  is_segment id →
  first_match routes m [id; action] = d →
  slash_free action = true → action ≠ "" →
  reach m (mount +:+ "/" +:+ id +:+ "/" +:+ action) = d.
Proof.
  intros [Hne Hid] Hfirst Hact Hane.
  assert (Hpath : mount +:+ "/" +:+ id +:+ "/" +:+ action =
                  mount +:+ String "/" (id +:+ String "/" action)) by reflexivity.
  rewrite Hpath. unfold reach. rewrite under_mount_sub. unfold dispatch.
  assert (Hsegs : path_segments (String "/" (id +:+ String "/" action)) =
                  Some (drop_trailing_empty (split_slash (id +:+ String "/" action))))
    by reflexivity.
  rewrite Hsegs, (split_slash_segment id action Hid).
  assert (Hsplit : split_slash action = [action]).
  { clear -Hact. induction action as [| c a IH]; simpl; [done |].
    simpl in Hact. apply andb_true_iff in Hact as [Hc Ha]. apply negb_true_iff in Hc.
    rewrite Hc, (IH Ha). done. }
  rewrite Hsplit. simpl drop_trailing_empty.
  destruct (String.eqb_spec action ""); [done |]. exact Hfirst.
Qed.

Local Arguments String.eqb : simpl never.
Local Arguments Uri.decodeURIComponent : simpl never.

Lemma if_same {A : Type} (b : bool) (x : A) : (if b then x else x) = x.
Proof. by destruct b. Qed.

(** One step of the routing of a path whose first segment is a variable:
    a literal in front of that segment leads nowhere either way, and the
    other comparisons are computed. *)
Ltac route_step :=
  cbn [first_match routes route_path route_method route_handler match_segments
       option_map decode_params];
  first
    [ rewrite if_same
    | match goal with
      | |- context [eqb_nocase ?a ?b] =>
          let v := eval vm_compute in (eqb_nocase a b) in
          replace (eqb_nocase a b) with v by (vm_compute; reflexivity)
      | |- context [bool_decide (?x = ?y)] =>
          let v := eval vm_compute in (bool_decide (x = y)) in
          replace (bool_decide (x = y)) with v by (vm_compute; reflexivity)
      end ].

(** C3 (amended): under the mount point /api/chats every listed method and
    path reaches its controller function, the creation of a group or space
    being at POST /api/chats/create; a chat identifier in the path reaches
    the controller function percent-decoded, and one that does not decode is
    answered 400. *)
Theorem rest_surface_registered (id : string) :
  is_segment id →
  reach GET "/api/chats" = Hit getChats [] ∧
  reach GET ("/api/chats" +:+ "/" +:+ id +:+ "/" +:+ "messages")
    = with_chatId getMessages id ∧
  reach POST "/api/chats/dm" = Hit getOrCreateDirectChat [] ∧
  reach GET "/api/chats/users" = Hit getUsers [] ∧
  reach POST "/api/chats/create" = Hit createChat [] ∧
  reach POST "/api/chats/mark-read" = Hit markMessagesRead [] ∧
  reach POST ("/api/chats" +:+ "/" +:+ id +:+ "/" +:+ "add-members")
    = with_chatId addMembers id ∧
  reach POST ("/api/chats" +:+ "/" +:+ id +:+ "/" +:+ "make-admin")
    = with_chatId makeAdmin id ∧
  reach POST ("/api/chats" +:+ "/" +:+ id +:+ "/" +:+ "remove-member")
    = with_chatId removeMember id ∧
  reach POST ("/api/chats" +:+ "/" +:+ id +:+ "/" +:+ "leave")
    = with_chatId leaveChat id.
Proof.
  intros Hid. pose proof Hid as [Hne _].
  assert (Hroute : ∀ m action h,
            slash_free action = true → action ≠ "" →
            first_match routes m [id; action] = with_chatId h id →
            reach m ("/api/chats" +:+ "/" +:+ id +:+ "/" +:+ action) = with_chatId h id).
  { intros m action h Hfree Hact Hfirst. by apply (dispatch_chat_route m id action). }
  split_and!.
  1, 3, 4, 5, 6: vm_compute; reflexivity.
  all: apply Hroute; [reflexivity | discriminate |]; unfold with_chatId;
    cbn [first_match routes route_path route_method route_handler match_segments
         option_map decode_params];
    destruct (String.eqb_spec id "") as [-> | Hx]; try done;
    destruct (Uri.decodeURIComponent id) eqn:Hdec;
    repeat (route_step; rewrite ?Hdec); reflexivity.
Qed.

(** Nothing but the registered routes is reachable: a hit of the dispatch is
    a registration with that method whose path matches, with the parameters
    of the path decoded. *)
Lemma dispatch_only_registered m path h ps :
  dispatch m path = Hit h ps →
  ∃ r segs raw, r ∈ routes ∧ route_method r = m ∧ route_handler r = h ∧
                path_segments path = Some segs ∧
                match_segments (route_path r) segs = Some raw ∧
                decode_params raw = Some ps.
Proof.
  unfold dispatch. destruct (path_segments path) as [segs |]; [| done].
  generalize routes. intros rs. induction rs as [| r rs IH]; [done |].
  simpl.
  destruct (match_segments (route_path r) segs) as [raw |] eqn:Hseg.
  - destruct (decode_params raw) as [ps' |] eqn:Hdec; [| done].
    case_bool_decide as Hm.
    + intros [= <- <-]. exists r, segs, raw. split_and!; try done. by left.
    + intros (r' & segs' & raw' & Hin & ?)%IH. exists r', segs', raw'.
      split; [by right | done].
  - intros (r' & segs' & raw' & Hin & ?)%IH. exists r', segs', raw'.
    split; [by right | done].
Qed.

(** A parameter with a malformed escape ends the routing with 400 whatever
    the method, since the path is matched and decoded before the method is
    looked at. *)
Lemma malformed_chatId_is_400 m id action :
  is_segment id → Uri.decodeURIComponent id = None →
  Lit action ∈ [Lit "messages"; Lit "add-members"; Lit "make-admin";
                Lit "remove-member"; Lit "leave"] →
  reach m ("/api/chats" +:+ "/" +:+ id +:+ "/" +:+ action) = BadRequest.
Proof.
  intros Hid Hbad Hact. pose proof Hid as [Hne _].
  repeat (apply elem_of_cons in Hact as [[= ->] | Hact]);
    [.. | by apply elem_of_nil in Hact];
    (apply (dispatch_chat_route _ id); [done | | reflexivity | done]);
    cbn [first_match routes route_path route_method route_handler match_segments
         option_map decode_params];
    destruct (String.eqb_spec id "") as [-> | Hx]; try done;
    rewrite ?Hbad; repeat (route_step; rewrite ?Hbad); reflexivity.
Qed.
End RestSurface.

Lemma rest_surface_registered_witness :
  ChatRoutes.is_segment "4%32" ∧
  ChatRoutes.reach Http.GET "/api/chats/4%32/messages"
    = ChatRoutes.Hit ChatRoutes.getMessages [("chatId", Uri.of_string "42")] ∧
  ChatRoutes.reach Http.POST "/api/chats/4%32/leave"
    = ChatRoutes.Hit ChatRoutes.leaveChat [("chatId", Uri.of_string "42")].
Proof.
  assert (H : ChatRoutes.is_segment "4%32") by (split; [discriminate | reflexivity]).
  split; [exact H |].
  pose proof (rest_surface_registered "4%32" H)
    as (_ & Hm & _ & _ & _ & _ & _ & _ & _ & Hl).
  split; [exact Hm | exact Hl].
Defined.

(** C3 as stated fails: no route is registered for POST on the root of the
    chat router, with or without the /api prefix, the creation route being
    /create; and a chat identifier with a malformed escape reaches no
    controller function. *)
Lemma rest_surface_post_root_unrouted :
  ChatRoutes.reach Http.POST "/api/chats" = ChatRoutes.Miss ∧
  ChatRoutes.reach Http.POST "/api/chats/" = ChatRoutes.Miss ∧
  ChatRoutes.reach Http.POST "/chats" = ChatRoutes.Miss ∧
  ChatRoutes.dispatch Http.POST "/" = ChatRoutes.Miss ∧
  ChatRoutes.reach Http.GET "/api/chats/%/messages" = ChatRoutes.BadRequest.
Proof. repeat split; vm_compute; reflexivity. Qed.

(** The letter case of the path and one slash at its end do not matter, and
    the path is matched before the method: a malformed identifier is answered
    400 also where the method has no route. *)
Example routing_on_sample_paths :
  ChatRoutes.reach Http.GET "/API/Chats/42/Messages/"
    = ChatRoutes.Hit ChatRoutes.getMessages [("chatId", Uri.of_string "42")] ∧
  ChatRoutes.reach Http.POST "/api/chats/DM" = ChatRoutes.Hit ChatRoutes.getOrCreateDirectChat [] ∧
  ChatRoutes.reach Http.GET "/api/chats/%zz/leave" = ChatRoutes.BadRequest ∧
  ChatRoutes.reach Http.GET "/api/chats/42/leave" = ChatRoutes.Miss ∧
  ChatRoutes.reach Http.GET "/api/chats/%E2%82%AC/messages"
    = ChatRoutes.Hit ChatRoutes.getMessages [("chatId", [8364%N])] ∧
  ChatRoutes.reach Http.GET "/api/chats/%C0%80/messages" = ChatRoutes.BadRequest.
Proof. repeat split; vm_compute; reflexivity. Qed.

(** ** The two gates compared *)

Section TwoGates.
Import Http Socket.
Variable verify : Jwt.verifier.
Variable query_session : session_db.

Lemma truthy_Some s : s ≠ "" → truthy (Some s) = true.
Proof. intros H. simpl. by destruct (String.eqb_spec s ""). Qed.

(** A cookie header that holds just the token cookie. *)
Lemma tokenMatch_single t :
  t ≠ "" → until_semicolon t = t → tokenMatch ("token=" +:+ t) = Some t.
Proof.
  intros Hne Hsemi. unfold tokenMatch, token_here.
  change (ChatRoutes.strip_prefix "token=" ("token=" +:+ t)) with (Some t).
  cbv beta iota zeta. rewrite Hsemi. by destruct (String.eqb_spec t "").
Qed.

(** The HTTP gate on a token of an admin whose stored session is another
    one. *)
Lemma authenticateToken_stale_session t u sid others m p :
  verify t = Some u →
  Jwt.role u = "admin" ∨ Jwt.role u = "super_admin" →
  query_session (Jwt.id u) = Some (Some sid :: others) →
  sid ≠ "" →
  Jwt.sessionId u ≠ Some sid →
  t ≠ "" →
  authenticateToken verify query_session (Request m p (Some t)) =
    Respond (Response 401 "Session expired. You logged in on another device." true).
Proof.
  intros Hv Hrole Hq Hsid Hstale Ht.
  unfold authenticateToken. simpl cookie_token.
  rewrite (truthy_Some t Ht). simpl. rewrite Hv.
  assert (Hr : is_single_session_role (Jwt.role u) = true).
  { unfold is_single_session_role. destruct Hrole as [-> | ->]; reflexivity. }
  rewrite Hr, Hq, (truthy_Some sid Hsid).
  unfold strict_neq. rewrite bool_decide_eq_false_2 by done. reflexivity.
Qed.

(** The socket gate on a handshake whose cookie header is the token
    cookie. *)
Lemma io_use_verified t u :
  verify t = Some u → t ≠ "" → until_semicolon t = t →
  io_use verify (Some ("token=" +:+ t)) = Accepted u.
Proof.
  intros Hv Ht Hsemi.
  unfold io_use. rewrite truthy_Some by (simpl; discriminate).
  simpl default. rewrite (tokenMatch_single t Ht Hsemi). simpl. by rewrite Hv.
Qed.

(** A token signed by [generateToken_payload] carries no session
    identifier: once a session is stored for an admin, the HTTP gate turns
    every such token away. *)
Lemma unsessioned_admin_token_rejected t i e r v sid others m p :
  verify t = Some (Jwt.generateToken_payload i e r v) →
  r = "admin" ∨ r = "super_admin" →
  query_session i = Some (Some sid :: others) →
  sid ≠ "" → t ≠ "" →
  authenticateToken verify query_session (Request m p (Some t)) =
    Respond (Response 401 "Session expired. You logged in on another device." true).
Proof.
  intros Hv Hr Hq Hsid Ht.
  by apply (authenticateToken_stale_session t _ sid others m p Hv).
Qed.

(** C9: a verified admin or super-admin token whose session identifier
    differs from the one stored for the user is turned away by the HTTP
    middleware with 401 and a cleared cookie, and the same token opens a
    socket connection. *)
Theorem gates_disagree_on_stale_session t u sid others m p :
  verify t = Some u →
  Jwt.role u = "admin" ∨ Jwt.role u = "super_admin" →
  query_session (Jwt.id u) = Some (Some sid :: others) →
  sid ≠ "" →
  Jwt.sessionId u ≠ Some sid →
  t ≠ "" → until_semicolon t = t →
  authenticateToken verify query_session (Request m p (Some t)) =
    Respond (Response 401 "Session expired. You logged in on another device." true) ∧
  io_use verify (Some ("token=" +:+ t)) = Accepted u.
Proof.
  intros Hv Hrole Hq Hsid Hstale Ht Hsemi. split.
  - by apply (authenticateToken_stale_session t u sid others).
  - by apply io_use_verified.
Qed.
End TwoGates.

(** ** The socket gate *)

Section SocketGate.
Import Socket.
Variable verify : Jwt.verifier.
Variable on_connection : Jwt.payload → gset string.
Variable on_event : Jwt.payload → gset string → string → gset string.

(** Not presenting a valid token is carrying no token cookie or one that
    fails verification. *)
Lemma invalid_handshake_cases hdr :
  ¬ presents_valid_token verify hdr ↔
  tokenMatch (default "" hdr) = None ∨
  ∃ t, tokenMatch (default "" hdr) = Some t ∧ verify t = None.
Proof.
  unfold presents_valid_token. split.
  - intros Hno. destruct (tokenMatch (default "" hdr)) as [t |]; [| by left].
    right. exists t. split; [done |].
    destruct (verify t) as [u |] eqn:Hu; [| done]. exfalso. apply Hno. by exists t, u.
  - intros [Hnone | (t & Ht & Hv)] (t' & u & Ht' & Hu); congruence.
Qed.
Lemma io_use_refuses hdr :
  ¬ presents_valid_token verify hdr → ∃ e, io_use verify hdr = Refused e.
Proof.
  intros Hno. unfold io_use.
  destruct (truthy hdr); simpl; [| by eexists].
  destruct (tokenMatch (default "" hdr)) as [t |] eqn:Ht; [| by eexists].
  destruct (verify t) as [u |] eqn:Hu; [| by eexists].
  exfalso. apply Hno. by exists t, u.
Qed.

Lemma step_outside hdr c i :
  ¬ presents_valid_token verify hdr →
  outside hdr c → outside hdr (step verify on_connection on_event c i).
Proof.
  intros Hno [[Hc | Hc] Hh]; unfold step; rewrite Hc.
  - destruct i; simpl.
    + destruct (io_use_refuses hdr Hno) as [e ->]. split; [by right | done].
    + split; [by left | done].
    + split; [by right | done].
  - destruct i; (split; [by right | done]).
Qed.

Lemma run_outside hdr inputs c :
  ¬ presents_valid_token verify hdr →
  outside hdr c → outside hdr (run verify on_connection on_event c inputs).
Proof.
  intros Hno. revert c. induction inputs as [| i inputs IH]; intros c Hc; [done |].
  simpl. apply IH. by apply step_outside.
Qed.

(** C2: a connection attempt without a token cookie, or with a token that
    fails verification, is never joined to a room and none of its events
    is handled, whatever arrives on it and in whatever order. *)
Theorem refused_handshake_stays_outside hdr inputs :
  ¬ presents_valid_token verify hdr →
  let c := run verify on_connection on_event (attempt hdr) inputs in
  rooms_of c = ∅ ∧ conn_handled c = [] ∧ (∀ u rooms, conn c ≠ Joined u rooms) ∧
  (Handshake ∈ inputs → conn c = Disconnected).
Proof.
  intros Hno c.
  assert (Hout : outside hdr c).
  { apply run_outside; [done |]. split; [by left | done]. }
  destruct Hout as [Hc Hh]. repeat split.
  - unfold rooms_of. by destruct Hc as [-> | ->].
  - done.
  - intros u rooms. by destruct Hc as [-> | ->].
  - intros Hin. subst c. clear Hc Hh.
    assert (Hgen : ∀ c0, outside hdr c0 →
              conn (run verify on_connection on_event c0 inputs) = Disconnected).
    { induction inputs as [| i inputs IH]; intros c0 Hc0; [by apply elem_of_nil in Hin |].
      simpl. apply elem_of_cons in Hin as [<- | Hin].
      - assert (Hd : conn (step verify on_connection on_event c0 Handshake) = Disconnected).
        { destruct Hc0 as [[Hc | Hc] _]; unfold step; rewrite Hc; [| done].
          by destruct (io_use_refuses hdr Hno) as [e ->]. }
        clear IH. revert Hd.
        generalize (step verify on_connection on_event c0 Handshake).
        induction inputs as [| j inputs IH]; intros c1 Hd; [done |].
        simpl. apply IH. unfold step. rewrite Hd. by destruct j.
      - apply IH; [done |]. by apply step_outside. }
    apply Hgen. split; [by left | done].
Qed.
End SocketGate.

Lemma gates_disagree_on_stale_session_witness :
  Http.authenticateToken Sample.verify Sample.sessions
    (Http.Request Http.GET "/" (Some "first.login.token")) =
    Http.Respond (Http.Response 401 "Session expired. You logged in on another device." true) ∧
  Socket.io_use Sample.verify (Some "token=first.login.token") = Socket.Accepted Sample.first_login.
Proof.
  apply (gates_disagree_on_stale_session Sample.verify Sample.sessions
           "first.login.token" Sample.first_login "session-2" [] Http.GET "/").
  - reflexivity.
  - left; reflexivity.
  - reflexivity.
  - discriminate.
  - discriminate.
  - discriminate.
  - reflexivity.
Defined.

(** C9 as stated fails: a verified admin token whose session identifier
    differs from the stored one is let through by the HTTP middleware when
    the stored session is NULL; the check applies to a stored session that
    is neither NULL nor empty. *)
Lemma stale_session_passes_when_none_stored :
  ¬ (∀ (verify : Jwt.verifier) (query_session : Http.session_db) t u stored others m p,
       verify t = Some u →
       Jwt.role u = "admin" ∨ Jwt.role u = "super_admin" →
       query_session (Jwt.id u) = Some (stored :: others) →
       Jwt.sessionId u ≠ stored →
       t ≠ "" →
       Http.authenticateToken verify query_session (Http.Request m p (Some t)) =
         Http.Respond
           (Http.Response 401 "Session expired. You logged in on another device." true)).
Proof.
  intros H.
  assert (Hgate := H Sample.verify (λ _, Some [None]) "first.login.token"
                     Sample.first_login None [] Http.GET "/" eq_refl
                     (or_introl eq_refl) eq_refl ltac:(discriminate) ltac:(discriminate)).
  discriminate Hgate.
Qed.

Lemma refused_handshake_stays_outside_witness :
  ¬ Socket.presents_valid_token Sample.reject_all (Some "theme=dark; token=expired") ∧
  Socket.conn_handled
    (Socket.run Sample.reject_all Sample.on_connection Sample.on_event
       (Socket.attempt (Some "theme=dark; token=expired"))
       [Socket.Packet "join_chat"; Socket.Handshake; Socket.Packet "send_message"]) = [].
Proof.
  assert (H : ¬ Socket.presents_valid_token Sample.reject_all (Some "theme=dark; token=expired")).
  { intros (t & u & _ & Hu). discriminate Hu. }
  split; [exact H |].
  apply (refused_handshake_stays_outside Sample.reject_all Sample.on_connection
           Sample.on_event (Some "theme=dark; token=expired")
           [Socket.Packet "join_chat"; Socket.Handshake; Socket.Packet "send_message"] H).
Defined.

(** ** Referential integrity of the chat tables *)

Section Integrity.
Import Schema.

Lemma fk_chat_Some s c : fk_chat s (Some c) = true → is_Some (chats s !! c).
Proof. simpl. by intros ?%bool_decide_eq_true. Qed.

Ltac exec_cases H :=
  unfold exec in H; cbv zeta in H;
  repeat case_match; simplify_eq; simpl.

Lemma is_Some_insert_mono {A} (m : gmap Z A) i x c :
  is_Some (m !! c) → is_Some (<[i := x]> m !! c).
Proof. intros [y Hy]. rewrite lookup_insert. case_decide; eauto. Qed.

Lemma is_Some_fmap_mono {A} (f : A → A) (m : gmap Z A) c :
  is_Some (m !! c) → is_Some ((f <$> m) !! c).
Proof. intros [y Hy]. rewrite lookup_fmap, Hy. by eexists. Qed.

Lemma fk_checks_chat s c u :
  negb (fk_chat s c && fk_user s u) = false → ∀ i, c = Some i → is_Some (chats s !! i).
Proof.
  intros H i ->. apply negb_false_iff, andb_true_iff in H as [H _].
  by apply fk_chat_Some.
Qed.

Lemma exec_members_reference_chats st s s' :
  members_reference_chats s → exec st s = Some s' → members_reference_chats s'.
Proof.
  intros Hm Hex c u r. destruct st; exec_cases Hex; eauto.
  - (* DeleteUser *)
    rewrite map_lookup_filter_Some. intros [Hr _]. apply is_Some_fmap_mono. eauto.
  - (* InsertChat with a key *)
    intros Hr. apply is_Some_insert_mono. eauto.
  - (* InsertChat from the sequence *)
    intros Hr. apply is_Some_insert_mono. eauto.
  - (* UpdateChat *)
    intros Hr. apply is_Some_insert_mono. eauto.
  - (* DeleteChat *)
    rewrite map_lookup_filter_Some. simpl. intros [Hr Hne].
    rewrite lookup_delete_ne by done. eauto.
  - (* InsertMember *)
    rewrite lookup_insert. case_decide; simplify_eq; [| by eauto].
    intros _. by eapply fk_checks_chat.
  - (* UpdateMember *)
    rewrite lookup_insert. case_decide; simplify_eq; [| by eauto].
    intros _. match goal with H : bool_decide (is_Some _) = true |- _ =>
      apply bool_decide_eq_true in H as [r' Hr'] end. eauto.
  - (* DeleteMember *)
    rewrite lookup_delete. case_decide; [done | eauto].
Qed.

Lemma exec_messages_not_dangling st s s' :
  messages_not_dangling s → exec st s = Some s' → messages_not_dangling s'.
Proof.
  intros Hm Hex i m c. destruct st; exec_cases Hex; eauto.
  - (* DeleteUser *)
    rewrite lookup_fmap. intros Hr Hc.
    destruct (messages s !! i) as [m0 |] eqn:Hm0; simplify_eq/=.
    apply is_Some_fmap_mono. apply (Hm _ _ _ Hm0).
    revert Hc. unfold clear_sender. by case_bool_decide.
  - (* InsertChat with a key *)
    intros Hr Hc. apply is_Some_insert_mono. eauto.
  - (* InsertChat from the sequence *)
    intros Hr Hc. apply is_Some_insert_mono. eauto.
  - (* UpdateChat *)
    intros Hr Hc. apply is_Some_insert_mono. eauto.
  - (* DeleteChat *)
    rewrite map_lookup_filter_Some. simpl. intros [Hr Hne] Hc.
    rewrite lookup_delete_ne by congruence. eauto.
  - (* InsertMessage with a key *)
    rewrite lookup_insert. case_decide; simplify_eq; [| by eauto].
    intros ? Hc; simplify_eq. by eapply fk_checks_chat.
  - (* InsertMessage from the sequence *)
    rewrite lookup_insert. case_decide; simplify_eq; [| by eauto].
    intros ? Hc; simplify_eq. by eapply fk_checks_chat.
  - (* UpdateMessage *)
    rewrite lookup_insert. case_decide; simplify_eq; [| by eauto].
    intros ? Hc; simplify_eq. by eapply fk_checks_chat.
  - (* DeleteMessage *)
    rewrite lookup_delete. case_decide; [done | eauto].
Qed.

Lemma exec_ref_integrity st s s' :
  ref_integrity s → exec st s = Some s' → ref_integrity s'.
Proof.
  intros [Hmem Hmsg] Hex. split.
  - by eapply exec_members_reference_chats.
  - by eapply exec_messages_not_dangling.
Qed.

(** The cascade of [DeleteChat]: the chat row, its membership rows and its
    message rows are gone after the one statement. *)
Lemma delete_chat_cascades c s s' :
  exec (DeleteChat c) s = Some s' →
  chats s' !! c = None ∧
  (∀ u, chat_members s' !! (c, u) = None) ∧
  (∀ i m, messages s' !! i = Some m → chat_id m ≠ Some c).
Proof.
  intros Hex. simplify_eq/=. split_and!.
  - apply lookup_delete_eq.
  - intros u. apply map_lookup_filter_None. right. intros r _. simpl. tauto.
  - intros i m. rewrite map_lookup_filter_Some. simpl. tauto.
Qed.

(** C10 (amended): every statement the schema accepts keeps every
    membership row, and every message row whose chat_id is not NULL,
    referencing an existing chat; deleting a chat removes its membership
    and message rows in the same statement. *)
Theorem statements_keep_ref_integrity st s s' :
  ref_integrity s →
  exec st s = Some s' →
  ref_integrity s' ∧
  (∀ c, st = DeleteChat c →
     chats s' !! c = None ∧
     (∀ u, chat_members s' !! (c, u) = None) ∧
     (∀ i m, messages s' !! i = Some m → chat_id m ≠ Some c)).
Proof.
  intros Hs Hex. split.
  - by eapply exec_ref_integrity.
  - intros c ->. by apply (delete_chat_cascades c s).
Qed.

Lemma ref_integrity_empty : ref_integrity empty.
Proof. split; intros ?; intros; simplify_map_eq. Qed.

(** Every store built from the empty one satisfies the invariant. *)
Lemma ref_integrity_reachable sts : ref_integrity (exec_all sts empty).
Proof.
  unfold exec_all. generalize ref_integrity_empty. generalize empty.
  induction sts as [| st sts IH]; intros s Hs; [done |].
  simpl. apply IH. destruct (exec st s) as [s' |] eqn:Hex; [| done].
  simpl. by eapply exec_ref_integrity.
Qed.
End Integrity.

Lemma statements_keep_ref_integrity_witness :
  Schema.ref_integrity (Schema.exec_all [Schema.DeleteChat 1] Sample.eng) ∧
  Schema.chats (Schema.exec_all [Schema.DeleteChat 1] Sample.eng) !! 1 = None.
Proof.
  destruct (statements_keep_ref_integrity (Schema.DeleteChat 1) Sample.eng
              (Schema.exec_all [Schema.DeleteChat 1] Sample.eng)
              (ref_integrity_reachable Sample.eng_statements) eq_refl) as [Hint Hdel].
  split; [exact Hint |]. exact (proj1 (Hdel 1 eq_refl)).
Defined.

(** C10 as stated fails: the schema accepts a message row whose chat_id is
    NULL, and such a row references no chat. *)
Lemma message_without_chat_accepted :
  ¬ Schema.messages_reference_chats
      (Schema.exec_all [Schema.InsertMessage None Sample.notice] Schema.empty).
Proof.
  intros H. destruct (H 1 Sample.notice) as (c & Hc & _); [reflexivity |].
  discriminate Hc.
Qed.

(** ** Membership snapshots *)

Section Membership.
Import Schema Chat.

Lemma elem_of_members_of s c u :
  u ∈ members_of s c ↔ is_Some (chat_members s !! (c, u)).
Proof.
  unfold members_of. rewrite elem_of_map. split.
  - intros ([c' u'] & -> & [Hc Hdom]%elem_of_filter). simpl in *. subst c'.
    by apply elem_of_dom.
  - intros H. exists (c, u). split; [done |].
    apply elem_of_filter. split; [done | by apply elem_of_dom].
Qed.

Lemma elem_of_admins_of s c u :
  u ∈ admins_of s c ↔ ∃ r, chat_members s !! (c, u) = Some r ∧ is_admin r = true.
Proof.
  unfold admins_of. rewrite elem_of_map. split.
  - intros ([c' u'] & -> & [r Hr]%elem_of_dom).
    apply map_lookup_filter_Some in Hr as [Hr [Hc Ha]]. simpl in *. subst c'. eauto.
  - intros (r & Hr & Ha). exists (c, u). split; [done |].
    apply elem_of_dom. exists r. by apply map_lookup_filter_Some.
Qed.

Lemma admins_are_members s c : admins_of s c ⊆ members_of s c.
Proof.
  intros u (r & Hr & _)%elem_of_admins_of. apply elem_of_members_of. by eexists.
Qed.

Lemma members_after_delete_chat s c :
  members_of (default s (exec (DeleteChat c) s)) c = ∅.
Proof.
  apply set_eq. intros u. rewrite elem_of_members_of. simpl.
  split; [| by intros ?%not_elem_of_empty].
  intros [r Hr]. apply map_lookup_filter_Some in Hr as [_ Hne]. simpl in Hne. done.
Qed.
End Membership.

(** ** Leaving a chat *)

Section Leave.
Import Schema Chat.

(** C5: in a group or space whose only admin is [a1], [leaveChat] by [a1]
    fails with [MustTransferAdminFirst] and changes nothing while a
    non-admin member remains, and deletes the chat with all its messages
    when [a1] is the only member. *)
Theorem sole_admin_leaveChat s c a1 row :
  chats s !! c = Some row →
  type row = group ∨ type row = space →
  admins_of s c = {[a1]} →
  ((∃ u, u ∈ members_of s c ∧ u ∉ admins_of s c) →
     leaveChat c a1 s = (Err MustTransferAdminFirst, s)) ∧
  (members_of s c = {[a1]} →
     ∃ s', leaveChat c a1 s = (Ok [], s') ∧
           chats s' !! c = None ∧
           members_of s' c = ∅ ∧
           (∀ i m, messages s' !! i = Some m → chat_id m ≠ Some c)).
Proof.
  intros Hrow Hkind Hadm.
  assert (Hmem : a1 ∈ members_of s c).
  { apply admins_are_members. rewrite Hadm. set_solver. }
  assert (Hnd : bool_decide (type row = direct) = false).
  { apply bool_decide_eq_false. by destruct Hkind as [-> | ->]. }
  split.
  - intros (u & Hu & Hna). unfold leaveChat. rewrite Hrow.
    rewrite (bool_decide_eq_true_2 _ Hmem), Hnd. simpl.
    rewrite (bool_decide_eq_true_2 _ Hadm).
    rewrite bool_decide_eq_false_2; [done |].
    intros Hone. rewrite Hone, Hadm in *. set_solver.
  - intros Hone. unfold leaveChat. rewrite Hrow.
    rewrite (bool_decide_eq_true_2 _ Hmem), Hnd. simpl.
    rewrite (bool_decide_eq_true_2 _ Hadm), (bool_decide_eq_true_2 _ Hone). simpl.
    pose proof (members_after_delete_chat s c) as Hgone. simpl in Hgone.
    eexists. split; [| split_and!].
    + rewrite Hgone. by rewrite elements_empty.
    + simpl. apply lookup_delete_eq.
    + exact Hgone.
    + intros i m. simpl. rewrite map_lookup_filter_Some. simpl. tauto.
Qed.
End Leave.

(** ** Sending a message *)

Section Send.
Import Schema Chat.

(** C8: [sendMessage] fails with [NotAMember] for a sender who is not a
    member, with [ReadOnlyChat] for a member of an announcement chat who
    is not an admin, and a successful call adds exactly one message row,
    unread: flag false and no readers. *)
Theorem sendMessage_checks_then_persists now c sender b s :
  (sender ∉ members_of s c → sendMessage now c sender b s = (Err NotAMember, s)) ∧
  (sender ∈ members_of s c → sender ∉ admins_of s c →
     kind_of s c = Some announcement →
     sendMessage now c sender b s = (Err ReadOnlyChat, s)) ∧
  (∀ i s', sendMessage now c sender b s = (Ok i, s') →
     messages s !! i = None ∧
     messages s' = <[i := new_message c sender b now]> (messages s) ∧
     size (messages s') = S (size (messages s)) ∧
     is_read (new_message c sender b now) = false ∧
     read_by (new_message c sender b now) = [] ∧
     chats s' = chats s ∧ chat_members s' = chat_members s).
Proof.
  split_and!.
  - intros Hno. unfold sendMessage.
    destruct (chat_members s !! (c, sender)) as [m |] eqn:Hm; [| done].
    exfalso. apply Hno, elem_of_members_of. by eexists.
  - intros [m Hm]%elem_of_members_of Hna Hk. unfold sendMessage. rewrite Hm.
    unfold kind_of in Hk. destruct (chats s !! c) as [row |]; simplify_eq/=.
    rewrite Hk. rewrite bool_decide_eq_true_2 by done.
    destruct (is_admin m) eqn:Ha; [| done].
    exfalso. apply Hna, elem_of_admins_of. eauto.
  - intros i s' Hsend. unfold sendMessage in Hsend.
    repeat case_match; simplify_eq/=.
    unfold commit in Hsend. simpl in Hsend.
    repeat case_match; simplify_eq/=.
    match goal with H : bool_decide (is_Some _) = false |- _ =>
      apply bool_decide_eq_false in H; rewrite <- eq_None_not_Some in H; rename H into Hfresh end.
    split_and!; try done.
    + by apply map_size_insert_None.
    + by destruct b.
    + by destruct b.
Qed.

(** A member who may post gets the message stored under the next
    identifier of the sequence. *)
Lemma sendMessage_succeeds now c sender b s m row :
  chat_members s !! (c, sender) = Some m →
  chats s !! c = Some row →
  type row ≠ announcement ∨ is_admin m = true →
  sender ∈ users s →
  messages s !! messages_id_seq s = None →
  int4 (messages_id_seq s) = true →
  ∃ s', sendMessage now c sender b s = (Ok (messages_id_seq s), s').
Proof.
  intros Hm Hrow Hmay Hu Hfresh Hint. unfold sendMessage. rewrite Hm, Hrow.
  assert (Hgate : bool_decide (type row = announcement) && negb (is_admin m) = false).
  { destruct Hmay as [Hk | ->]; [| by rewrite andb_false_r].
    by rewrite bool_decide_eq_false_2. }
  rewrite Hgate. unfold commit, exec. simpl.
  rewrite Hint. simpl. rewrite Hfresh. rewrite bool_decide_eq_false_2 by (by intros [? ?]).
  assert (Hfk : fk_chat s (chat_id (new_message c sender b now)) &&
                fk_user s (sender_id (new_message c sender b now)) = true).
  { destruct b; simpl; rewrite Hrow;
      rewrite !bool_decide_eq_true_2; eauto. }
  rewrite Hfk. simpl. by eexists.
Qed.
End Send.

(** ** Read receipts *)

Section ReadReceipts.
Import Schema Chat.

Lemma add_reader_elem u readers : u ∈ add_reader u readers.
Proof.
  unfold add_reader. case_bool_decide; [done |]. apply elem_of_app. right. by left.
Qed.

Lemma add_reader_idem u readers :
  add_reader u (add_reader u readers) = add_reader u readers.
Proof.
  unfold add_reader at 1. rewrite bool_decide_eq_true_2; [done |].
  apply add_reader_elem.
Qed.

Lemma add_reader_other u v readers : v ≠ u → v ∈ add_reader u readers ↔ v ∈ readers.
Proof.
  intros Hne. unfold add_reader. case_bool_decide; [done |].
  rewrite elem_of_app, list_elem_of_singleton. tauto.
Qed.

Lemma has_read_mark k u m : has_read k u (mark k u m) = true.
Proof.
  destruct k; simpl; try done; apply bool_decide_eq_true, add_reader_elem.
Qed.

Lemma mark_idem k u m : mark k u (mark k u m) = mark k u m.
Proof. destruct k; simpl; by rewrite ?add_reader_idem. Qed.

(** Marking changes the read state only: the chat, the sender and the
    place in the order stay. *)
Lemma mark_in_scope_fields k c u cut i m :
  chat_id (mark_in_scope k c u cut i m) = chat_id m ∧
  sender_id (mark_in_scope k c u cut i m) = sender_id m ∧
  sent_at (mark_in_scope k c u cut i m) = sent_at m.
Proof. unfold mark_in_scope. case_bool_decide; [| done]. by destruct k. Qed.

Lemma in_scope_mark k c u cut c' u' cut' i m :
  in_scope c' u' cut' (i, mark_in_scope k c u cut i m) ↔ in_scope c' u' cut' (i, m).
Proof.
  destruct (mark_in_scope_fields k c u cut i m) as (Hc & Hs & Ht).
  unfold in_scope, from_others, key_of. simpl. by rewrite Hc, Hs, Ht.
Qed.

Lemma mark_in_scope_idem k c u cut i m :
  mark_in_scope k c u cut i (mark_in_scope k c u cut i m) = mark_in_scope k c u cut i m.
Proof.
  unfold mark_in_scope at 1. case_bool_decide as Hin; [| done].
  apply in_scope_mark in Hin. unfold mark_in_scope.
  rewrite (bool_decide_eq_true_2 _ Hin). apply mark_idem.
Qed.

(** Counting over a map whose rows were rewritten in place. *)
Lemma count_imap {A} (g : Z → A → A) (P : Z * A → Prop) `{∀ x, Decision (P x)}
    (m : gmap Z A) :
  length (filter P (map_to_list (map_imap (λ i x, Some (g i x)) m))) =
  length (filter (λ kv, P (kv.1, g kv.1 kv.2)) (map_to_list m)).
Proof.
  induction m as [| i x m Hi IH] using map_ind.
  - by rewrite map_imap_empty, !map_to_list_empty.
  - rewrite (map_imap_insert_Some _ _ _ _ (g i x)) by done.
    rewrite !map_to_list_insert; [| done | by rewrite map_lookup_imap, Hi].
    rewrite !filter_cons. simpl.
    destruct (decide (P (i, g i x))); simpl; by rewrite IH.
Qed.

Lemma count_split {A} (P Q : A → Prop) `{∀ x, Decision (P x)} `{∀ x, Decision (Q x)}
    (l : list A) :
  length (filter P l) =
  (length (filter (λ x, P x ∧ Q x) l) + length (filter (λ x, P x ∧ ¬ Q x) l))%nat.
Proof.
  induction l as [| x l IH]; [done |].
  rewrite !filter_cons.
  destruct (decide (P x)), (decide (Q x));
    repeat (case_decide; try tauto); simpl; lia.
Qed.

Lemma count_none {A} (P : A → Prop) `{∀ x, Decision (P x)} (l : list A) :
  (∀ x, x ∈ l → ¬ P x) → length (filter P l) = 0%nat.
Proof.
  induction l as [| x l IH]; [done |]. intros Hno.
  rewrite filter_cons. rewrite decide_False by (apply Hno; by left).
  apply IH. intros y Hy. apply Hno. by right.
Qed.

(** After marking, a row is unread exactly when it was unread and out of
    the scope of the call. *)
Lemma unread_after_mark k c u cut i m :
  unread k c u (i, mark_in_scope k c u cut i m) ↔
  unread k c u (i, m) ∧ ¬ in_scope c u cut (i, m).
Proof.
  unfold unread, from_others. simpl.
  destruct (mark_in_scope_fields k c u cut i m) as (Hc & Hs & _). rewrite Hc, Hs.
  unfold mark_in_scope. case_bool_decide as Hin.
  - rewrite has_read_mark. split; [by intros [_ ?] | tauto].
  - tauto.
Qed.

(** C6: adding a reader twice is adding it once; [markRead] lowers the
    reader's [unreadCount] by exactly the number it returns, the messages
    it newly marked; and a second call with the same arguments marks
    nothing new and leaves the store as the first call left it. *)
Theorem markRead_counts_once c reader upto s n s' :
  markRead c reader upto s = (Ok n, s') →
  (∀ readers, add_reader reader (add_reader reader readers) = add_reader reader readers) ∧
  (unreadCount s' c reader + n = unreadCount s c reader)%nat ∧
  markRead c reader upto s' = (Ok 0%nat, s').
Proof.
  intros Hmark. split; [apply add_reader_idem |].
  unfold markRead in Hmark.
  destruct (kind_of s c) as [k |] eqn:Hk; [| done].
  destruct (messages s !! upto) as [um |] eqn:Hum; [| done].
  destruct (bool_decide (chat_id um = Some c)) eqn:Hin; [| done].
  cbv zeta in Hmark. injection Hmark as <- <-.
  set (cut := key_of (upto, um)).
  split.
  - unfold unreadCount. replace (kind_of _ c) with (Some k) by done.
    rewrite Hk. simpl messages. rewrite count_imap.
    rewrite (count_split (unread k c reader) (in_scope c reader cut)
               (map_to_list (messages s))).
    rewrite (list_filter_iff
               (λ kv, unread k c reader (kv.1, mark_in_scope k c reader cut kv.1 kv.2))
               (λ kv, unread k c reader kv ∧ ¬ in_scope c reader cut kv))
      by (intros [i m]; apply unread_after_mark).
    rewrite (list_filter_iff
               (λ kv, in_scope c reader cut kv ∧ has_read k reader kv.2 = false)
               (λ kv, unread k c reader kv ∧ in_scope c reader cut kv))
      by (intros [i m]; unfold unread, in_scope; tauto).
    rewrite Nat.add_comm. f_equal; f_equal; by apply list_filter_iff.
  - unfold markRead. replace (kind_of _ c) with (Some k) by done.
    simpl messages. rewrite map_lookup_imap, Hum. simpl.
    destruct (mark_in_scope_fields k c reader cut upto um) as (Hc & _ & Ht).
    rewrite Hc, Hin.
    assert (Hcut : key_of (upto, mark_in_scope k c reader cut upto um) = cut).
    { unfold key_of at 1. cbn [fst snd]. rewrite Ht. reflexivity. }
    rewrite Hcut.
    f_equal.
    + f_equal. rewrite count_imap. apply count_none.
      intros [i m] _ [Hsc Hun]. simpl in *.
      apply in_scope_mark in Hsc. unfold mark_in_scope in Hun.
      rewrite (bool_decide_eq_true_2 _ Hsc), has_read_mark in Hun. done.
    + f_equal. apply map_eq. intros i. rewrite !map_lookup_imap.
      destruct (messages s !! i) as [m |]; simpl; [| done].
      by rewrite mark_in_scope_idem.
Qed.

(** In the chats that keep a read-set, the rows in scope get the reader
    added, and marking leaves the unread counts of the other users as they
    were. *)
Lemma markRead_read_sets c reader upto s n s' k :
  markRead c reader upto s = (Ok n, s') →
  kind_of s c = Some k → k ≠ direct →
  (∀ i m um, messages s !! i = Some m → messages s !! upto = Some um →
     in_scope c reader (key_of (upto, um)) (i, m) →
     ∃ m', messages s' !! i = Some m' ∧
           read_by m' = add_reader reader (read_by m)) ∧
  (∀ u, u ≠ reader → unreadCount s' c u = unreadCount s c u).
Proof.
  intros Hmark Hk Hnd. unfold markRead in Hmark. rewrite Hk in Hmark.
  destruct (messages s !! upto) as [um |] eqn:Hum; [| done].
  destruct (bool_decide (chat_id um = Some c)) eqn:Hin; [| done].
  cbv zeta in Hmark. injection Hmark as <- <-. split.
  - intros i m um' Hm ? Hsc. simplify_eq. simpl. rewrite map_lookup_imap, Hm. simpl.
    eexists. split; [done |]. unfold mark_in_scope.
    rewrite (bool_decide_eq_true_2 _ Hsc). by destruct k.
  - intros u Hu. unfold unreadCount. replace (kind_of _ c) with (Some k) by done.
    rewrite Hk. simpl messages. rewrite count_imap. f_equal.
    apply list_filter_iff. intros [i m]. unfold unread, from_others. cbn [fst snd].
    destruct (mark_in_scope_fields k c reader (key_of (upto, um)) i m) as (Hc & Hs & _).
    rewrite Hc, Hs. unfold mark_in_scope.
    destruct (bool_decide (in_scope c reader (key_of (upto, um)) (i, m))); [| done].
    assert (Hsame : has_read k u (mark k reader m) = has_read k u m).
    { destruct k; try done; simpl; apply bool_decide_ext, add_reader_other; done. }
    by rewrite Hsame.
Qed.
End ReadReceipts.

(** ** Paging through the history of a chat *)

Section Paging.
Import Schema Chat.

#[local] Instance newer_first_total : Total newer_first.
Proof. intros x y. unfold newer_first, key_le. lia. Qed.

#[local] Instance newer_first_trans : Transitive newer_first.
Proof. intros x y z. unfold newer_first, key_le. lia. Qed.

Lemma key_lt_irrefl k : ¬ key_lt k k.
Proof. unfold key_lt. lia. Qed.

Lemma key_lt_asym a b : key_lt a b → ¬ key_lt b a.
Proof. unfold key_lt. lia. Qed.

Lemma filter_all {A} (P : A → Prop) `{∀ x, Decision (P x)} (l : list A) :
  (∀ x, x ∈ l → P x) → filter P l = l.
Proof.
  induction l as [| x l IH]; [done |]. intros Hall.
  rewrite filter_cons, decide_True by (apply Hall; by left).
  f_equal. apply IH. intros y Hy. apply Hall. by right.
Qed.

Lemma filter_none {A} (P : A → Prop) `{∀ x, Decision (P x)} (l : list A) :
  (∀ x, x ∈ l → ¬ P x) → filter P l = [].
Proof.
  induction l as [| x l IH]; [done |]. intros Hno.
  rewrite filter_cons, decide_False by (apply Hno; by left).
  apply IH. intros y Hy. apply Hno. by right.
Qed.

(** The history holds exactly the messages of the chat. *)
Lemma history_Permutation s c : history s c ≡ₚ chat_messages s c.
Proof. apply merge_sort_Permutation. Qed.

Lemma chat_messages_ids_NoDup s c : NoDup (chat_messages s c).*1.
Proof.
  unfold chat_messages.
  generalize (NoDup_fst_map_to_list (messages s)).
  induction (map_to_list (messages s)) as [| kv l IH]; [done |].
  rewrite fmap_cons, NoDup_cons. intros [Hkv Hl]. rewrite filter_cons.
  case_decide; [| by apply IH].
  rewrite fmap_cons, NoDup_cons. split; [| by apply IH].
  intros Hin. apply Hkv. apply list_elem_of_fmap in Hin as (y & -> & Hy).
  apply list_elem_of_fmap. exists y. split; [done |].
  by apply list_elem_of_filter in Hy as [_ Hy].
Qed.

(** Sorted by a total order and free of duplicate identifiers, hence
    strictly sorted. *)
Lemma strictly_sorted l :
  StronglySorted newer_first l → NoDup l.*1 → StronglySorted strictly_newer l.
Proof.
  induction 1 as [| x l Hl IH Hx]; [constructor |].
  rewrite fmap_cons, NoDup_cons. intros [Hnot Hnd].
  constructor; [by apply IH |].
  apply Forall_forall. intros y Hy.
  assert (Hle : newer_first x y) by (by eapply Forall_forall in Hx).
  assert (Hne : x.1 ≠ y.1).
  { intros Heq. apply Hnot. rewrite Heq. apply list_elem_of_fmap. by exists y. }
  revert Hle Hne. unfold newer_first, strictly_newer, key_le, key_lt, key_of. simpl. lia.
Qed.

(** The history of a chat is strictly descending by (timestamp, id). *)
Lemma history_strictly_sorted s c : StronglySorted strictly_newer (history s c).
Proof.
  apply strictly_sorted.
  - apply StronglySorted_merge_sort; apply _.
  - rewrite history_Permutation. apply chat_messages_ids_NoDup.
Qed.

(** In a strictly descending list the messages older than one of its
    messages are those after it. *)
Lemma older_than_suffix pre x rem :
  StronglySorted strictly_newer (pre ++ x :: rem) →
  filter (older_than (Some (key_of x))) (pre ++ x :: rem) = rem.
Proof.
  intros Hs. rewrite filter_app, filter_cons.
  rewrite (filter_none _ pre).
  - rewrite decide_False by apply key_lt_irrefl. simpl.
    apply filter_all. intros y Hy. simpl.
    apply StronglySorted_app_1_r in Hs.
    apply StronglySorted_cons in Hs as [Hx _].
    by eapply Forall_forall in Hx.
  - intros p Hp. simpl. apply key_lt_asym.
    apply (StronglySorted_app_1_elem_of _ _ _ _ _ Hs Hp). by left.
Qed.

(** A schedule of positive limits, started at a cursor after which [rem]
    is left of the history, returns the first messages of [rem], as many
    as the limits add up to. *)
Lemma paging_from s c caller limits :
  caller ∈ members_of s c →
  Forall (λ n, 0 < n)%nat limits →
  ∀ pre rem before,
    history s c = pre ++ rem →
    filter (older_than before) (history s c) = rem →
    paging s c caller before limits = Ok (take (sum_list limits) rem).
Proof.
  intros Hmem. induction 1 as [| n rest Hn Hrest IH]; intros pre rem before HL Hrem;
    [done |].
  simpl. unfold listMessages. rewrite (bool_decide_eq_true_2 _ Hmem), Hrem.
  destruct (last (take n rem)) as [m |] eqn:Hlast; unfold next_cursor; rewrite Hlast; simpl.
  - apply last_Some in Hlast as [page0 Hpage].
    assert (Hsplit : history s c = (pre ++ page0) ++ m :: drop n rem).
    { rewrite HL, <- (take_drop n rem) at 1. rewrite Hpage.
      by rewrite <- !app_assoc. }
    rewrite (IH ((pre ++ page0) ++ [m]) (drop n rem)).
    + simpl. by rewrite take_take_drop.
    + rewrite Hsplit. by rewrite <- !app_assoc.
    + rewrite Hsplit. apply older_than_suffix. rewrite <- Hsplit.
      apply history_strictly_sorted.
  - apply last_None, take_nil_inv in Hlast as [-> | ->]; [lia |].
    by rewrite take_nil.
Qed.

Lemma paging_prefix s c caller limits :
  caller ∈ members_of s c →
  Forall (λ n, 0 < n)%nat limits →
  paging s c caller None limits = Ok (take (sum_list limits) (history s c)).
Proof.
  intros Hmem Hpos. apply (paging_from s c caller limits Hmem Hpos []); [done |].
  by apply filter_all.
Qed.

(** C7: for a member, the messages of a chat come newest first, strictly
    descending by (timestamp, id), and any two schedules of page sizes
    that reach the end of the chat return that same sequence. *)
Theorem listMessages_paging_consistent s c caller limits1 limits2 :
  caller ∈ members_of s c →
  Forall (λ n, 0 < n)%nat limits1 →
  Forall (λ n, 0 < n)%nat limits2 →
  (length (history s c) ≤ sum_list limits1)%nat →
  (length (history s c) ≤ sum_list limits2)%nat →
  StronglySorted strictly_newer (history s c) ∧
  history s c ≡ₚ chat_messages s c ∧
  listMessages s c caller None (length (history s c)) = Ok (history s c) ∧
  paging s c caller None limits1 = Ok (history s c) ∧
  paging s c caller None limits2 = paging s c caller None limits1.
Proof.
  intros Hmem Hp1 Hp2 Hl1 Hl2.
  assert (H1 : paging s c caller None limits1 = Ok (history s c)).
  { rewrite paging_prefix by done. by rewrite take_ge. }
  split_and!.
  - apply history_strictly_sorted.
  - apply history_Permutation.
  - unfold listMessages. rewrite (bool_decide_eq_true_2 _ Hmem).
    rewrite filter_all by done. by rewrite take_ge.
  - exact H1.
  - rewrite H1, paging_prefix by done. by rewrite take_ge.
Qed.

(** Who is not a member gets no page. *)
Lemma listMessages_NotAMember s c caller before limit :
  caller ∉ members_of s c → listMessages s c caller before limit = Err NotAMember.
Proof. intros H. unfold listMessages. by rewrite bool_decide_eq_false_2. Qed.
End Paging.

(** ** Direct chats: get or create *)

Section DirectChat.
Import Schema Chat.

Lemma pair_of_size_two (X : gset Z) a b :
  a ≠ b → a ∈ X → b ∈ X → size X = 2%nat → X = {[a; b]}.
Proof.
  intros Hne Ha Hb Hsize. symmetry. apply set_subseteq_size_eq.
  - intros x [->%elem_of_singleton | ->%elem_of_singleton]%elem_of_union; done.
  - rewrite size_union, !size_singleton; [lia |].
    intros x ->%elem_of_singleton ?%elem_of_singleton. done.
Qed.

Lemma pair_swap (a b : Z) : ({[a; b]} : gset Z) = {[b; a]}.
Proof. apply set_eq. intros x. rewrite !elem_of_union, !elem_of_singleton. tauto. Qed.

Lemma size_pair (a b : Z) : a ≠ b → size ({[a; b]} : gset Z) = 2%nat.
Proof.
  intros Hne. rewrite size_union, !size_singleton; [done |].
  intros x ->%elem_of_singleton ?%elem_of_singleton. done.
Qed.

Lemma chat_inv_well_kept s : chat_inv s → well_kept s.
Proof. intros [? ? ? ?]. by split_and!. Qed.

(** In a well-kept store the membership join finds exactly the direct
    chats of the pair. *)
Lemma is_direct_between_iff s a b c :
  well_kept s → a ≠ b →
  is_direct_between s a b c ↔ direct_chat_of s a b c.
Proof.
  intros (_ & _ & Htwo) Hne. unfold is_direct_between, direct_chat_of.
  rewrite <- !elem_of_members_of. split.
  - intros (Hk & Ha & Hb). split; [done |].
    apply pair_of_size_two; try done. by apply Htwo.
  - intros (Hk & ->). split; [done |].
    rewrite !elem_of_union, !elem_of_singleton. tauto.
Qed.

Lemma direct_chat_of_swap s a b c : direct_chat_of s a b c ↔ direct_chat_of s b a c.
Proof. unfold direct_chat_of. by rewrite (pair_swap a b). Qed.

Lemma find_direct_Some s a b c :
  find_direct s a b = Some c → is_direct_between s a b c.
Proof.
  unfold find_direct. intros H%head_Some_elem_of.
  by apply list_elem_of_filter in H as [H _].
Qed.

Lemma find_direct_None s a b c :
  find_direct s a b = None → ¬ is_direct_between s a b c.
Proof.
  unfold find_direct. intros Hnil%head_None Hc.
  assert (Hin : c ∈ filter (is_direct_between s a b) (elements (dom (chats s)))).
  { apply list_elem_of_filter. split; [done |].
    apply elem_of_elements, elem_of_dom.
    destruct Hc as [Hk _]. unfold kind_of in Hk.
    destruct (chats s !! c); [by eexists | done]. }
  rewrite Hnil in Hin. by apply elem_of_nil in Hin.
Qed.

(** The ends of the pair in either order name the same direct chats. *)
Lemma endpoints_direct s A B a b c :
  endpoints A B a b → direct_chat_of s a b c ↔ direct_chat_of s A B c.
Proof. intros [[= -> ->] | [= -> ->]]; [done | apply direct_chat_of_swap]. Qed.

Lemma endpoints_users (X : gset Z) A B a b :
  endpoints A B a b → A ≠ B → A ∈ X → B ∈ X → a ≠ b ∧ a ∈ X ∧ b ∈ X.
Proof. intros [[= -> ->] | [= -> ->]] ? ? ?; split_and!; done. Qed.

(** The lookup of a call in a well-kept store: it returns a direct chat of
    the pair, or there is none. *)
Lemma lookup_spec s A B a b :
  well_kept s → A ≠ B → endpoints A B a b →
  match lookup s a b with
  | Returned r => ∃ c, r = Ok c ∧ direct_chat_of s A B c
  | Missing a' b' => (a', b') = (a, b) ∧ ∀ c, ¬ direct_chat_of s A B c
  | Pending _ _ => False
  end.
Proof.
  intros Hkept Hne Hends. unfold lookup.
  assert (Hab : a ≠ b) by (by destruct Hends as [[= -> ->] | [= -> ->]]).
  destruct (find_direct s a b) as [c |] eqn:Hfind.
  - exists c. split; [done |].
    by apply (endpoints_direct s A B a b c Hends), is_direct_between_iff, find_direct_Some.
  - split; [done |]. intros c Hc. apply (find_direct_None s a b c Hfind).
    by apply is_direct_between_iff, (endpoints_direct s A B a b c Hends).
Qed.

(** The creation goes through on a well-kept store with an id left, and
    this is the store it leaves. *)
Lemma create_direct_ok now a b s :
  well_kept s → chat_ids_left 1 s → a ≠ b → a ∈ users s → b ∈ users s →
  ∃ s', create_direct now a b s = Some (chats_id_seq s, s') ∧
        users s' = users s ∧
        chats s' = <[chats_id_seq s := ChatRow direct None None (Some a) now now]> (chats s) ∧
        chat_members s' =
          <[(chats_id_seq s, b) := MemberRow false now]>
            (<[(chats_id_seq s, a) := MemberRow false now]> (chat_members s)) ∧
        chats_id_seq s' = chats_id_seq s + 1.
Proof.
  intros (Hmem & Hseq & _) [Hlow Hhigh] Hne Ha Hb.
  assert (Hint : int4 (chats_id_seq s) = true).
  { unfold int4. apply bool_decide_eq_true. lia. }
  assert (Hfresh : chats s !! chats_id_seq s = None).
  { apply eq_None_not_Some. intros H%Hseq. lia. }
  assert (Hnomem : ∀ u, chat_members s !! (chats_id_seq s, u) = None).
  { intros u. apply eq_None_not_Some. intros [r Hr].
    apply Hmem in Hr. rewrite Hfresh in Hr. by destruct Hr. }
  unfold create_direct, exec. simpl.
  rewrite Hint. simpl.
  rewrite Hfresh. rewrite (bool_decide_eq_false_2 (is_Some None)) by (by intros [? ?]).
  rewrite (bool_decide_eq_true_2 _ Ha). simpl.
  rewrite (Hnomem a). rewrite (bool_decide_eq_false_2 (is_Some None)) by (by intros [? ?]).
  rewrite lookup_insert_eq.
  rewrite (bool_decide_eq_true_2 (is_Some (Some _))) by (by eexists).
  rewrite (bool_decide_eq_true_2 _ Ha). simpl.
  rewrite lookup_insert_ne by congruence.
  rewrite (Hnomem b). rewrite (bool_decide_eq_false_2 (is_Some None)) by (by intros [? ?]).
  rewrite (bool_decide_eq_true_2 _ Hb). simpl.
  rewrite lookup_insert_eq.
  rewrite (bool_decide_eq_true_2 (is_Some (Some _))) by (by eexists). simpl.
  eexists. split; [reflexivity |]. done.
Qed.

(** The creation adds one direct chat of the pair, under the next id of the
    sequence, and keeps the store well kept. *)
Lemma create_direct_effect now a b s :
  well_kept s → chat_ids_left 1 s → a ≠ b → a ∈ users s → b ∈ users s →
  ∃ s', create_direct now a b s = Some (chats_id_seq s, s') ∧
        well_kept s' ∧ users s' = users s ∧
        chats_id_seq s' = chats_id_seq s + 1 ∧
        (∀ c, direct_chat_of s' a b c ↔ c = chats_id_seq s ∨ direct_chat_of s a b c).
Proof.
  intros Hkept Hleft Hne Ha Hb.
  destruct (create_direct_ok now a b s Hkept Hleft Hne Ha Hb)
    as (s' & Hcreate & Hu & Hchats & Hmembers & Hseq).
  destruct Hkept as (Hmem & Hahead & Htwo).
  exists s'. set (n := chats_id_seq s) in *.
  assert (Hfresh : chats s !! n = None).
  { apply eq_None_not_Some. intros H%Hahead. unfold n in H. lia. }
  assert (Hkind : ∀ c, kind_of s' c = if decide (n = c) then Some direct else kind_of s c).
  { intros c. unfold kind_of. rewrite Hchats, lookup_insert. by case_decide. }
  assert (Hmem_new : members_of s' n = {[a; b]}).
  { apply set_eq. intros u. rewrite elem_of_members_of, Hmembers.
    rewrite elem_of_union, !elem_of_singleton, !lookup_insert.
    repeat case_decide; simplify_eq; split; eauto; try tauto.
    - intros [r Hr]. apply Hmem in Hr. rewrite Hfresh in Hr. by destruct Hr.
    - intros [-> | ->]; congruence. }
  assert (Hmem_old : ∀ c, c ≠ n → members_of s' c = members_of s c).
  { intros c Hc. apply set_eq. intros u. rewrite !elem_of_members_of, Hmembers.
    by rewrite !lookup_insert_ne by congruence. }
  assert (Hkept' : well_kept s').
  { split_and!.
    - intros c u r. rewrite Hmembers, Hchats, !lookup_insert.
      repeat case_decide; simplify_eq; eauto.
    - intros c. rewrite Hchats, Hseq, lookup_insert.
      case_decide; [lia |]. intros Hlt%Hahead. fold n in Hlt. lia.
    - intros c. rewrite Hkind. case_decide as Hc.
      + subst c. intros _. rewrite Hmem_new. by apply size_pair.
      + rewrite Hmem_old by done. apply Htwo. }
  split_and!; try done.
  - intros c. unfold direct_chat_of. rewrite Hkind. split.
    + intros [Hk Hm]. destruct (decide (n = c)) as [<- | Hc]; [by left |].
      right. by rewrite <- (Hmem_old c).
    + intros [-> | [Hk Hm]].
      * by rewrite decide_True.
      * assert (Hc : n ≠ c).
        { intros <-. unfold kind_of in Hk. by rewrite Hfresh in Hk. }
        rewrite decide_False by done. by rewrite Hmem_old.
Qed.

Lemma chat_ids_left_fewer k k' s : chat_ids_left k s → k' ≤ k → chat_ids_left k' s.
Proof. unfold chat_ids_left. lia. Qed.

Lemma call_ok_mono A B s s' c :
  (∀ i, direct_chat_of s A B i → direct_chat_of s' A B i) →
  call_ok A B s c → call_ok A B s' c.
Proof.
  intros Hmono. destruct c as [| | r]; simpl; [done | done |].
  intros (i & -> & Hi). exists i. split; [done | by apply Hmono].
Qed.

(** What the lookup of a call of the pair leaves the call with. *)
Lemma lookup_call s A B a b :
  well_kept s → A ≠ B → endpoints A B a b →
  call_ok A B s (lookup s a b) ∧ to_create (lookup s a b) ≤ 1 ∧
  (∀ r, lookup s a b = Returned r → ∃ c, r = Ok c ∧ direct_chat_of s A B c) ∧
  (is_missing (lookup s a b) = true → ∀ c, ¬ direct_chat_of s A B c) ∧
  (is_missing (lookup s a b) = false → ∃ r, lookup s a b = Returned r).
Proof.
  intros Hkept Hne Hends. pose proof (lookup_spec s A B a b Hkept Hne Hends) as Hspec.
  destruct (lookup s a b) as [a' b' | a' b' | r]; simpl; [done | |].
  - destruct Hspec as [[= -> ->] Hnone]. split_and!.
    + done.
    + lia.
    + done.
    + done.
    + done.
  - split_and!.
    + done.
    + lia.
    + by intros r' [= <-].
    + done.
    + by eexists.
Qed.

(** What the creation of a call of the pair leaves. *)
Lemma create_call now s A B a b k :
  well_kept s → chat_ids_left (1 + k) s → 0 ≤ k →
  A ≠ B → A ∈ users s → B ∈ users s → endpoints A B a b →
  ∃ s', commit s (create_direct now a b s) = (Ok (chats_id_seq s), s') ∧
        well_kept s' ∧ users s' = users s ∧ chat_ids_left k s' ∧
        (∀ c, direct_chat_of s' A B c ↔ c = chats_id_seq s ∨ direct_chat_of s A B c) ∧
        chats_id_seq s' = chats_id_seq s + 1.
Proof.
  intros Hkept Hleft Hk Hne HA HB Hends.
  destruct (endpoints_users (users s) A B a b Hends Hne HA HB) as (Hab & Ha & Hb).
  destruct (create_direct_effect now a b s Hkept) as (s' & -> & Hkept' & Hu & Hseq & Hd);
    try done.
  { eapply chat_ids_left_fewer; [done | lia]. }
  exists s'. split_and!; try done.
  - unfold chat_ids_left in *. lia.
  - intros c. by rewrite <- !(endpoints_direct _ A B a b _ Hends).
Qed.

Lemma lookup_cases s a b :
  (∃ c, lookup s a b = Returned (Ok c)) ∨ lookup s a b = Missing a b.
Proof. unfold lookup. destruct (find_direct s a b); eauto. Qed.

(** A call whose two actions the store takes one after the other does what
    [getOrCreateDirectChat] does as one transaction. *)
Lemma call_on_its_own now a b s c2 :
  rtc (step now) (World s (Pending a b) c2)
    (World (getOrCreateDirectChat now a b s).2
       (Returned (getOrCreateDirectChat now a b s).1) c2).
Proof.
  eapply rtc_l; [apply step_lookup1 |].
  unfold lookup, getOrCreateDirectChat.
  destruct (find_direct s a b) as [c |]; [apply rtc_refl |].
  apply rtc_once, step_create1.
Qed.

Section CallsInFlight.
Variables (now : Z) (s0 : store) (A B : Z).
Hypothesis Hinv0 : chat_inv s0.
Hypothesis HAB : A ≠ B.
Hypothesis HA : A ∈ users s0.
Hypothesis HB : B ∈ users s0.

Lemma direct_chat_unique_initially c1 c2 :
  direct_chat_of s0 A B c1 → direct_chat_of s0 A B c2 → c1 = c2.
Proof.
  intros [Hk1 Hm1] [Hk2 Hm2]. apply (inv_direct_unique s0 Hinv0); congruence.
Qed.

Lemma in_flight_start a1 b1 a2 b2 :
  chat_ids_left 2 s0 → endpoints A B a1 b1 → endpoints A B a2 b2 →
  in_flight s0 A B (World s0 (Pending a1 b1) (Pending a2 b2)) ∧
  apart A B (World s0 (Pending a1 b1) (Pending a2 b2)).
Proof.
  intros Hleft H1 H2. split.
  - split_and!; simpl; try done; [by apply chat_inv_well_kept | by left].
  - split_and!; simpl.
    + by intros [? _].
    + apply direct_chat_unique_initially.
    + by intros [? | ?].
Qed.

(** Every action of a call keeps [in_flight]. *)
Lemma in_flight_step w w' :
  in_flight s0 A B w → step now w w' → in_flight s0 A B w'.
Proof.
  intros (Hkept & Hu & Hleft & Hc1 & Hc2 & Hd & H0) Hstep.
  destruct Hstep as [s a b c2 | s a b c2 | s a b c1 | s a b c1]; simpl in *.
  - (* the lookup of the first call *)
    destruct (lookup_call s A B a b Hkept HAB Hc1) as (Hok & Hone & _ & Hmiss & _).
    split_and!; simpl; try done.
    + eapply chat_ids_left_fewer; [done | lia].
    + intros c Hc. destruct (Hd c Hc) as [? | [? | ?]]; auto; done.
    + intros c0 Hc0. destruct (H0 c0 Hc0) as (-> & _ & ?). split_and!; try done.
      destruct (is_missing (lookup s0 a b)) eqn:Hm; [| done].
      by destruct (Hmiss eq_refl c0).
  - (* the creation of the first call *)
    destruct (create_call now s A B a b (to_create c2) Hkept Hleft) as
      (s' & -> & Hkept' & Hu' & Hleft' & Hd' & _); try done; try congruence.
    { destruct c2; simpl; lia. }
    split_and!; simpl; try done.
    + congruence.
    + exists (chats_id_seq s). split; [done |]. apply Hd'. by left.
    + eapply call_ok_mono; [| done]. intros i Hi. apply Hd'. by right.
    + intros c [-> | Hc]%Hd'; [by right; left |].
      destruct (Hd c Hc) as [? | [? | ?]]; auto; done.
    + intros c0 Hc0. by destruct (H0 c0 Hc0) as (_ & ? & _).
  - (* the lookup of the second call *)
    destruct (lookup_call s A B a b Hkept HAB Hc2) as (Hok & Hone & _ & Hmiss & _).
    split_and!; simpl; try done.
    + eapply chat_ids_left_fewer; [done | lia].
    + intros c Hc. destruct (Hd c Hc) as [? | [? | ?]]; auto; done.
    + intros c0 Hc0. destruct (H0 c0 Hc0) as (-> & ? & _). split_and!; try done.
      destruct (is_missing (lookup s0 a b)) eqn:Hm; [| done].
      by destruct (Hmiss eq_refl c0).
  - (* the creation of the second call *)
    destruct (create_call now s A B a b (to_create c1) Hkept) as
      (s' & -> & Hkept' & Hu' & Hleft' & Hd' & _); try done; try congruence.
    { eapply chat_ids_left_fewer; [done | lia]. }
    { destruct c1; simpl; lia. }
    split_and!; simpl; try done.
    + congruence.
    + eapply chat_ids_left_fewer; [done | lia].
    + eapply call_ok_mono; [| done]. intros i Hi. apply Hd'. by right.
    + exists (chats_id_seq s). split; [done |]. apply Hd'. by left.
    + intros c [-> | Hc]%Hd'; [by right; right |].
      destruct (Hd c Hc) as [? | [? | ?]]; auto; done.
    + intros c0 Hc0. by destruct (H0 c0 Hc0) as (_ & _ & ?).
Qed.

Lemma in_flight_run w0 w :
  in_flight s0 A B w0 → rtc (step now) w0 w → in_flight s0 A B w.
Proof. intros H0 Hrun. induction Hrun; eauto using in_flight_step. Qed.

(** Every action of calls that do not overlap keeps [apart]. *)
Lemma apart_step w w' :
  in_flight s0 A B w → apart A B w → step_apart now w w' → apart A B w'.
Proof.
  intros (Hkept & Hu & Hleft & Hc1 & Hc2 & Hd & H0) (Hnb & Huniq & Hnone) [Hstep Hnb'].
  split; [done |].
  destruct Hstep as [s a b c2 | s a b c2 | s a b c1 | s a b c1]; simpl in *.
  - destruct (lookup_call s A B a b Hkept HAB Hc1) as (_ & _ & _ & Hmiss & _).
    split; [done |]. intros [? | ?]; auto.
  - destruct (create_call now s A B a b (to_create c2) Hkept Hleft) as
      (s' & -> & _ & _ & _ & Hd' & _); try done; try congruence.
    { destruct c2; simpl; lia. }
    simpl. assert (Hempty : ∀ c, ¬ direct_chat_of s A B c) by (apply Hnone; by left).
    split.
    + intros x y Hx Hy.
      apply Hd' in Hx as [-> | Hx]; [| by destruct (Hempty x)].
      apply Hd' in Hy as [-> | Hy]; [done | by destruct (Hempty y)].
    + intros [? | Hm]; [done |]. destruct Hnb. by split.
  - destruct (lookup_call s A B a b Hkept HAB Hc2) as (_ & _ & _ & Hmiss & _).
    split; [done |]. intros [? | ?]; auto.
  - destruct (create_call now s A B a b (to_create c1) Hkept) as
      (s' & -> & _ & _ & _ & Hd' & _); try done; try congruence.
    { eapply chat_ids_left_fewer; [done | lia]. }
    { destruct c1; simpl; lia. }
    simpl. assert (Hempty : ∀ c, ¬ direct_chat_of s A B c) by (apply Hnone; by right).
    split.
    + intros x y Hx Hy.
      apply Hd' in Hx as [-> | Hx]; [| by destruct (Hempty x)].
      apply Hd' in Hy as [-> | Hy]; [done | by destruct (Hempty y)].
    + intros [Hm | ?]; [| done]. destruct Hnb. by split.
Qed.

Lemma step_apart_step w w' : step_apart now w w' → step now w w'.
Proof. by intros [? _]. Qed.

Lemma apart_run w0 w :
  in_flight s0 A B w0 → apart A B w0 → rtc (step_apart now) w0 w →
  in_flight s0 A B w ∧ apart A B w.
Proof.
  intros Hin Hap Hrun. induction Hrun as [| w1 w2 w3 Hstep _ IH]; [done |].
  apply IH.
  - eapply in_flight_step; [done | by apply step_apart_step].
  - by eapply apart_step.
Qed.

(** Where two calls that have returned stand. *)
Lemma in_flight_returned w r1 r2 :
  in_flight s0 A B w → both_returned w r1 r2 →
  ∃ i j, r1 = Ok i ∧ r2 = Ok j ∧ ∀ c, direct_chat_of (db w) A B c ↔ c = i ∨ c = j.
Proof.
  intros (Hkept & Hu & Hleft & Hc1 & Hc2 & Hd & H0) [Hr1 Hr2].
  rewrite Hr1 in Hc1, Hd. rewrite Hr2 in Hc2, Hd. simpl in *.
  destruct Hc1 as (i & -> & Hi), Hc2 as (j & -> & Hj).
  exists i, j. split_and!; try done. intros c. split.
  - intros Hc. destruct (Hd c Hc) as [Hc0 | [[= ->] | [= ->]]]; auto.
    destruct (H0 c Hc0) as (Hdb & _). rewrite Hdb in Hi.
    left. by apply direct_chat_unique_initially.
  - by intros [-> | ->].
Qed.

Lemma apart_returned w r1 r2 :
  in_flight s0 A B w → apart A B w → both_returned w r1 r2 →
  ∃ i, r1 = Ok i ∧ r2 = Ok i ∧ ∀ c, direct_chat_of (db w) A B c ↔ c = i.
Proof.
  intros Hin (_ & Huniq & _) Hret.
  destruct (in_flight_returned w r1 r2 Hin Hret) as (i & j & -> & -> & Hd).
  assert (j = i) as ->.
  { apply Huniq; apply Hd; auto. }
  exists i. split_and!; try done. intros c. rewrite Hd. tauto.
Qed.

(** A lookup after a call has returned finds a chat. *)
Lemma lookup_after_return s a b r :
  well_kept s → endpoints A B a b → call_ok A B s (Returned r) →
  ∃ c, lookup s a b = Returned (Ok c).
Proof.
  intros Hkept Hends (i & _ & Hi).
  destruct (lookup_cases s a b) as [? | Hmiss]; [done |].
  destruct (lookup_call s A B a b Hkept HAB Hends) as (_ & _ & _ & Hnone & _).
  rewrite Hmiss in Hnone. by destruct (Hnone eq_refl i).
Qed.

(** Calls that do not overlap can run to their end: the first call, then
    the second. *)
Lemma apart_run_exists a1 b1 a2 b2 :
  chat_ids_left 2 s0 → endpoints A B a1 b1 → endpoints A B a2 b2 →
  ∃ w r1 r2,
    rtc (step_apart now) (World s0 (Pending a1 b1) (Pending a2 b2)) w ∧
    both_returned w r1 r2.
Proof.
  intros Hleft H1 H2.
  destruct (in_flight_start a1 b1 a2 b2 Hleft H1 H2) as [Hin Hap].
  assert (Hfirst : ∃ s r,
            rtc (step_apart now) (World s0 (Pending a1 b1) (Pending a2 b2))
              (World s (Returned r) (Pending a2 b2))).
  { destruct (lookup_cases s0 a1 b1) as [[c Hc] | Hmiss].
    - exists s0, (Ok c). apply rtc_once. split.
      + rewrite <- Hc. apply step_lookup1.
      + by intros [_ ?].
    - eexists _, _. eapply rtc_l; [| apply rtc_once].
      + split; [apply step_lookup1 | by intros [_ ?]].
      + rewrite Hmiss. split; [apply step_create1 | by intros [? _]]. }
  destruct Hfirst as (s & r & Hrun).
  destruct (apart_run _ _ Hin Hap Hrun) as [(Hkept & _ & _ & Hc1 & Hc2 & _) _].
  simpl in *.
  destruct (lookup_after_return s a2 b2 r Hkept Hc2 Hc1) as [c Hc].
  exists (World s (Returned r) (Returned (Ok c))), r, (Ok c). split; [| done].
  eapply rtc_r; [done |]. split.
  - rewrite <- Hc. apply step_lookup2.
  - by intros [? _].
Qed.

End CallsInFlight.

(** Whatever has happened, the calls can run to their end. *)
Lemma calls_can_return now w :
  ∃ w' r1 r2, rtc (step now) w w' ∧ both_returned w' r1 r2.
Proof.
  assert (Hone : ∀ s c1 c2, ∃ s' r, rtc (step now) (World s c1 c2) (World s' (Returned r) c2)).
  { intros s c1 c2. destruct c1 as [a b | a b | r].
    - destruct (lookup_cases s a b) as [[c Hc] | Hmiss].
      + exists s, (Ok c). apply rtc_once. rewrite <- Hc. apply step_lookup1.
      + eexists _, _. eapply rtc_l; [apply step_lookup1 |]. rewrite Hmiss.
        apply rtc_once, step_create1.
    - eexists _, _. apply rtc_once, step_create1.
    - by exists s, r. }
  assert (Htwo : ∀ s c1 c2, ∃ s' r, rtc (step now) (World s c1 c2) (World s' c1 (Returned r))).
  { intros s c1 c2. destruct c2 as [a b | a b | r].
    - destruct (lookup_cases s a b) as [[c Hc] | Hmiss].
      + exists s, (Ok c). apply rtc_once. rewrite <- Hc. apply step_lookup2.
      + eexists _, _. eapply rtc_l; [apply step_lookup2 |]. rewrite Hmiss.
        apply rtc_once, step_create2.
    - eexists _, _. apply rtc_once, step_create2.
    - by exists s, r. }
  destruct w as [s c1 c2].
  destruct (Hone s c1 c2) as (s1 & r1 & Hrun1).
  destruct (Htwo s1 (Returned r1) c2) as (s2 & r2 & Hrun2).
  exists (World s2 (Returned r1) (Returned r2)), r1, r2. split; [| done].
  by etrans.
Qed.


(** Calls that overlap both create: from a world in which both calls are
    to create, the calls return two different chats. *)
Lemma overlapping_calls_create_two now s A B a1 b1 a2 b2 w r1 r2 :
  well_kept s → chat_ids_left 2 s → A ≠ B → A ∈ users s → B ∈ users s →
  endpoints A B a1 b1 → endpoints A B a2 b2 →
  rtc (step now) (World s (Missing a1 b1) (Missing a2 b2)) w →
  both_returned w r1 r2 →
  ∃ i j, r1 = Ok i ∧ r2 = Ok j ∧ i ≠ j.
Proof.
  intros Hkept Hleft Hne HA HB H1 H2 Hrun [Hr1 Hr2].
  apply rtc_inv in Hrun as [<- | (w1 & Hstep & Hrun)]; [done |].
  inversion Hstep; subst; clear Hstep.
  - destruct (create_call now s A B a1 b1 1 Hkept)
      as (s' & Hc & Hkept' & Hu & Hleft' & _ & Hseq); try done.
    rewrite Hc in Hrun. simpl in Hrun.
    apply rtc_inv in Hrun as [<- | (w2 & Hstep & Hrun)]; [done |].
    inversion Hstep; subst; clear Hstep.
    destruct (create_call now s' A B a2 b2 0 Hkept') as (s'' & Hc' & _);
      try done; try congruence.
    rewrite Hc' in Hrun. simpl in Hrun.
    apply rtc_inv in Hrun as [<- | (w3 & Hstep & _)]; [| inversion Hstep].
    simpl in *. simplify_eq. eexists _, _. split_and!; try done. lia.
  - destruct (create_call now s A B a2 b2 1 Hkept)
      as (s' & Hc & Hkept' & Hu & Hleft' & _ & Hseq); try done.
    rewrite Hc in Hrun. simpl in Hrun.
    apply rtc_inv in Hrun as [<- | (w2 & Hstep & Hrun)]; [done |].
    inversion Hstep; subst; clear Hstep.
    destruct (create_call now s' A B a1 b1 0 Hkept') as (s'' & Hc' & _);
      try done; try congruence.
    rewrite Hc' in Hrun. simpl in Hrun.
    apply rtc_inv in Hrun as [<- | (w3 & Hstep & _)]; [| inversion Hstep].
    simpl in *. simplify_eq. eexists _, _. split_and!; try done. lia.
Qed.

End DirectChat.

(** ** The chat operations keep the references *)

Section OperationsIntegrity.
Import Schema Chat.

Lemma getOrCreateDirectChat_ref_integrity now a b s :
  ref_integrity s → ref_integrity (getOrCreateDirectChat now a b s).2.
Proof.
  intros Hs. unfold getOrCreateDirectChat.
  destruct (find_direct s a b); [done |].
  unfold create_direct. cbv zeta.
  destruct (exec (InsertChat None (ChatRow direct None None (Some a) now now)) s)
    as [s1 |] eqn:H1; cbn [mbind option_bind]; [| done].
  destruct (exec (InsertMember (chats_id_seq s) a (MemberRow false now)) s1)
    as [s2 |] eqn:H2; cbn [mbind option_bind]; [| done].
  destruct (exec (InsertMember (chats_id_seq s) b (MemberRow false now)) s2)
    as [s3 |] eqn:H3; cbn [mbind option_bind]; [| done].
  cbn [commit snd]. eauto using exec_ref_integrity.
Qed.

Lemma leaveChat_ref_integrity c actor s :
  ref_integrity s → ref_integrity (leaveChat c actor s).2.
Proof.
  intros Hs. unfold leaveChat.
  repeat case_match; simpl; try done;
    first [ by apply (exec_ref_integrity (DeleteChat c) s)
          | by apply (exec_ref_integrity (DeleteMember c actor) s) ].
Qed.

Lemma sendMessage_ref_integrity now c sender b s :
  ref_integrity s → ref_integrity (sendMessage now c sender b s).2.
Proof.
  intros Hs. unfold sendMessage.
  destruct (chat_members s !! (c, sender)); [| done].
  destruct (chats s !! c); [| done].
  destruct (_ && _); [done |].
  destruct (exec (InsertMessage None (new_message c sender b now)) s) as [s' |] eqn:Hex;
    cbn [mbind option_bind commit snd]; [| done].
  by eapply exec_ref_integrity.
Qed.

Lemma markRead_ref_integrity c reader upto s :
  ref_integrity s → ref_integrity (markRead c reader upto s).2.
Proof.
  intros [Hmem Hmsg]. unfold markRead.
  destruct (kind_of s c) as [k |]; [| done].
  destruct (messages s !! upto) as [um |]; [| done].
  destruct (bool_decide (chat_id um = Some c)); [| done].
  split; [done |]. intros i m c'. simpl. rewrite map_lookup_imap.
  destruct (messages s !! i) as [m0 |] eqn:Hm0; simpl; [| done].
  intros [= <-]. destruct (mark_in_scope_fields k c reader (key_of (upto, um)) i m0) as (-> & _).
  by apply (Hmsg i).
Qed.
End OperationsIntegrity.

(** ** The properties on the sample chat *)

(** A decidable fact about the sample data, settled by evaluation. *)
Ltac by_evaluation := apply (bool_decide_unpack _); vm_compute; exact I.

Lemma eng_has_no_direct_chat c : Chat.kind_of Sample.eng c ≠ Some Schema.direct.
Proof.
  unfold Chat.kind_of.
  assert (H : map_Forall (λ _ row, Schema.type row ≠ Schema.direct) (Schema.chats Sample.eng))
    by by_evaluation.
  revert H. generalize (Schema.chats Sample.eng). intros m H.
  destruct (m !! c) as [row |] eqn:Hrow; [| discriminate].
  intros [= Hd]. exact (H c row Hrow Hd).
Qed.

Lemma eng_chat_inv : Chat.chat_inv Sample.eng.
Proof.
  constructor.
  - apply (ref_integrity_reachable Sample.eng_statements).
  - intros c [row Hrow].
    assert (H : map_Forall (λ c _, c < Schema.chats_id_seq Sample.eng) (Schema.chats Sample.eng))
      by by_evaluation.
    exact (H c row Hrow).
  - intros c Hk. by destruct (eng_has_no_direct_chat c).
  - intros c1 c2 Hk. by destruct (eng_has_no_direct_chat c1).
Qed.

(** A sequence past its end hands out no id: the insert is rejected. *)
Example insert_past_the_end_of_the_sequence :
  Schema.exec (Schema.InsertChat None (Schema.ChatRow Schema.direct None None None 1 1))
    (Schema.Store ∅ ∅ ∅ ∅ 2147483648 1) = None.
Proof. reflexivity. Qed.



Lemma sole_admin_leaveChat_witness :
  Chat.leaveChat 1 1 Sample.eng = (Chat.Err Chat.MustTransferAdminFirst, Sample.eng).
Proof.
  refine (proj1 (sole_admin_leaveChat Sample.eng 1 1
                   (Schema.ChatRow Schema.group (Some "Eng") None (Some 1) 100 100)
                   _ _ _) _).
  - reflexivity.
  - left; reflexivity.
  - by_evaluation.
  - exists 2. split; by_evaluation.
Defined.

Example leaveChat_last_member :
  (Chat.leaveChat 1 1 Sample.solo).1 = Chat.Ok [] ∧
  Schema.chats (Chat.leaveChat 1 1 Sample.solo).2 !! 1 = None ∧
  Schema.messages (Chat.leaveChat 1 1 Sample.solo).2 !! 1 = None.
Proof. vm_compute. done. Qed.

Lemma markRead_counts_once_witness :
  (Chat.unreadCount (Chat.markRead 1 2 1 Sample.eng).2 1 2 + 1 =
   Chat.unreadCount Sample.eng 1 2)%nat ∧
  Chat.markRead 1 2 1 (Chat.markRead 1 2 1 Sample.eng).2 =
    (Chat.Ok 0%nat, (Chat.markRead 1 2 1 Sample.eng).2).
Proof.
  refine (proj2 (markRead_counts_once 1 2 1 Sample.eng 1%nat
                   (Chat.markRead 1 2 1 Sample.eng).2 _)).
  vm_compute. reflexivity.
Defined.

Example eng_scenario :
  Chat.unreadCount Sample.eng 1 2 = 1%nat ∧
  (Chat.markRead 1 2 1 Sample.eng).1 = Chat.Ok 1%nat ∧
  Chat.unreadCount (Chat.markRead 1 2 1 Sample.eng).2 1 2 = 0%nat ∧
  Chat.unreadCount (Chat.markRead 1 2 1 Sample.eng).2 1 3 = 1%nat.
Proof. vm_compute. done. Qed.

Lemma listMessages_paging_consistent_witness :
  Chat.paging Sample.busy 1 2 None [1; 1; 1; 1]%nat = Chat.Ok (Chat.history Sample.busy 1) ∧
  Chat.paging Sample.busy 1 2 None [3; 5]%nat = Chat.paging Sample.busy 1 2 None [1; 1; 1; 1]%nat.
Proof.
  refine (proj2 (proj2 (proj2
    (listMessages_paging_consistent Sample.busy 1 2 [1; 1; 1; 1]%nat [3; 5]%nat _ _ _ _ _)))).
  - by_evaluation.
  - repeat constructor.
  - repeat constructor.
  - vm_compute. lia.
  - vm_compute. lia.
Defined.

Example busy_history_order :
  (Chat.history Sample.busy 1).*1 = [3; 2; 1; 4] ∧
  Chat.next_cursor (take 2 (Chat.history Sample.busy 1)) = Some (120, 2) ∧
  Chat.listMessages Sample.busy 1 2 (Some (120, 2)) 5 =
    Chat.Ok (drop 2 (Chat.history Sample.busy 1)) ∧
  Chat.listMessages Sample.busy 1 9 None 5 = Chat.Err Chat.NotAMember.
Proof. vm_compute. done. Qed.

Lemma sendMessage_checks_then_persists_witness :
  Schema.messages (Chat.sendMessage 300 1 2 (Chat.Text "yo") Sample.eng).2 =
    <[2 := Chat.new_message 1 2 (Chat.Text "yo") 300]> (Schema.messages Sample.eng) ∧
  Chat.sendMessage 300 1 4 (Chat.Text "yo") Sample.eng = (Chat.Err Chat.NotAMember, Sample.eng).
Proof.
  destruct (sendMessage_checks_then_persists 300 1 2 (Chat.Text "yo") Sample.eng)
    as (_ & _ & Hok).
  destruct (Hok 2 (Chat.sendMessage 300 1 2 (Chat.Text "yo") Sample.eng).2)
    as (_ & Hrows & _); [vm_compute; reflexivity |].
  split; [exact Hrows |].
  apply (sendMessage_checks_then_persists 300 1 4 (Chat.Text "yo") Sample.eng).
  by_evaluation.
Defined.

(** ** The gates on sample requests *)

Example cookie_header_parse :
  Socket.tokenMatch "theme=dark; token=abc; x=1" = Some "abc" ∧
  Socket.tokenMatch "a=1;token=abc" = Some "abc" ∧
  Socket.tokenMatch "xtoken=abc" = None ∧
  Socket.tokenMatch "token=; token=zz" = Some "zz" ∧
  Socket.tokenMatch "a=1;   mytoken=q" = None.
Proof. vm_compute. done. Qed.

Example chat_router_on_sample_requests :
  Http.status (ChatRoutes.out_response
     (ChatRoutes.chat_router Sample.verify Sample.no_sessions Sample.ok_handler
        (Http.Request Http.POST "/create" (Some "first.login.token")))) = 200 ∧
  ChatRoutes.out_ran
     (ChatRoutes.chat_router Sample.verify Sample.no_sessions Sample.ok_handler
        (Http.Request Http.POST "/create" (Some "first.login.token"))) = [ChatRoutes.createChat] ∧
  Http.status (ChatRoutes.out_response
     (ChatRoutes.chat_router Sample.verify Sample.no_sessions Sample.ok_handler
        (Http.Request Http.POST "/" (Some "first.login.token")))) = 404 ∧
  Http.status (ChatRoutes.out_response
     (ChatRoutes.chat_router Sample.verify Sample.sessions Sample.ok_handler
        (Http.Request Http.GET "/" (Some "first.login.token")))) = 401.
Proof. vm_compute. done. Qed.

(** A token whose stored session is NULL (the user logged out) passes the
    HTTP gate: the session check applies to a stored session only. *)
Example logged_out_session_passes :
  Http.authenticateToken Sample.verify (λ _, Some [None])
    (Http.Request Http.GET "/" (Some "first.login.token")) = Http.Next Sample.first_login.
Proof. reflexivity. Qed.

(** * Further properties of the code *)

(** ** Who reaches a chat controller *)

Section HandlerSoundness.
Import Http ChatRoutes.
Variable verify : Jwt.verifier.
Variable query_session : session_db.
Variable run_handler : handler → params → Jwt.payload → request → response.

(** When the middleware calls [next()], the cookie held a token that
    [jwt.verify] accepts, the user passed on is its payload, and for an
    admin or super-admin the session query answered and the first row holds
    no other session than the one of the token. *)
Lemma authenticateToken_Next req u :
  authenticateToken verify query_session req = Next u →
  ∃ t, cookie_token req = Some t ∧ t ≠ "" ∧ verify t = Some u ∧
       (is_single_session_role (Jwt.role u) = true →
        ∃ rows, query_session (Jwt.id u) = Some rows ∧
                ∀ sid, head rows = Some (Some sid) → sid ≠ "" → Jwt.sessionId u = Some sid).
Proof.
  unfold authenticateToken. intros H.
  destruct (cookie_token req) as [t |] eqn:Hc; [| done].
  destruct (String.eqb_spec t "") as [-> | Hne]; [done |].
  simpl in H. destruct (String.eqb_spec t ""); [done |]. simpl in H.
  destruct (verify t) as [u' |] eqn:Hv; [| done].
  exists t. split; [done |]. split; [done |].
  destruct (is_single_session_role (Jwt.role u')) eqn:Hrole.
  - destruct (query_session (Jwt.id u')) as [[| row rows] |] eqn:Hq; try done.
    + injection H as <-. split; [done |]. intros _. exists []. split; [done |]. done.
    + destruct (truthy row && strict_neq (Jwt.sessionId u') row) eqn:Hstale; [done |].
      injection H as <-. split; [done |]. intros _. exists (row :: rows). split; [done |].
      intros sid [= ->] Hsid. apply andb_false_iff in Hstale as [Ht | Hs].
      * simpl in Ht. by destruct (String.eqb_spec sid "").
      * unfold strict_neq in Hs. apply negb_false_iff, bool_decide_eq_true in Hs. done.
  - injection H as <-. split; [done |]. by rewrite Hrole.
Qed.

(** X1: a chat controller function runs only for a request whose cookie
    holds a token that [jwt.verify] accepts; it is the one function the
    method and path dispatch to, it is the only one that runs, and it is
    given the payload of that token as the user. *)
Theorem handler_runs_only_for_verified_user req h others :
  out_ran (chat_router verify query_session run_handler req) = h :: others →
  ∃ t u ps,
    cookie_token req = Some t ∧ t ≠ "" ∧ verify t = Some u ∧
    authenticateToken verify query_session req = Next u ∧
    dispatch (req_method req) (req_path req) = Hit h ps ∧
    others = [] ∧
    out_response (chat_router verify query_session run_handler req) = run_handler h ps u req.
Proof.
  unfold chat_router. intros Hran.
  destruct (authenticateToken verify query_session req) as [r | u] eqn:Hgate; [done |].
  destruct (authenticateToken_Next req u Hgate) as (t & Hc & Hne & Hv & _).
  destruct (dispatch (req_method req) (req_path req)) as [h' ps | |] eqn:Hd;
    [| done | done].
  simpl in Hran. injection Hran as <- <-.
  by exists t, u, ps.
Qed.
End HandlerSoundness.

Lemma handler_runs_only_for_verified_user_witness :
  ∃ t u ps,
    Http.cookie_token (Http.Request Http.POST "/dm" (Some "first.login.token")) = Some t ∧
    t ≠ "" ∧ Sample.verify t = Some u ∧
    Http.authenticateToken Sample.verify Sample.no_sessions
      (Http.Request Http.POST "/dm" (Some "first.login.token")) = Http.Next u ∧
    ChatRoutes.dispatch Http.POST "/dm" = ChatRoutes.Hit ChatRoutes.getOrCreateDirectChat ps ∧
    [] = @nil ChatRoutes.handler ∧
    ChatRoutes.out_response
      (ChatRoutes.chat_router Sample.verify Sample.no_sessions Sample.ok_handler
         (Http.Request Http.POST "/dm" (Some "first.login.token"))) =
    Sample.ok_handler ChatRoutes.getOrCreateDirectChat ps u
      (Http.Request Http.POST "/dm" (Some "first.login.token")).
Proof.
  apply (handler_runs_only_for_verified_user Sample.verify Sample.no_sessions
           Sample.ok_handler (Http.Request Http.POST "/dm" (Some "first.login.token"))
           ChatRoutes.getOrCreateDirectChat []).
  reflexivity.
Defined.

(** ** The two versions of the HTTP gate *)

Section GateVersions.
Import Http.
Variable verify : Jwt.verifier.
Variable query_session : session_db.

(** X2: the gate with the session check lets through only what the earlier
    gate lets through, with the same user, and answers like it whenever the
    earlier gate answers itself; the two differ only on verified tokens of
    admins and super-admins. *)
Theorem session_gate_refines_legacy req :
  (∀ u, authenticateToken verify query_session req = Next u →
        HttpLegacy.authenticateToken verify req = Next u) ∧
  (∀ r, HttpLegacy.authenticateToken verify req = Respond r →
        authenticateToken verify query_session req = Respond r) ∧
  (∀ u, HttpLegacy.authenticateToken verify req = Next u →
        is_single_session_role (Jwt.role u) = false →
        authenticateToken verify query_session req = Next u).
Proof.
  unfold authenticateToken, HttpLegacy.authenticateToken.
  destruct (negb (truthy (cookie_token req))); [by split_and! |].
  destruct (verify (default "" (cookie_token req))) as [u' |]; [| by split_and!].
  split_and!.
  - intros u. destruct (is_single_session_role (Jwt.role u')); [| done].
    destruct (query_session (Jwt.id u')) as [[| row rows] |]; try done.
    by destruct (truthy row && strict_neq (Jwt.sessionId u') row).
  - done.
  - intros u [= ->] ->. done.
Qed.
End GateVersions.

Lemma session_gate_refines_legacy_witness :
  HttpLegacy.authenticateToken Sample.verify
    (Http.Request Http.GET "/" (Some "first.login.token")) = Http.Next Sample.first_login ∧
  Http.authenticateToken Sample.verify Sample.sessions
    (Http.Request Http.GET "/" (Some "bad")) =
    Http.Respond (Http.Response 403 "Authentication failed: Invalid or expired token" false).
Proof.
  destruct (session_gate_refines_legacy Sample.verify Sample.no_sessions
              (Http.Request Http.GET "/" (Some "first.login.token"))) as (H1 & _ & _).
  destruct (session_gate_refines_legacy Sample.verify Sample.sessions
              (Http.Request Http.GET "/" (Some "bad"))) as (_ & H2 & _).
  split; [apply H1; reflexivity | apply H2; reflexivity].
Defined.

(** ** References to users *)

Section UserReferences.
Import Schema UserRefs.

Lemma fk_user_Some s u : fk_user s (Some u) = true → u ∈ users s.
Proof. simpl. by intros ?%bool_decide_eq_true. Qed.

Lemma fk_checks_user s c u :
  negb (fk_chat s c && fk_user s u) = false → ∀ i, u = Some i → i ∈ users s.
Proof.
  intros H i ->. apply negb_false_iff, andb_true_iff in H as [_ H].
  by apply fk_user_Some.
Qed.

Ltac exec_split H :=
  unfold exec in H; cbv zeta in H;
  repeat case_match; simplify_eq; simpl.

Lemma exec_members_reference_users st s s' :
  user_integrity s → exec st s = Some s' → members_reference_users s'.
Proof.
  intros (Hm & _ & _) Hex c u r. destruct st; exec_split Hex; eauto.
  - (* InsertUser *) intros Hr. apply elem_of_union. right. eauto.
  - (* DeleteUser *)
    rewrite map_lookup_filter_Some. simpl. intros [Hr Hne].
    apply elem_of_difference. split; [eauto |]. by intros ->%elem_of_singleton.
  - (* DeleteChat *) rewrite map_lookup_filter_Some. intros [Hr _]. eauto.
  - (* InsertMember *)
    rewrite lookup_insert. case_decide; simplify_eq; [| by eauto].
    intros _. by eapply fk_checks_user.
  - (* UpdateMember *)
    rewrite lookup_insert. case_decide; simplify_eq; [| by eauto].
    intros _. match goal with H : bool_decide (is_Some _) = true |- _ =>
      apply bool_decide_eq_true in H as [r' Hr'] end. eauto.
  - (* DeleteMember *) rewrite lookup_delete. case_decide; [done | eauto].
Qed.

Lemma exec_senders_reference_users st s s' :
  user_integrity s → exec st s = Some s' → senders_reference_users s'.
Proof.
  intros (_ & Hs & _) Hex i m u. destruct st; exec_split Hex; eauto.
  - (* InsertUser *) intros Hr Hu. apply elem_of_union. right. eauto.
  - (* DeleteUser *)
    rewrite lookup_fmap. intros Hr Hu.
    destruct (messages s !! i) as [m0 |] eqn:Hm0; simplify_eq/=.
    unfold clear_sender in Hu. case_bool_decide as Hsender; [done |].
    apply elem_of_difference. split; [eauto |].
    intros ->%elem_of_singleton. congruence.
  - (* DeleteChat *) rewrite map_lookup_filter_Some. intros [Hr _]. eauto.
  - (* InsertMessage with a key *)
    rewrite lookup_insert. case_decide; simplify_eq; [| by eauto].
    intros ? Hu; simplify_eq. by eapply fk_checks_user.
  - (* InsertMessage from the sequence *)
    rewrite lookup_insert. case_decide; simplify_eq; [| by eauto].
    intros ? Hu; simplify_eq. by eapply fk_checks_user.
  - (* UpdateMessage *)
    rewrite lookup_insert. case_decide; simplify_eq; [| by eauto].
    intros ? Hu; simplify_eq. by eapply fk_checks_user.
  - (* DeleteMessage *) rewrite lookup_delete. case_decide; [done | eauto].
Qed.

Lemma exec_creators_reference_users st s s' :
  user_integrity s → exec st s = Some s' → creators_reference_users s'.
Proof.
  intros (_ & _ & Hc) Hex c row u. destruct st; exec_split Hex; eauto.
  - (* InsertUser *) intros Hr Hu. apply elem_of_union. right. eauto.
  - (* DeleteUser *)
    rewrite lookup_fmap. intros Hr Hu.
    destruct (chats s !! c) as [row0 |] eqn:Hrow0; simplify_eq/=.
    unfold clear_creator in Hu. case_bool_decide as Hcreator; [done |].
    apply elem_of_difference. split; [eauto |].
    intros ->%elem_of_singleton. congruence.
  - (* InsertChat with a key *)
    rewrite lookup_insert. case_decide; simplify_eq; [| by eauto].
    intros ? Hu; simplify_eq.
    match goal with H : negb (fk_user _ _) = false |- _ =>
      apply negb_false_iff in H; rewrite Hu in H; by apply fk_user_Some end.
  - (* InsertChat from the sequence *)
    rewrite lookup_insert. case_decide; simplify_eq; [| by eauto].
    intros ? Hu; simplify_eq.
    match goal with H : negb (fk_user _ _) = false |- _ =>
      apply negb_false_iff in H; rewrite Hu in H; by apply fk_user_Some end.
  - (* UpdateChat *)
    rewrite lookup_insert. case_decide; simplify_eq; [| by eauto].
    intros ? Hu; simplify_eq.
    match goal with H : negb (fk_user _ _) = false |- _ =>
      apply negb_false_iff in H; rewrite Hu in H; by apply fk_user_Some end.
  - (* DeleteChat *) rewrite lookup_delete. case_decide; [done | eauto].
Qed.

(** X3: every statement the schema accepts keeps the references to users
    valid: the user of every membership row, and every sender and creator
    that is not NULL, is a row of [users]. *)
Theorem statements_keep_user_integrity st s s' :
  user_integrity s → exec st s = Some s' → user_integrity s'.
Proof.
  intros Hs Hex. split_and!.
  - by eapply exec_members_reference_users.
  - by eapply exec_senders_reference_users.
  - by eapply exec_creators_reference_users.
Qed.

Lemma user_integrity_empty : user_integrity empty.
Proof. split_and!; intros ?; intros; simplify_map_eq. Qed.

Lemma user_integrity_reachable sts : user_integrity (exec_all sts empty).
Proof.
  unfold exec_all. generalize user_integrity_empty. generalize empty.
  induction sts as [| st sts IH]; intros s Hs; [done |].
  simpl. apply IH. destruct (exec st s) as [s' |] eqn:Hex; [| done].
  simpl. split_and!.
  - by eapply exec_members_reference_users.
  - by eapply exec_senders_reference_users.
  - by eapply exec_creators_reference_users.
Qed.

(** X4: a message is removed or rewritten only by the statements that
    name it or delete its chat: after any other statement the schema accepts
    the message is there under the same key with the same columns, except that
    deleting its sender sets the sender to NULL. *)
Theorem message_kept_by_other_statements st s s' i m :
  exec st s = Some s' → messages s !! i = Some m →
  st ≠ DeleteMessage i → (∀ r, st ≠ UpdateMessage i r) →
  (∀ c, chat_id m = Some c → st ≠ DeleteChat c) →
  messages s' !! i = Some (match st with
                           | DeleteUser u => clear_sender u m
                           | _ => m
                           end).
Proof.
  intros Hex Hm Hdel Hupd Hchat. destruct st; exec_split Hex; try done.
  - (* DeleteUser *) by rewrite lookup_fmap, Hm.
  - (* DeleteChat *)
    apply map_lookup_filter_Some. split; [done |]. simpl.
    intros Hc. by apply (Hchat _ Hc).
  - (* InsertMessage with a key *)
    rewrite lookup_insert_ne; [done |]. intros ->.
    match goal with H : bool_decide (is_Some _) = false |- _ =>
      apply bool_decide_eq_false in H; apply H end. by eexists.
  - (* InsertMessage from the sequence *)
    rewrite lookup_insert_ne; [done |]. intros Heq.
    match goal with H : bool_decide (is_Some _) = false |- _ =>
      apply bool_decide_eq_false in H; apply H end. rewrite Heq. by eexists.
  - (* UpdateMessage *)
    rewrite lookup_insert_ne; [done |]. intros ->. by eapply Hupd.
  - (* DeleteMessage *)
    rewrite lookup_delete_ne; [done |]. intros ->. done.
Qed.
End UserReferences.

Lemma statements_keep_user_integrity_witness :
  UserRefs.user_integrity (Schema.exec_all [Schema.DeleteUser 2] Sample.eng).
Proof.
  apply (statements_keep_user_integrity (Schema.DeleteUser 2) Sample.eng
           (Schema.exec_all [Schema.DeleteUser 2] Sample.eng)
           (user_integrity_reachable Sample.eng_statements) eq_refl).
Defined.

Lemma message_kept_by_other_statements_witness :
  Schema.messages (Schema.exec_all [Schema.DeleteUser 1] Sample.eng) !! 1 =
    Some (Schema.MessageRow (Some 1) None Schema.user (Some "hi") None None false [] 110).
Proof.
  apply (message_kept_by_other_statements (Schema.DeleteUser 1) Sample.eng
           (Schema.exec_all [Schema.DeleteUser 1] Sample.eng) 1
           (Schema.MessageRow (Some 1) (Some 1) Schema.user (Some "hi") None None false [] 110)).
  - reflexivity.
  - vm_compute. reflexivity.
  - discriminate.
  - discriminate.
  - discriminate.
Defined.

(** ** Logging in and out *)

Section AuthRoutes.
Import Http Auth.
Variable matchPassword : string → string → option bool.
Variable generateToken :
  Z → string → option string → bool → option string → option string.
Variable decodeToken : string → decoded.
Variable verify : Jwt.verifier.


(** The first row of the query by email is a row of the table with that
    email. *)
Lemma by_email_head t e i user :
  head (by_email t e) = Some (i, user) → t !! i = Some user ∧ u_email user = e.
Proof.
  intros H%head_Some_elem_of. unfold by_email in H.
  apply elem_of_map_to_list, map_lookup_filter_Some in H. done.
Qed.

(** With unique emails the query by email returns the one row. *)
Lemma by_email_unique t i user :
  unique_emails t → t !! i = Some user → by_email t (u_email user) = [(i, user)].
Proof.
  intros Huniq Hi. unfold by_email.
  assert (Hone : filter (λ kv : Z * user_row, u_email kv.2 = u_email user) t = {[i := user]}).
  { apply map_eq. intros j. destruct (decide (i = j)) as [<- | Hne].
    - rewrite lookup_singleton_eq. by apply map_lookup_filter_Some.
    - rewrite lookup_singleton_ne by done. apply map_lookup_filter_None.
      destruct (t !! j) as [r |] eqn:Hj; [right | by left].
      intros r' [= <-] Heq. simpl in Heq. apply Hne. symmetry. by eapply Huniq. }
  rewrite Hone. apply map_to_list_singleton.
Qed.

(** Storing a session keeps the emails as they are. *)
Lemma unique_emails_set_session sid i t :
  unique_emails t → unique_emails (alter (set_session sid) i t).
Proof.
  intros Huniq.
  assert (Hsame : ∀ j r, alter (set_session sid) i t !! j = Some r →
                         ∃ r0, t !! j = Some r0 ∧ u_email r0 = u_email r).
  { intros j r. rewrite lookup_alter. case_decide as Hij; [| intros Hj; by exists r].
    subst j. destruct (t !! i) as [r0 |]; simpl; [| done]. intros [= <-]. by exists r0. }
  intros j1 j2 r1 r2 (a & Ha & Ea)%Hsame (c & Hc & Ec)%Hsame Heq.
  eapply Huniq; [done | done | congruence].
Qed.

(** X5: a login that is not answered 200 is answered 401, 409 or 500,
    leaves the users table as it was and sets no cookie; and 409 is
    answered only after the password matched. *)
Theorem login_refusal_changes_nothing b sid t :
  reply_status (Auth.login matchPassword generateToken b sid t).1 ≠ 200 →
  (Auth.login matchPassword generateToken b sid t).2 = t ∧
  reply_cookie (Auth.login matchPassword generateToken b sid t).1 = NoCookie ∧
  (reply_status (Auth.login matchPassword generateToken b sid t).1 = 401 ∨ reply_status (Auth.login matchPassword generateToken b sid t).1 = 409 ∨
   reply_status (Auth.login matchPassword generateToken b sid t).1 = 500) ∧
  (reply_status (Auth.login matchPassword generateToken b sid t).1 = 409 →
   ∃ i user, t !! i = Some user ∧ u_email user = email b ∧
             matchPassword (password b) (u_password_hash user) = Some true ∧
             single_session_row user = true ∧
             truthy (u_current_session_id user) = true ∧ forceLogout b = false).
Proof.
  unfold Auth.login.
  destruct (head (by_email t (email b))) as [[i user] |] eqn:Hrow;
    [| simpl; intros _; split_and!; auto; discriminate].
  apply by_email_head in Hrow as [Hi He].
  destruct (matchPassword (password b) (u_password_hash user)) as [[] |] eqn:Hpw;
    [| simpl; intros _; split_and!; auto; discriminate
     | simpl; intros _; split_and!; auto; discriminate].
  destruct (single_session_row user && truthy (u_current_session_id user) &&
            negb (forceLogout b)) eqn:Hbusy; simpl; [| done].
  intros _. split_and!; auto. intros _.
  apply andb_true_iff in Hbusy as [[Hr Hs]%andb_true_iff Hf].
  apply negb_true_iff in Hf. by exists i, user.
Qed.

(** X6: a login answered 200 found a row with the email whose password
    matched; it stores the new session identifier in that row and in no
    other, and sets as cookie the token generated for the row, marked 2FA
    verified exactly when the row has two-factor disabled. *)
Theorem login_success_stores_session b sid t :
  reply_status (Auth.login matchPassword generateToken b sid t).1 = 200 →
  ∃ i user,
    t !! i = Some user ∧ u_email user = email b ∧
    matchPassword (password b) (u_password_hash user) = Some true ∧
    (Auth.login matchPassword generateToken b sid t).2 !! i = Some (set_session (Some sid) user) ∧
    (∀ j, j ≠ i → (Auth.login matchPassword generateToken b sid t).2 !! j = t !! j) ∧
    reply_cookie (Auth.login matchPassword generateToken b sid t).1 =
      SetCookie (generateToken i (u_email user) (u_role user)
                   (negb (u_two_factor_enabled user)) (Some sid)).
Proof.
  unfold Auth.login.
  destruct (head (by_email t (email b))) as [[i user] |] eqn:Hrow; [| done].
  apply by_email_head in Hrow as [Hi He].
  destruct (matchPassword (password b) (u_password_hash user)) as [[] |] eqn:Hpw;
    [| done | done].
  destruct (single_session_row user && truthy (u_current_session_id user) &&
            negb (forceLogout b)); simpl; [done |].
  intros _. exists i, user. split_and!; try done.
  - by rewrite lookup_alter_eq, Hi.
  - intros j Hj. by rewrite lookup_alter_ne.
Qed.

(** The gate on a table whose row for the user of the token holds the
    session [sid]. *)
Lemma gate_with_stored_session t tok u row m p :
  tok ≠ "" → verify tok = Some u →
  t !! Jwt.id u = Some row →
  authenticateToken verify (sessions t) (Request m p (Some tok)) =
    if is_single_session_role (Jwt.role u) && truthy (u_current_session_id row) &&
       strict_neq (Jwt.sessionId u) (u_current_session_id row)
    then Respond (Response 401 "Session expired. You logged in on another device." true)
    else Next u.
Proof.
  intros Htok Hv Hrow. unfold authenticateToken. simpl cookie_token.
  assert (Ht : truthy (Some tok) = true) by (simpl; by destruct (String.eqb_spec tok "")).
  rewrite Ht. simpl negb. cbv iota. simpl default. rewrite Hv.
  destruct (is_single_session_role (Jwt.role u)); [| done].
  unfold sessions. rewrite Hrow. simpl andb.
  by destruct (truthy (u_current_session_id row) &&
               strict_neq (Jwt.sessionId u) (u_current_session_id row)).
Qed.

(** X7: after a login answered 200, the HTTP gate lets a verified token of
    that user through when the user is no admin or super-admin, and
    otherwise exactly when the token carries the session identifier of this
    login; a token of an earlier login is answered 401 with the cookie
    cleared. *)
Theorem login_fixes_the_accepted_session b sid t tok u user m p :
  reply_status (Auth.login matchPassword generateToken b sid t).1 = 200 →
  head (by_email t (email b)) = Some (Jwt.id u, user) →
  sid ≠ "" → tok ≠ "" → verify tok = Some u →
  authenticateToken verify (sessions (Auth.login matchPassword generateToken b sid t).2) (Request m p (Some tok)) =
    if is_single_session_role (Jwt.role u) && negb (bool_decide (Jwt.sessionId u = Some sid))
    then Respond (Response 401 "Session expired. You logged in on another device." true)
    else Next u.
Proof.
  intros Hok Hrow Hsid Htok Hv.
  assert (Hstored : (Auth.login matchPassword generateToken b sid t).2 !! Jwt.id u =
                      Some (set_session (Some sid) user)).
  { revert Hok. unfold Auth.login. rewrite Hrow.
    apply by_email_head in Hrow as [Hi _].
    destruct (matchPassword _ _) as [[] |]; try done.
    destruct (_ && _ && _); simpl; [done |].
    intros _. by rewrite lookup_alter_eq, Hi. }
  rewrite (gate_with_stored_session _ tok u _ m p Htok Hv Hstored). simpl.
  assert (Htruthy : negb (String.eqb sid "") = true) by (by destruct (String.eqb_spec sid "")).
  rewrite Htruthy, andb_true_r. done.
Qed.

(** X8: a logout with a token that decodes to a user is answered 200 and
    clears the cookie; it sets the stored session of that user to NULL and
    touches no other row; and the token itself still passes the HTTP gate
    afterwards. *)
Theorem logout_leaves_token_valid tok u t m p :
  tok ≠ "" → decodeToken tok = Decoded (Some u) → verify tok = Some u → Jwt.id u ≠ 0 →
  (Auth.logout decodeToken (Some tok) t).1 = Reply 200 "Logout successful" ClearCookie ∧
  (Auth.logout decodeToken (Some tok) t).2 !! Jwt.id u = set_session None <$> (t !! Jwt.id u) ∧
  (∀ j, j ≠ Jwt.id u → (Auth.logout decodeToken (Some tok) t).2 !! j = t !! j) ∧
  authenticateToken verify (sessions (Auth.logout decodeToken (Some tok) t).2) (Request m p (Some tok)) = Next u.
Proof.
  intros Htok Hd Hv Hid. unfold Auth.logout.
  assert (Ht : truthy (Some tok) = true) by (simpl; by destruct (String.eqb_spec tok "")).
  rewrite Ht. simpl default. rewrite Hd.
  rewrite (bool_decide_eq_false_2 _ Hid). simpl.
  split_and!; try done.
  - by rewrite lookup_alter_eq.
  - intros j Hj. by rewrite lookup_alter_ne.
  - unfold authenticateToken. simpl cookie_token. rewrite Ht. simpl negb. cbv iota.
    simpl default. rewrite Hv.
    destruct (is_single_session_role (Jwt.role u)); [| done].
    unfold sessions. rewrite lookup_alter_eq.
    by destruct (t !! Jwt.id u).
Qed.

(** X9: an admin whose session is active is answered 409 on a login that
    does not force the logout; after a logout with a token of that admin the
    same login is answered 200. *)
Theorem logout_unlocks_login b sid t i user tok u :
  unique_emails t → t !! i = Some user → u_email user = email b →
  matchPassword (password b) (u_password_hash user) = Some true →
  single_session_row user = true →
  truthy (u_current_session_id user) = true → forceLogout b = false →
  tok ≠ "" → decodeToken tok = Decoded (Some u) → Jwt.id u = i → i ≠ 0 →
  reply_status (Auth.login matchPassword generateToken b sid t).1 = 409 ∧
  reply_status (Auth.login matchPassword generateToken b sid (Auth.logout decodeToken (Some tok) t).2).1 = 200 ∧
  (Auth.login matchPassword generateToken b sid (Auth.logout decodeToken (Some tok) t).2).2 !! i = Some (set_session (Some sid) user).
Proof.
  intros Huniq Hi He Hpw Hrole Hsess Hforce Htok Hd Hid Hnz.
  assert (Hlogin : ∀ t0 user0, unique_emails t0 → t0 !! i = Some user0 →
            u_email user0 = email b → u_password_hash user0 = u_password_hash user →
            single_session_row user0 = single_session_row user →
            Auth.login matchPassword generateToken b sid t0 =
              if truthy (u_current_session_id user0)
              then (Reply 409 "User is already logged in on another device." NoCookie, t0)
              else (Reply 200 "Login successful"
                      (SetCookie (generateToken i (u_email user0) (u_role user0)
                                    (negb (u_two_factor_enabled user0)) (Some sid))),
                    alter (set_session (Some sid)) i t0)).
  { intros t0 user0 Hu0 Hi0 He0 Hh0 Hr0. unfold Auth.login.
    rewrite <- He0, (by_email_unique t0 i user0 Hu0 Hi0). simpl.
    rewrite Hh0, Hpw, Hr0, Hrole, Hforce. simpl.
    rewrite andb_true_r. done. }
  split.
  - rewrite (Hlogin t user); try done. by rewrite Hsess.
  - assert (Hout : (Auth.logout decodeToken (Some tok) t).2 = alter (set_session None) i t).
    { unfold Auth.logout.
      assert (Ht : truthy (Some tok) = true) by (simpl; by destruct (String.eqb_spec tok "")).
      rewrite Ht. simpl default. rewrite Hd, Hid.
      by rewrite (bool_decide_eq_false_2 _ Hnz). }
    rewrite Hout.
    rewrite (Hlogin (alter (set_session None) i t) (set_session None user)); try done.
    + simpl. split; [done |]. rewrite lookup_alter_eq, lookup_alter_eq, Hi. done.
    + by apply unique_emails_set_session.
    + by rewrite lookup_alter_eq, Hi.
Qed.
End AuthRoutes.

(** ** The authentication routes on the sample users *)

Lemma sample_users_unique : Auth.unique_emails SampleAuth.users.
Proof.
  intros i j r1 r2 Hi Hj. unfold SampleAuth.users in Hi, Hj.
  apply lookup_insert_Some in Hi as [[<- <-] | [_ [<- <-]%lookup_singleton_Some]];
    apply lookup_insert_Some in Hj as [[<- <-] | [_ [<- <-]%lookup_singleton_Some]];
    done.
Qed.

Lemma login_refusal_changes_nothing_witness :
  (Auth.login SampleAuth.matchPassword SampleAuth.generateToken
     SampleAuth.admin_login "session-2" SampleAuth.users).2 = SampleAuth.users ∧
  Auth.reply_status
    (Auth.login SampleAuth.matchPassword SampleAuth.generateToken
       SampleAuth.admin_login "session-2" SampleAuth.users).1 = 409.
Proof.
  destruct (login_refusal_changes_nothing SampleAuth.matchPassword SampleAuth.generateToken
              SampleAuth.admin_login "session-2" SampleAuth.users) as (Hsame & _ & _ & _).
  - vm_compute. discriminate.
  - split; [exact Hsame | reflexivity].
Defined.

Lemma login_success_stores_session_witness :
  ∃ i user,
    SampleAuth.users !! i = Some user ∧
    (Auth.login SampleAuth.matchPassword SampleAuth.generateToken
       SampleAuth.forced_login "session-2" SampleAuth.users).2 !! i =
      Some (Auth.set_session (Some "session-2") user).
Proof.
  destruct (login_success_stores_session SampleAuth.matchPassword SampleAuth.generateToken
              SampleAuth.forced_login "session-2" SampleAuth.users)
    as (i & user & Hi & _ & _ & Hstored & _).
  - reflexivity.
  - exists i, user. split; [exact Hi | exact Hstored].
Defined.

Lemma login_fixes_the_accepted_session_witness :
  Http.authenticateToken Sample.verify
    (Auth.sessions (Auth.login SampleAuth.matchPassword SampleAuth.generateToken
                      SampleAuth.forced_login "session-2" SampleAuth.users).2)
    (Http.Request Http.GET "/" (Some "first.login.token")) =
  Http.Respond (Http.Response 401 "Session expired. You logged in on another device." true).
Proof.
  apply (login_fixes_the_accepted_session SampleAuth.matchPassword SampleAuth.generateToken
           Sample.verify SampleAuth.forced_login "session-2" SampleAuth.users
           "first.login.token" Sample.first_login SampleAuth.admin_row Http.GET "/").
  - reflexivity.
  - reflexivity.
  - discriminate.
  - discriminate.
  - reflexivity.
Defined.

Lemma logout_leaves_token_valid_witness :
  (Auth.logout SampleAuth.decodeToken (Some "first.login.token") SampleAuth.users).2 !! 1 =
    Some (Auth.set_session None SampleAuth.admin_row) ∧
  Http.authenticateToken Sample.verify
    (Auth.sessions
       (Auth.logout SampleAuth.decodeToken (Some "first.login.token") SampleAuth.users).2)
    (Http.Request Http.GET "/" (Some "first.login.token")) = Http.Next Sample.first_login.
Proof.
  destruct (logout_leaves_token_valid SampleAuth.decodeToken Sample.verify
              "first.login.token" Sample.first_login SampleAuth.users Http.GET "/")
    as (_ & Hrow & _ & Hgate).
  - discriminate.
  - reflexivity.
  - reflexivity.
  - discriminate.
  - split; [exact Hrow | exact Hgate].
Defined.

Lemma logout_unlocks_login_witness :
  Auth.reply_status
    (Auth.login SampleAuth.matchPassword SampleAuth.generateToken SampleAuth.admin_login
       "session-2" SampleAuth.users).1 = 409 ∧
  Auth.reply_status
    (Auth.login SampleAuth.matchPassword SampleAuth.generateToken SampleAuth.admin_login
       "session-2"
       (Auth.logout SampleAuth.decodeToken (Some "first.login.token") SampleAuth.users).2).1
    = 200.
Proof.
  destruct (logout_unlocks_login SampleAuth.matchPassword SampleAuth.generateToken
              SampleAuth.decodeToken SampleAuth.admin_login "session-2" SampleAuth.users
              1 SampleAuth.admin_row "first.login.token" Sample.first_login)
    as (Hbusy & Hfree & _).
  - exact sample_users_unique.
  - reflexivity.
  - reflexivity.
  - reflexivity.
  - reflexivity.
  - reflexivity.
  - reflexivity.
  - discriminate.
  - reflexivity.
  - reflexivity.
  - discriminate.
  - split; [exact Hbusy | exact Hfree].
Defined.

(** ** The cookie-header parse of the socket gate *)

Section CookieParse.
Import Socket CookieHeader.
Local Arguments Ascii.eqb : simpl never.
Local Arguments String.eqb : simpl never.

Lemma append_empty_r s : s +:+ "" = s.
Proof.
  induction s as [| c s IH]; [reflexivity |].
  change (String c (s +:+ "") = String c s). by rewrite IH.
Qed.

Lemma until_semicolon_free v tail :
  free_of is_semicolon v = true →
  (tail = "" ∨ ∃ rest, tail = String ";" rest) →
  until_semicolon (v +:+ tail) = v.
Proof.
  intros Hv Htail. induction v as [| c v IH]; simpl.
  - destruct Htail as [-> | [rest ->]]; reflexivity.
  - simpl in Hv. apply andb_true_iff in Hv as [Hc Hv]. apply negb_true_iff in Hc.
    unfold is_semicolon in Hc. rewrite Hc. by rewrite (IH Hv).
Qed.

Lemma after_semicolon_skip s tail :
  free_of is_semicolon s = true →
  after_semicolon (s +:+ tail) = after_semicolon tail.
Proof.
  intros Hs. induction s as [| c s IH]; simpl; [done |].
  simpl in Hs. apply andb_true_iff in Hs as [Hc Hs]. apply negb_true_iff in Hc.
  unfold is_semicolon in Hc. rewrite Hc. by apply IH.
Qed.

(** The literal [token=] is a prefix of [name=...] only for the name
    [token]. *)
Lemma strip_prefix_name p n tail :
  free_of (λ c, Ascii.eqb c "="%char) p = true →
  free_of (λ c, Ascii.eqb c "="%char) n = true →
  ChatRoutes.strip_prefix (p +:+ "=") (n +:+ String "=" tail) =
    if String.eqb p n then Some tail else None.
Proof.
  revert n. induction p as [| a p IH]; intros n Hp Hn.
  - destruct n as [| c n]; simpl; [done |].
    simpl in Hn. apply andb_true_iff in Hn as [Hc _]. apply negb_true_iff in Hc.
    rewrite Ascii.eqb_sym in Hc. by rewrite Hc.
  - simpl in Hp. apply andb_true_iff in Hp as [Ha Hp]. apply negb_true_iff in Ha.
    destruct n as [| c n]; simpl.
    + by rewrite Ha.
    + simpl in Hn. apply andb_true_iff in Hn as [_ Hn].
      change (String.eqb (String a p) (String c n))
        with (if Ascii.eqb a c then String.eqb p n else false).
      destruct (Ascii.eqb a c); [by apply IH | done].
Qed.

Lemma name_free_of_equals n :
  free_of name_char_excluded n = true → free_of (λ c, Ascii.eqb c "="%char) n = true.
Proof.
  induction n as [| c n IH]; simpl; [done |].
  intros [Hc Hn]%andb_true_iff. rewrite (IH Hn), andb_true_r.
  unfold name_char_excluded in Hc. by destruct (is_semicolon c), (Ascii.eqb c "=").
Qed.

Lemma name_free_of_semicolon n :
  free_of name_char_excluded n = true → free_of is_semicolon n = true.
Proof.
  induction n as [| c n IH]; simpl; [done |].
  intros [Hc Hn]%andb_true_iff. rewrite (IH Hn), andb_true_r.
  unfold name_char_excluded in Hc. by destruct (is_semicolon c).
Qed.

(** The parse at the start of a cookie. *)
Lemma token_here_cookie n v tail :
  free_of name_char_excluded n = true → free_of is_semicolon v = true →
  (tail = "" ∨ ∃ rest, tail = String ";" rest) →
  token_here (n +:+ "=" +:+ v +:+ tail) =
    if String.eqb n "token" && negb (String.eqb v "") then Some v else None.
Proof.
  intros Hn Hv Htail. unfold token_here.
  change (n +:+ "=" +:+ v +:+ tail) with (n +:+ String "=" (v +:+ tail)).
  change "token=" with ("token" +:+ "=").
  rewrite strip_prefix_name by (done || by apply name_free_of_equals).
  rewrite String.eqb_sym.
  destruct (String.eqb n "token"); [| done]. cbv zeta.
  rewrite (until_semicolon_free v tail Hv Htail). simpl.
  by destruct (String.eqb v "").
Qed.

Lemma render_no_leading_space c cs :
  well_formed (c :: cs) → skip_spaces (render (c :: cs)) = render (c :: cs).
Proof.
  intros Hwf. apply Forall_cons in Hwf as [[Hn _] _].
  destruct c as [n v]. simpl in Hn.
  assert (Hgen : ∀ tail, skip_spaces (n +:+ String "=" tail) = n +:+ String "=" tail).
  { intros tail. destruct n as [| a n]; [reflexivity |].
    simpl in *. apply andb_true_iff in Hn as [Ha _]. apply negb_true_iff in Ha.
    unfold name_char_excluded in Ha. apply orb_false_iff in Ha as [_ Ha]. by rewrite Ha. }
  simpl. destruct cs; apply Hgen.
Qed.

(** X10: on the header of well-formed cookies the parse of the socket gate
    returns the value of the first cookie named [token] whose value is not
    empty, and nothing when there is none. *)
Theorem tokenMatch_reads_token_cookie cookies :
  well_formed cookies → tokenMatch (render cookies) = first_token cookies.
Proof.
  unfold tokenMatch. induction cookies as [| [n v] cs IH]; intros Hwf; [done |].
  pose proof Hwf as Hwf0. apply Forall_cons in Hwf as [[Hn Hv] Hcs]. simpl in Hn, Hv.
  destruct cs as [| c2 cs].
  - simpl render. simpl first_token.
    replace (n +:+ "=" +:+ v) with (n +:+ "=" +:+ v +:+ "")
      by (by rewrite append_empty_r).
    rewrite token_here_cookie by (done || by left).
    destruct (String.eqb n "token" && negb (String.eqb v "")); [done |].
    change (n +:+ "=" +:+ v +:+ "") with (n +:+ ("=" +:+ v +:+ "")).
    rewrite after_semicolon_skip by (by apply name_free_of_semicolon).
    change ("=" +:+ v +:+ "") with (String "=" (v +:+ "")). simpl.
    by rewrite after_semicolon_skip.
  - assert (Hsp : skip_spaces (render (c2 :: cs)) = render (c2 :: cs))
      by (by apply render_no_leading_space).
    specialize (IH Hcs).
    change (render ((n, v) :: c2 :: cs)) with (n +:+ "=" +:+ v +:+ "; " +:+ render (c2 :: cs)).
    change (first_token ((n, v) :: c2 :: cs))
      with (if String.eqb n "token" && negb (String.eqb v "") then Some v
            else first_token (c2 :: cs)).
    revert IH Hsp. generalize (render (c2 :: cs)). intros R IH Hsp.
    rewrite token_here_cookie by (done || right; by eexists).
    destruct (String.eqb n "token" && negb (String.eqb v "")); [done |].
    change (n +:+ "=" +:+ v +:+ "; " +:+ R) with (n +:+ (String "=" (v +:+ "; " +:+ R))).
    rewrite after_semicolon_skip by (by apply name_free_of_semicolon).
    simpl after_semicolon. rewrite after_semicolon_skip by done.
    change ("; " +:+ R) with (String ";" (String " " R)).
    simpl after_semicolon.
    change (skip_spaces (String " " R)) with (skip_spaces R).
    rewrite Hsp, <- IH.
    by destruct (token_here R).
Qed.
End CookieParse.

Section CookieParseSound.
Import Socket CookieHeader.
Local Arguments Ascii.eqb : simpl never.
Local Arguments String.eqb : simpl never.

Lemma strip_prefix_Some p s r :
  ChatRoutes.strip_prefix p s = Some r → s = p +:+ r.
Proof.
  revert s. induction p as [| a p IH]; intros s; simpl.
  - by intros [= ->].
  - destruct s as [| b s]; [done |].
    destruct (Ascii.eqb_spec a b) as [-> | _]; [| done].
    intros H%IH. by rewrite H.
Qed.

Lemma until_semicolon_split s :
  free_of is_semicolon (until_semicolon s) = true ∧
  ∃ post, s = until_semicolon s +:+ post ∧ (post = "" ∨ ∃ r, post = String ";" r).
Proof.
  induction s as [| c s (Hfree & post & Hs & Hpost)]; simpl.
  - split; [done |]. exists "". split; [done | by left].
  - destruct (Ascii.eqb_spec c ";") as [-> | Hc]; simpl.
    + split; [done |]. exists (String ";" s). split; [done | right; by eexists].
    + split.
      * unfold is_semicolon at 1. apply Ascii.eqb_neq in Hc. by rewrite Hc.
      * exists post. split; [| done]. change (String c s = String c (until_semicolon s +:+ post)).
        by rewrite <- Hs.
Qed.

Lemma token_here_Some s t :
  token_here s = Some t →
  t ≠ "" ∧ free_of is_semicolon t = true ∧
  ∃ post, s = "token=" +:+ t +:+ post ∧ (post = "" ∨ ∃ r, post = String ";" r).
Proof.
  unfold token_here.
  destruct (ChatRoutes.strip_prefix "token=" s) as [rest |] eqn:Hp; [| done].
  apply strip_prefix_Some in Hp. cbv zeta.
  destruct (String.eqb_spec (until_semicolon rest) "") as [| Hne]; [done |].
  intros [= <-]. destruct (until_semicolon_split rest) as (Hfree & post & Hrest & Hpost).
  split; [done |]. split; [done |]. exists post. split; [| done].
  by rewrite Hp, Hrest at 1.
Qed.

Lemma skip_spaces_split s : ∃ ws, s = ws +:+ skip_spaces s.
Proof.
  induction s as [| c s [ws Hs]]; simpl.
  - by exists "".
  - destruct (is_space c); [| by exists ""].
    exists (String c ws). change (String c s = String c (ws +:+ skip_spaces s)).
    by rewrite <- Hs.
Qed.

Lemma after_semicolon_Some s t :
  after_semicolon s = Some t →
  t ≠ "" ∧ free_of is_semicolon t = true ∧
  ∃ pre post, s = pre +:+ "token=" +:+ t +:+ post ∧ (post = "" ∨ ∃ r, post = String ";" r).
Proof.
  induction s as [| c s IH]; simpl; [done |].
  destruct (if Ascii.eqb c ";" then token_here (skip_spaces s) else None) as [v |] eqn:Hhere.
  - intros [= ->]. destruct (Ascii.eqb c ";"); [| done].
    apply token_here_Some in Hhere as (Hne & Hfree & post & Hs & Hpost).
    split; [done |]. split; [done |].
    destruct (skip_spaces_split s) as [ws Hws].
    exists (String c ws), post. split; [| done].
    change (String c s = String c (ws +:+ "token=" +:+ t +:+ post)).
    by rewrite Hws at 1; rewrite Hs.
  - intros (Hne & Hfree & pre & post & Hs & Hpost)%IH.
    split; [done |]. split; [done |]. exists (String c pre), post. split; [| done].
    change (String c s = String c (pre +:+ "token=" +:+ t +:+ post)). by rewrite <- Hs.
Qed.

(** X11: whatever the cookie header, a token the parse of the socket gate
    returns is not empty, holds no semicolon, and stands in the header
    right after [token=] and up to the next semicolon or the end. *)
Theorem tokenMatch_sound header t :
  tokenMatch header = Some t →
  t ≠ "" ∧ free_of is_semicolon t = true ∧
  ∃ pre post, header = pre +:+ "token=" +:+ t +:+ post ∧
              (post = "" ∨ ∃ r, post = String ";" r).
Proof.
  unfold tokenMatch. destruct (token_here header) as [v |] eqn:Hhere.
  - intros [= ->]. apply token_here_Some in Hhere as (Hne & Hfree & post & Hs & Hpost).
    split; [done |]. split; [done |]. by exists "", post.
  - apply after_semicolon_Some.
Qed.
End CookieParseSound.

Lemma tokenMatch_sound_witness :
  "abc" ≠ "" ∧ CookieHeader.free_of CookieHeader.is_semicolon "abc" = true ∧
  ∃ pre post, "theme=dark; token=abc; x=1" = pre +:+ "token=" +:+ "abc" +:+ post ∧
              (post = "" ∨ ∃ r, post = String ";" r).
Proof.
  apply (tokenMatch_sound "theme=dark; token=abc; x=1" "abc"). reflexivity.
Defined.

Lemma tokenMatch_reads_token_cookie_witness :
  Socket.tokenMatch "theme=dark; token=; token=abc.def; lang=en" = Some "abc.def".
Proof.
  apply (tokenMatch_reads_token_cookie
           [("theme", "dark"); ("token", ""); ("token", "abc.def"); ("lang", "en")]).
  repeat constructor.
Defined.

(** ** The scheduled jobs *)

Section ScheduledJobs.
Import Http Auth Jobs.
Local Arguments String.eqb : simpl never.

Lemma has_row_lookup att u d :
  has_row att u d ↔ ∃ i r, att !! i = Some r ∧ a_user_id r = Some u ∧ a_date r = d.
Proof. unfold has_row. by rewrite map_Exists_lookup. Qed.

Lemma has_row_insert att i u d rem v d' :
  att !! i = None →
  has_row (<[i := absent_row u d rem]> att) v d' ↔ has_row att v d' ∨ (d' = d ∧ v = u).
Proof.
  intros Hi. unfold has_row. rewrite map_Exists_insert by done. simpl.
  split; intros [H | H]; auto.
  - destruct H as [[= ->] ->]. by right.
  - destruct H as [-> ->]. by left.
Qed.

Lemma unique_user_date_insert att i u d rem :
  att !! i = None → ¬ has_row att u d → unique_user_date att →
  unique_user_date (<[i := absent_row u d rem]> att).
Proof.
  intros Hi Hno Huniq j1 j2 r1 r2 v H1 H2.
  apply lookup_insert_Some in H1 as [[<- <-] | [Hn1 H1]];
    apply lookup_insert_Some in H2 as [[<- <-] | [Hn2 H2]]; simpl.
  - done.
  - intros [= <-] Hu Hd. exfalso. apply Hno, has_row_lookup. by exists j2, r2.
  - intros Hu [= <-] Hd. exfalso. apply Hno, has_row_lookup. by exists j1, r1.
  - by apply Huniq.
Qed.

(** What one INSERT of absent rows does. *)
Lemma insert_absent_spec do_nothing rem d us :
  NoDup us → ∀ att seq n,
  (do_nothing = false → ∀ u, u ∈ us → ¬ has_row att u d) →
  match insert_absent do_nothing rem d us att seq n with
  | Rows att' seq' n' =>
      seq' = seq + Z.of_nat (length us) ∧
      (∀ i r, att !! i = Some r → att' !! i = Some r) ∧
      (∀ i r, att' !! i = Some r → att !! i = None →
         seq ≤ i < seq' ∧ ∃ u, u ∈ us ∧ ¬ has_row att u d ∧ r = absent_row u d rem) ∧
      (∀ u d', has_row att' u d' ↔ has_row att u d' ∨ (d' = d ∧ u ∈ us)) ∧
      (size att' + n = size att + n')%nat ∧
      (unique_user_date att → unique_user_date att')
  | Aborted seq' =>
      ∃ i, seq ≤ i < seq + Z.of_nat (length us) ∧ (is_Some (att !! i) ∨ serial_max < i)
  end.
Proof.
  induction 1 as [| u us Hu Hnd IH]; intros att seq n Hstrict; simpl.
  { split_and!.
    - lia.
    - done.
    - intros i r H1 H2. congruence.
    - intros u d'. split; [by left |]. intros [? | [_ ?%elem_of_nil]]; done.
    - lia.
    - done. }
  case_bool_decide as Hmax.
  { exists seq. split; [lia | by right]. }
  case_bool_decide as Hrow.
  { destruct do_nothing.
    - specialize (IH att (seq + 1) n (λ H, ltac:(done))).
      destruct (insert_absent true rem d us att (seq + 1) n) as [att' seq' n' | seq'].
      + destruct IH as (Hseq & Hold & Hnew & Hcov & Hsize & Huniq).
        split_and!; try done; [lia | |].
        * intros i r Hi Hno. destruct (Hnew i r Hi Hno) as [? (v & Hv & ? & ?)].
          split; [lia |]. exists v. split_and!; try done. by apply elem_of_cons; right.
        * intros v d'. rewrite Hcov, elem_of_cons.
          split; [intros [? | [? ?]]; auto |].
          intros [? | [-> [-> | ?]]]; auto.
      + destruct IH as (i & ? & ?). exists i. split; [lia | done].
    - exfalso. apply (Hstrict eq_refl u); [by apply elem_of_cons; left | done]. }
  case_bool_decide as Hpk.
  { exists seq. split; [lia | by left]. }
  assert (Hfree : att !! seq = None).
  { destruct (att !! seq) eqn:E; [| done]. exfalso. apply Hpk. by eexists. }
  assert (Hstrict' : do_nothing = false →
            ∀ v, v ∈ us → ¬ has_row (<[seq := absent_row u d rem]> att) v d).
  { intros Hdn v Hv. rewrite has_row_insert by done. intros [? | [_ ->]]; [| done].
    apply (Hstrict Hdn v); [by apply elem_of_cons; right | done]. }
  specialize (IH (<[seq := absent_row u d rem]> att) (seq + 1) (S n) Hstrict').
  destruct (insert_absent do_nothing rem d us _ (seq + 1) (S n)) as [att' seq' n' | seq'].
  - destruct IH as (Hseq & Hold & Hnew & Hcov & Hsize & Huniq).
    split_and!.
    + lia.
    + intros i r Hi. apply Hold. rewrite lookup_insert_ne; [done |]. intros ->. congruence.
    + intros i r Hi Hno. destruct (decide (i = seq)) as [-> | Hne].
      * split; [lia |]. exists u. split_and!; [by apply elem_of_cons; left | done |].
        pose proof (Hold seq (absent_row u d rem)) as Hs.
        rewrite lookup_insert_eq in Hs. specialize (Hs eq_refl). congruence.
      * destruct (Hnew i r Hi) as [? (v & Hv & Hnone & ->)].
        { by rewrite lookup_insert_ne. }
        split; [lia |]. exists v. split_and!; [by apply elem_of_cons; right | | done].
        intros Hr. apply Hnone. rewrite has_row_insert by done. by left.
    + intros v d'. rewrite Hcov, has_row_insert, elem_of_cons by done. tauto.
    + rewrite map_size_insert_None in Hsize by done. lia.
    + intros Hu0. by apply Huniq, unique_user_date_insert.
  - destruct IH as (i & Hi & [Hsome | Hbig]); exists i; (split; [lia |]).
    + left. rewrite lookup_insert_ne in Hsome; [done | lia].
    + by right.
Qed.

Lemma elem_of_select_ids place f t u :
  u ∈ select_ids place f t ↔ ∃ row, t !! u = Some row ∧ f u row = true.
Proof.
  unfold select_ids. rewrite merge_sort_Permutation, list_elem_of_fmap. split.
  - intros ([i row] & -> & H). apply elem_of_map_to_list, map_lookup_filter_Some in H.
    by exists row.
  - intros (row & Hrow & Hf). exists (u, row). split; [done |].
    by apply elem_of_map_to_list, map_lookup_filter_Some.
Qed.

Lemma NoDup_select_ids place f t : NoDup (select_ids place f t).
Proof.
  unfold select_ids. rewrite merge_sort_Permutation. apply NoDup_fst_map_to_list.
Qed.

(** Whatever the order of the scan, it returns each selected row once. *)
Lemma length_select_ids place f t :
  length (select_ids place f t) =
    size (filter (λ kv : Z * user_row, f kv.1 kv.2 = true) t).
Proof.
  unfold select_ids. by rewrite merge_sort_Permutation, length_fmap, length_map_to_list.
Qed.

Lemma length_select_active place s :
  length (select_ids place (λ _ r, is_active r) (users s)) = active_count s.
Proof. apply length_select_ids. Qed.

(** A narrower selection returns no more rows than the active users. *)
Lemma length_select_le place f s :
  (∀ i r, f i r = true → is_active r = true) →
  (length (select_ids place f (users s)) ≤ active_count s)%nat.
Proof.
  intros Hsub. rewrite length_select_ids. unfold active_count.
  apply map_subseteq_size, map_subseteq_spec. intros i r.
  rewrite !map_lookup_filter_Some. simpl. intros [? ?]. eauto.
Qed.

Lemma autoAbsent_Completed_inv place weekday today s n s' :
  autoAbsent place weekday today s = (Completed n, s') →
  weekday ≠ 0 ∧ (today ∉ holidays s) ∧
  users s' = users s ∧ holidays s' = holidays s ∧
  insert_absent true "System Auto-marked" today
    (select_ids place (λ _ r, is_active r) (users s)) (attendance s)
    (attendance_id_seq s) 0 =
    Rows (attendance s') (attendance_id_seq s') n.
Proof.
  unfold autoAbsent. case_bool_decide as Hw; [done |]. case_bool_decide as Hh; [done |].
  destruct (insert_absent _ _ _ _ _ _ _) as [att seq k | seq]; [| done].
  by intros [= -> <-].
Qed.

(** With the sequence ahead of every row and enough values left in it, no
    id is in use or refused, and the INSERT goes through. *)
Lemma insert_absent_seq_ahead do_nothing rem d us att seq n :
  NoDup us → (do_nothing = false → ∀ u, u ∈ us → ¬ has_row att u d) →
  map_Forall (λ i _, i < seq) att →
  seq + Z.of_nat (length us) ≤ serial_max + 1 →
  ∃ att' n', insert_absent do_nothing rem d us att seq n =
               Rows att' (seq + Z.of_nat (length us)) n'.
Proof.
  intros Hnd Hstrict Hahead Hleft.
  pose proof (insert_absent_spec do_nothing rem d us Hnd att seq n Hstrict) as Hspec.
  destruct (insert_absent _ _ _ _ _ _ _) as [att' seq' n' | seq'].
  - destruct Hspec as (-> & _). by exists att', n'.
  - exfalso. destruct Hspec as (i & Hi & [[r Hr] | Hbig]); [| lia].
    pose proof (Hahead i r Hr) as Hlt. simpl in Hlt. lia.
Qed.

(** X12: when the job of midnight completes, the day is no Sunday and no
    holiday; users and holidays are as before and every attendance row that
    was there is unchanged; every row added is an Absent row of that day,
    without check-in or check-out, remarked System Auto-marked, for an active
    user who had no row that day; afterwards a user has a row that day
    exactly when they had one before or are active; and the row count
    reported is the number of rows added.  This holds in whatever order the
    scan returns the users. *)
Theorem autoAbsent_completed place weekday today s n s' :
  autoAbsent place weekday today s = (Completed n, s') →
  weekday ≠ 0 ∧ (today ∉ holidays s) ∧
  users s' = users s ∧ holidays s' = holidays s ∧
  (∀ i r, attendance s !! i = Some r → attendance s' !! i = Some r) ∧
  (∀ i r, attendance s' !! i = Some r → attendance s !! i = None →
     ∃ u row, users s !! u = Some row ∧ is_active row = true ∧
              ¬ has_row (attendance s) u today ∧
              r = AttendanceRow (Some u) today Absent None None (Some "System Auto-marked")) ∧
  (∀ u, has_row (attendance s') u today ↔
        has_row (attendance s) u today ∨
        ∃ row, users s !! u = Some row ∧ is_active row = true) ∧
  size (attendance s') = (size (attendance s) + n)%nat.
Proof.
  intros (Hw & Hh & Hus & Hhol & Hins)%autoAbsent_Completed_inv.
  pose proof (insert_absent_spec true "System Auto-marked" today
                (select_ids place (λ _ r, is_active r) (users s)) (NoDup_select_ids _ _ _)
                (attendance s) (attendance_id_seq s) 0%nat (λ H, ltac:(done))) as Hspec.
  rewrite Hins in Hspec. destruct Hspec as (_ & Hold & Hnew & Hcov & Hsize & _).
  split_and!; try done.
  - intros i r Hi Hno. destruct (Hnew i r Hi Hno) as (_ & u & Hu & Hnone & ->).
    apply elem_of_select_ids in Hu as (row & Hrow & Hact). by exists u, row.
  - intros u. rewrite Hcov, elem_of_select_ids. split.
    + intros [? | [_ ?]]; auto.
    + intros [? | ?]; auto.
  - lia.
Qed.

(** X13: whatever the outcome of the job of midnight, a table that holds at
    most one row per user and day still does afterwards. *)
Theorem autoAbsent_keeps_unique_user_date place weekday today s :
  unique_user_date (attendance s) →
  unique_user_date (attendance (autoAbsent place weekday today s).2).
Proof.
  intros Huniq. unfold autoAbsent. case_bool_decide; [done |]. case_bool_decide; [done |].
  pose proof (insert_absent_spec true "System Auto-marked" today
                (select_ids place (λ _ r, is_active r) (users s)) (NoDup_select_ids _ _ _)
                (attendance s) (attendance_id_seq s) 0%nat (λ H, ltac:(done))) as Hspec.
  destruct (insert_absent _ _ _ _ _ _ _) as [att seq k | seq]; [| done].
  simpl. by apply Hspec.
Qed.

(** When every user of the list has a row that day and the sequence has a
    value left for each, the INSERT that does nothing on conflict adds no
    row and only moves the sequence. *)
Lemma insert_absent_all_present rem d us :
  ∀ att seq n, (∀ u, u ∈ us → has_row att u d) →
  seq + Z.of_nat (length us) ≤ serial_max + 1 →
  insert_absent true rem d us att seq n = Rows att (seq + Z.of_nat (length us)) n.
Proof.
  induction us as [| u us IH]; intros att seq n Hall Hleft; simpl.
  { f_equal. lia. }
  simpl in Hleft. rewrite bool_decide_eq_false_2 by lia.
  rewrite bool_decide_eq_true_2 by (apply Hall, elem_of_cons; by left).
  rewrite IH; [f_equal; lia | | lia].
  intros v Hv. apply Hall, elem_of_cons. by right.
Qed.

(** X14: a second run of the job of midnight on the same day, after one
    that completed, with a value left in the sequence of the ids for every
    active user, completes with row count 0 and leaves every table as the
    first run left it; only the sequence moves on, by one for each active
    user.  The two scans may return the users in different orders. *)
Theorem autoAbsent_again_adds_nothing place place' weekday today s n s' :
  autoAbsent place weekday today s = (Completed n, s') →
  ids_left (active_count s') s' →
  autoAbsent place' weekday today s' =
    (Completed 0,
     Store (users s') (attendance s')
       (attendance_id_seq s' + Z.of_nat (active_count s')) (holidays s')).
Proof.
  intros (Hw & Hh & Hus & Hhol & Hins)%autoAbsent_Completed_inv Hleft.
  pose proof (insert_absent_spec true "System Auto-marked" today
                (select_ids place (λ _ r, is_active r) (users s)) (NoDup_select_ids _ _ _)
                (attendance s) (attendance_id_seq s) 0%nat (λ H, ltac:(done))) as Hspec.
  rewrite Hins in Hspec. destruct Hspec as (_ & _ & _ & Hcov & _).
  unfold autoAbsent. rewrite Hhol.
  rewrite (bool_decide_eq_false_2 _ Hw), (bool_decide_eq_false_2 _ Hh).
  rewrite insert_absent_all_present.
  - by rewrite length_select_active.
  - intros u Hu. apply Hcov. right. split; [done |].
    apply elem_of_select_ids. apply elem_of_select_ids in Hu. by rewrite <- Hus.
  - rewrite length_select_active. exact Hleft.
Qed.

(** X15: while the sequence of the ids is ahead of every row and has a
    value left for every active user, the job of midnight does not fail, and
    the sequence is still ahead afterwards. *)
Theorem autoAbsent_succeeds_while_seq_ahead place weekday today s :
  seq_ahead s → ids_left (active_count s) s →
  (autoAbsent place weekday today s).1 ≠ Failed ∧
  seq_ahead (autoAbsent place weekday today s).2.
Proof.
  intros Hahead Hleft. unfold autoAbsent.
  case_bool_decide; [done |]. case_bool_decide; [done |].
  pose proof (insert_absent_spec true "System Auto-marked" today
                (select_ids place (λ _ r, is_active r) (users s)) (NoDup_select_ids _ _ _)
                (attendance s) (attendance_id_seq s) 0%nat (λ H, ltac:(done))) as Hspec.
  destruct (insert_absent_seq_ahead true "System Auto-marked" today
              (select_ids place (λ _ r, is_active r) (users s)) (attendance s)
              (attendance_id_seq s) 0%nat (NoDup_select_ids _ _ _) (λ H, ltac:(done)) Hahead)
    as (att & k & Hins).
  { rewrite length_select_active. exact Hleft. }
  rewrite Hins in Hspec |- *. split; [done |].
  destruct Hspec as (_ & Hold & Hnew & _).
  intros i r Hi. simpl in *.
  destruct (attendance s !! i) as [r0 |] eqn:Hi0.
  - pose proof (Hahead i r0 Hi0) as Hlt. simpl in Hlt. lia.
  - destruct (Hnew i r Hi Hi0) as [? _]. lia.
Qed.

(** X16: on a day that is no Sunday and no holiday, with the sequence of
    the ids ahead of every row and a value left in it for every active user,
    both the job of midnight and the function auto_mark_absent_users of the
    schema complete; the users with a row that day after the job are those
    with a row after the function, and the active users whose role is NULL or
    super_admin, whom the function leaves out. *)
Theorem autoAbsent_covers_more_than_auto_mark_absent_users place place' weekday today s :
  seq_ahead s → ids_left (active_count s) s → weekday ≠ 0 → today ∉ holidays s →
  ∃ n s' att seq k,
    autoAbsent place weekday today s = (Completed n, s') ∧
    auto_mark_absent_users place' today s = Rows att seq k ∧
    (∀ u, has_row att u today ↔
          has_row (attendance s) u today ∨
          ∃ row, users s !! u = Some row ∧ is_active row = true ∧
                 role_not_in ["super_admin"] row = true) ∧
    (∀ u, has_row (attendance s') u today ↔
          has_row att u today ∨
          ∃ row, users s !! u = Some row ∧ is_active row = true ∧
                 role_not_in ["super_admin"] row = false).
Proof.
  intros Hahead Hleft Hw Hh.
  (* the job *)
  pose proof (insert_absent_spec true "System Auto-marked" today
                (select_ids place (λ _ r, is_active r) (users s)) (NoDup_select_ids _ _ _)
                (attendance s) (attendance_id_seq s) 0%nat (λ H, ltac:(done))) as Hjob.
  destruct (insert_absent_seq_ahead true "System Auto-marked" today
              (select_ids place (λ _ r, is_active r) (users s)) (attendance s)
              (attendance_id_seq s) 0%nat (NoDup_select_ids _ _ _) (λ H, ltac:(done)) Hahead)
    as (att1 & n & Hins1).
  { rewrite length_select_active. exact Hleft. }
  rewrite Hins1 in Hjob. destruct Hjob as (_ & _ & _ & Hcov & _).
  (* the function *)
  set (sel := select_ids place'
                (λ i r, is_active r && role_not_in ["super_admin"] r &&
                        negb (bool_decide (has_row (attendance s) i today))) (users s)).
  assert (Hsel : ∀ u, u ∈ sel ↔
            ¬ has_row (attendance s) u today ∧
            ∃ row, users s !! u = Some row ∧ is_active row = true ∧
                   role_not_in ["super_admin"] row = true).
  { intros u. unfold sel. rewrite elem_of_select_ids. split.
    - intros (row & Hrow & [[Ha Hr]%andb_true_iff Hn%negb_true_iff]%andb_true_iff).
      apply bool_decide_eq_false in Hn. split; [done |]. by exists row.
    - intros (Hn & row & Hrow & Ha & Hr). exists row. split; [done |].
      rewrite Ha, Hr. simpl. apply negb_true_iff. by apply bool_decide_eq_false. }
  assert (Hstrict : false = false → ∀ u, u ∈ sel → ¬ has_row (attendance s) u today).
  { intros _ u Hu. by apply Hsel in Hu as [? _]. }
  assert (Hfew : (length sel ≤ active_count s)%nat).
  { apply length_select_le. by intros i r [[? _]%andb_true_iff _]%andb_true_iff. }
  pose proof (insert_absent_spec false "System Auto-marked: No check-in by 7 PM" today
                sel (NoDup_select_ids _ _ _) (attendance s) (attendance_id_seq s) 0%nat
                Hstrict) as Hfun.
  destruct (insert_absent_seq_ahead false "System Auto-marked: No check-in by 7 PM" today
              sel (attendance s) (attendance_id_seq s) 0%nat (NoDup_select_ids _ _ _)
              Hstrict Hahead) as (att2 & k & Hins2).
  { unfold ids_left in Hleft. lia. }
  rewrite Hins2 in Hfun. destruct Hfun as (_ & _ & _ & Hcov' & _).
  assert (Hcov2 : ∀ u, has_row att2 u today ↔
            has_row (attendance s) u today ∨
            ∃ row, users s !! u = Some row ∧ is_active row = true ∧
                   role_not_in ["super_admin"] row = true).
  { intros u. rewrite Hcov', Hsel. split.
    - intros [? | [_ [_ ?]]]; auto.
    - intros [? | ?]; [by left |].
      destruct (decide (has_row (attendance s) u today)); [by left | by right]. }
  exists n, (Store (users s) att1 (attendance_id_seq s +
               Z.of_nat (length (select_ids place (λ _ r, is_active r) (users s))))
               (holidays s)),
    att2, (attendance_id_seq s + Z.of_nat (length sel)), k.
  split_and!.
  - unfold autoAbsent.
    rewrite (bool_decide_eq_false_2 _ Hw), (bool_decide_eq_false_2 _ Hh). by rewrite Hins1.
  - done.
  - done.
  - intros u. simpl. rewrite Hcov, Hcov2, elem_of_select_ids. split.
    + intros [? | [_ (row & Hrow & Ha)]]; [by left; left |].
      destruct (role_not_in ["super_admin"] row) eqn:Hr.
      * left. right. by exists row.
      * right. by exists row.
    + intros [[? | (row & ? & ? & ?)] | (row & ? & ? & ?)];
        [by left | right | right]; (split; [done | by exists row]).
Qed.

Lemma elem_of_closed_users t d att u :
  u ∈ closed_users t d att ↔
  ∃ i r, att !! i = Some r ∧ closes t d r = true ∧ a_user_id r = Some u.
Proof.
  unfold closed_users. rewrite elem_of_list_to_set, list_elem_of_omap. split.
  - intros ([i r] & Hin%elem_of_map_to_list & Hu). simpl in Hu.
    destruct (closes t d r) eqn:Hc; [| done]. by exists i, r.
  - intros (i & r & Hi & Hc & Hu). exists (i, r). split; [by apply elem_of_map_to_list |].
    simpl. by rewrite Hc.
Qed.

(** A row the job closes is a row of the day without check-out time, of a
    user whose role is neither NULL, admin nor super_admin. *)
Lemma closes_true t d r :
  closes t d r = true ↔
  a_date r = d ∧ a_check_out_time r = None ∧
  ∃ u row, a_user_id r = Some u ∧ t !! u = Some row ∧
           role_not_in ["admin"; "super_admin"] row = true.
Proof.
  unfold closes. rewrite !andb_true_iff, !bool_decide_eq_true. split.
  - intros [[Hd Ho] Hu]. split_and!; try done.
    destruct (a_user_id r) as [u |]; [| done].
    destruct (t !! u) as [row |] eqn:Hrow; [| done]. by exists u, row.
  - intros (Hd & Ho & u & row & -> & -> & Hr). done.
Qed.

Lemma closes_close t d time r : closes t d (close time r) = false.
Proof. unfold closes, close. simpl. by rewrite andb_false_r. Qed.

Lemma autoClockOut_users d s u :
  users (autoClockOut d s).2 !! u =
    (λ row, if bool_decide (u ∈ closed_users (users s) d (attendance s))
            then set_session None row else row) <$> (users s !! u).
Proof. simpl. rewrite map_lookup_imap. by destruct (users s !! u). Qed.

Lemma autoClockOut_attendance d s i :
  attendance (autoClockOut d s).2 !! i =
    (λ r, if closes (users s) d r then close "23:30:00" r else r) <$> (attendance s !! i).
Proof. simpl. by rewrite lookup_fmap. Qed.

(** The job decides by the role alone, which it does not change. *)
Lemma closes_after d s r :
  closes (users (autoClockOut d s).2) d r = closes (users s) d r.
Proof.
  unfold closes. destruct (a_user_id r) as [u |]; [| done].
  rewrite autoClockOut_users. destruct (users s !! u) as [row |]; [| done]. simpl.
  by destruct (bool_decide (u ∈ closed_users (users s) d (attendance s))).
Qed.

(** X17: after the job of 23:30 every attendance row of the day, of a user
    whose role is neither NULL, admin nor super_admin, has a check-out time:
    the one it had, or 23:30:00 when it had none; user, date, status and
    check-in time of the row are as before, and the remarks of a row the job
    closed are Auto Clock-out, appended to the remarks it had. *)
Theorem autoClockOut_closes_open_rows d s i r u row :
  attendance s !! i = Some r → a_date r = d → a_user_id r = Some u →
  users s !! u = Some row → role_not_in ["admin"; "super_admin"] row = true →
  ∃ r', attendance (autoClockOut d s).2 !! i = Some r' ∧
        a_check_out_time r' = Some (default "23:30:00" (a_check_out_time r)) ∧
        a_user_id r' = a_user_id r ∧ a_date r' = a_date r ∧ a_status r' = a_status r ∧
        a_check_in_time r' = a_check_in_time r ∧
        a_remarks r' =
          match a_check_out_time r, a_remarks r with
          | Some _, remarks => remarks
          | None, None => Some "Auto Clock-out"
          | None, Some x =>
              Some (if bool_decide (x = "") then "Auto Clock-out"
                    else x +:+ " | Auto Clock-out")
          end.
Proof.
  intros Hi Hd Hu Hrow Hrole. rewrite autoClockOut_attendance, Hi. simpl.
  destruct (a_check_out_time r) as [t |] eqn:Hout.
  - assert (Hc : closes (users s) d r = false).
    { apply not_true_is_false. rewrite closes_true. intros (_ & ? & _). congruence. }
    rewrite Hc. exists r. by rewrite Hout.
  - assert (Hc : closes (users s) d r = true).
    { apply closes_true. split_and!; try done. by exists u, row. }
    rewrite Hc. eexists. split; [done |]. simpl. split_and!; try done.
    unfold closing_remarks. destruct (a_remarks r) as [x |]; [| done].
    f_equal. destruct (String.eqb_spec x ""); by case_bool_decide.
Qed.

(** X18: the job of 23:30 adds and removes no row; it leaves as they are
    the attendance rows of other days, the rows that have a check-out time and
    the rows whose user is NULL, unknown or of role NULL, admin or super_admin;
    and it leaves as they are the users without such a row closed, among them
    every user of role NULL, admin or super_admin. *)
Theorem autoClockOut_spares d s :
  (∀ i, is_Some (attendance (autoClockOut d s).2 !! i) ↔ is_Some (attendance s !! i)) ∧
  (∀ i r, attendance s !! i = Some r →
     a_date r ≠ d ∨ a_check_out_time r ≠ None ∨ a_user_id r = None ∨
     (∃ u, a_user_id r = Some u ∧
           from_option (role_not_in ["admin"; "super_admin"]) false (users s !! u) = false) →
     attendance (autoClockOut d s).2 !! i = Some r) ∧
  (∀ u, is_Some (users (autoClockOut d s).2 !! u) ↔ is_Some (users s !! u)) ∧
  (∀ u row, users s !! u = Some row →
     role_not_in ["admin"; "super_admin"] row = false ∨
     (∀ i r, attendance s !! i = Some r → a_user_id r = Some u →
             a_date r ≠ d ∨ a_check_out_time r ≠ None) →
     users (autoClockOut d s).2 !! u = Some row).
Proof.
  split_and!.
  - intros i. rewrite autoClockOut_attendance. by rewrite fmap_is_Some.
  - intros i r Hi Hwhy. rewrite autoClockOut_attendance, Hi. simpl.
    assert (Hc : closes (users s) d r = false); [| by rewrite Hc].
    apply not_true_is_false. rewrite closes_true.
    intros (Hd & Ho & u & row & Hu & Hrow & Hrole).
    destruct Hwhy as [? | [? | [? | (v & Hv & Hn)]]]; try congruence.
    assert (v = u) as -> by congruence. rewrite Hrow in Hn. simpl in Hn. congruence.
  - intros u. rewrite autoClockOut_users. by rewrite fmap_is_Some.
  - intros u row Hrow Hwhy. rewrite autoClockOut_users, Hrow. simpl.
    rewrite bool_decide_eq_false_2; [done |].
    rewrite elem_of_closed_users. intros (i & r & Hi & Hc & Hu).
    apply closes_true in Hc as (Hd & Ho & v & row' & Hv & Hrow' & Hrole).
    assert (v = u) as -> by congruence.
    destruct Hwhy as [Hadmin | Hnone].
    + congruence.
    + destruct (Hnone i r Hi Hu); done.
Qed.

(** X19: a second run of the job of 23:30 for the same date changes
    nothing and reports no row: the rows it closed are no longer open, so no
    remark is appended twice. *)
Theorem autoClockOut_again_changes_nothing d s :
  autoClockOut d (autoClockOut d s).2 = (0%nat, (autoClockOut d s).2).
Proof.
  assert (Hnone : closed_users (users (autoClockOut d s).2) d
                    (attendance (autoClockOut d s).2) = ∅).
  { apply set_eq. intros u. rewrite elem_of_closed_users. split; [| set_solver].
    intros (i & r & Hi & Hc & _). rewrite closes_after in Hc.
    rewrite autoClockOut_attendance in Hi.
    destruct (attendance s !! i) as [r0 |]; simplify_eq/=.
    destruct (closes (users s) d r0) eqn:Hc0; [| congruence].
    by rewrite <- closes_after, closes_close in Hc. }
  unfold autoClockOut at 1. cbv zeta. rewrite Hnone. f_equal.
  - apply map_size_empty_iff, map_empty. intros u. apply map_lookup_filter_None.
    right. intros row _. simpl. set_solver.
  - destruct (autoClockOut d s).2 as [us att seq hol] eqn:Hs. simpl. f_equal.
    + apply map_eq. intros u. rewrite map_lookup_imap. by destruct (us !! u).
    + apply map_eq. intros i. rewrite lookup_fmap.
      destruct (att !! i) as [r |] eqn:Hi; [| done]. simpl. f_equal.
      assert (Hc : closes us d r = false); [| by rewrite Hc].
      pose proof (closes_after d s r) as Hafter. rewrite Hs in Hafter. simpl in Hafter.
      rewrite Hafter.
      pose proof (autoClockOut_attendance d s i) as Hrow. rewrite Hs in Hrow.
      simpl attendance in Hrow. rewrite Hi in Hrow.
      destruct (attendance s !! i) as [r0 |]; simplify_eq/=.
      destruct (closes (users s) d r0) eqn:Hc0; [| done].
      pose proof (closes_close (users (autoClockOut d s).2) d "23:30:00" r0) as Hcc.
      by rewrite closes_after in Hcc.
Qed.

End ScheduledJobs.

(** ** The jobs with each other and with the gate *)

Section JobsCompose.
Import Http Auth Jobs.
Local Arguments String.eqb : simpl never.
Variable verify : Jwt.verifier.

(** X20: the job of 23:30 sets to NULL the stored session of exactly the
    users with a row it closed; yet it changes the answer of the HTTP gate to
    no request whose token agrees with the users table on the role being
    admin or super_admin, since the gate looks at the stored session for
    these roles alone. *)
Theorem autoClockOut_session_reset_passes_gate d s req :
  (∀ u row, verify (default "" (cookie_token req)) = Some u →
            is_single_session_role (Jwt.role u) = true →
            users s !! Jwt.id u = Some row →
            role_not_in ["admin"; "super_admin"] row = false) →
  (∀ u row, users s !! u = Some row →
     (∃ i r, attendance s !! i = Some r ∧ closes (users s) d r = true ∧
             a_user_id r = Some u) →
     users (autoClockOut d s).2 !! u = Some (set_session None row)) ∧
  (∀ u row, users s !! u = Some row →
     ¬ (∃ i r, attendance s !! i = Some r ∧ closes (users s) d r = true ∧
               a_user_id r = Some u) →
     users (autoClockOut d s).2 !! u = Some row) ∧
  authenticateToken verify (sessions (users (autoClockOut d s).2)) req =
  authenticateToken verify (sessions (users s)) req.
Proof.
  intros Hagree. split_and!.
  - intros u row Hrow Hin%elem_of_closed_users.
    rewrite autoClockOut_users, Hrow. simpl. by rewrite (bool_decide_eq_true_2 _ Hin).
  - intros u row Hrow Hout. rewrite <- elem_of_closed_users in Hout.
    rewrite autoClockOut_users, Hrow. simpl. by rewrite (bool_decide_eq_false_2 _ Hout).
  - unfold authenticateToken. destruct (negb (truthy (cookie_token req))); [done |].
    destruct (verify (default "" (cookie_token req))) as [u |] eqn:Hv; [| done].
    destruct (is_single_session_role (Jwt.role u)) eqn:Hrole; [| done].
    unfold sessions. rewrite autoClockOut_users.
    destruct (users s !! Jwt.id u) as [row |] eqn:Hrow; [| done]. simpl.
    rewrite bool_decide_eq_false_2; [done |].
    rewrite elem_of_closed_users. intros (i & r & Hi & Hc & Hu).
    apply closes_true in Hc as (_ & _ & v & row' & Hv' & Hrow' & Hr).
    assert (v = Jwt.id u) as -> by congruence.
    rewrite Hrow in Hrow'. injection Hrow' as <-.
    rewrite (Hagree u row eq_refl Hrole Hrow) in Hr. done.
Qed.

(** X21: a user of role neither NULL, admin nor super_admin whom the job
    of midnight marked absent is clocked out by the job of 23:30 of the same
    date: the row keeps status Absent and no check-in time, gets the check-out
    time 23:30:00 and the remarks of both jobs, and the stored session of the
    user is set to NULL. *)
Theorem absent_user_is_clocked_out place weekday d s n s1 i r u row :
  autoAbsent place weekday d s = (Completed n, s1) →
  attendance s !! i = None → attendance s1 !! i = Some r → a_user_id r = Some u →
  users s !! u = Some row → role_not_in ["admin"; "super_admin"] row = true →
  attendance (autoClockOut d s1).2 !! i =
    Some (AttendanceRow (Some u) d Absent None (Some "23:30:00")
            (Some "System Auto-marked | Auto Clock-out")) ∧
  users (autoClockOut d s1).2 !! u = Some (set_session None row).
Proof.
  intros (_ & _ & Hus & _ & Hins)%autoAbsent_Completed_inv Hnew Hi Hu Hrow Hrole.
  pose proof (insert_absent_spec true "System Auto-marked" d
                (select_ids place (λ _ r, is_active r) (users s)) (NoDup_select_ids _ _ _)
                (attendance s) (attendance_id_seq s) 0%nat (λ H, ltac:(done))) as Hspec.
  rewrite Hins in Hspec. destruct Hspec as (_ & _ & Hrows & _).
  destruct (Hrows i r Hi Hnew) as (_ & v & _ & _ & ->). simpl in Hu. injection Hu as ->.
  assert (Hc : closes (users s1) d (absent_row u d "System Auto-marked") = true).
  { apply closes_true. split_and!; try done. exists u, row. by rewrite Hus. }
  split.
  - rewrite autoClockOut_attendance, Hi. simpl. by rewrite Hc.
  - assert (Hin : u ∈ closed_users (users s1) d (attendance s1)).
    { apply elem_of_closed_users. by exists i, (absent_row u d "System Auto-marked"). }
    by rewrite autoClockOut_users, (bool_decide_eq_true_2 _ Hin), Hus, Hrow.
Qed.

End JobsCompose.

(** ** The scheduled jobs on the sample office *)

Lemma autoAbsent_completed_witness :
  size (Jobs.attendance (Jobs.autoAbsent SampleJobs.by_id 1 20 SampleJobs.office).2) = 5%nat ∧
  (Jobs.has_row (Jobs.attendance (Jobs.autoAbsent SampleJobs.by_id 1 20 SampleJobs.office).2) 3 20 ↔
   Jobs.has_row (Jobs.attendance SampleJobs.office) 3 20 ∨
   ∃ row, Jobs.users SampleJobs.office !! 3 = Some row ∧ Jobs.is_active row = true).
Proof.
  destruct (autoAbsent_completed SampleJobs.by_id 1 20 SampleJobs.office 4
              (Jobs.autoAbsent SampleJobs.by_id 1 20 SampleJobs.office).2)
    as (_ & _ & _ & _ & _ & _ & Hcov & Hsize).
  - vm_compute. reflexivity.
  - split; [exact Hsize | exact (Hcov 3)].
Defined.

Lemma autoAbsent_keeps_unique_user_date_witness :
  Jobs.unique_user_date (Jobs.attendance (Jobs.autoAbsent SampleJobs.by_id 1 20 SampleJobs.office).2).
Proof.
  apply (autoAbsent_keeps_unique_user_date SampleJobs.by_id 1 20 SampleJobs.office).
  unfold SampleJobs.office. cbn [Jobs.attendance].
  intros i j r1 r2 u [<- <-]%lookup_singleton_Some [<- <-]%lookup_singleton_Some. reflexivity.
Defined.

Lemma autoAbsent_again_adds_nothing_witness :
  (Jobs.autoAbsent SampleJobs.by_id 1 20
     (Jobs.autoAbsent SampleJobs.by_id 1 20 SampleJobs.office).2).1 = Jobs.Completed 0 ∧
  Jobs.attendance_id_seq
    (Jobs.autoAbsent SampleJobs.by_id 1 20
       (Jobs.autoAbsent SampleJobs.by_id 1 20 SampleJobs.office).2).2 = 12.
Proof.
  rewrite (autoAbsent_again_adds_nothing SampleJobs.by_id SampleJobs.by_id 1 20
             SampleJobs.office 4 (Jobs.autoAbsent SampleJobs.by_id 1 20 SampleJobs.office).2).
  - split; [reflexivity | vm_compute; reflexivity].
  - vm_compute. reflexivity.
  - unfold Jobs.ids_left. vm_compute. discriminate.
Defined.

Lemma autoAbsent_succeeds_while_seq_ahead_witness :
  (Jobs.autoAbsent SampleJobs.by_id 1 20 SampleJobs.office).1 ≠ Jobs.Failed ∧
  Jobs.seq_ahead (Jobs.autoAbsent SampleJobs.by_id 1 20 SampleJobs.office).2.
Proof.
  apply (autoAbsent_succeeds_while_seq_ahead SampleJobs.by_id 1 20 SampleJobs.office).
  - apply (bool_decide_unpack _). vm_compute. exact I.
  - unfold Jobs.ids_left. vm_compute. discriminate.
Defined.

Lemma autoAbsent_covers_more_than_auto_mark_absent_users_witness :
  ∃ att seq k,
    Jobs.auto_mark_absent_users SampleJobs.by_id 20 SampleJobs.office = Jobs.Rows att seq k ∧
    (Jobs.has_row
       (Jobs.attendance (Jobs.autoAbsent SampleJobs.by_id 1 20 SampleJobs.office).2) 3 20 ↔
     Jobs.has_row att 3 20 ∨
     ∃ row, Jobs.users SampleJobs.office !! 3 = Some row ∧ Jobs.is_active row = true ∧
            Jobs.role_not_in ["super_admin"] row = false).
Proof.
  destruct (autoAbsent_covers_more_than_auto_mark_absent_users SampleJobs.by_id
              SampleJobs.by_id 1 20 SampleJobs.office)
    as (n & s' & att & seq & k & Hjob & Hfun & _ & Hcov).
  - apply (bool_decide_unpack _). vm_compute. exact I.
  - unfold Jobs.ids_left. vm_compute. discriminate.
  - discriminate.
  - apply (bool_decide_unpack _). vm_compute. exact I.
  - exists att, seq, k. split; [exact Hfun |]. rewrite Hjob. exact (Hcov 3).
Defined.

Lemma autoClockOut_closes_open_rows_witness :
  ∃ r', Jobs.attendance (Jobs.autoClockOut 20 SampleJobs.office).2 !! 1 = Some r' ∧
        Jobs.a_check_out_time r' = Some "23:30:00".
Proof.
  destruct (autoClockOut_closes_open_rows 20 SampleJobs.office 1
              (Jobs.AttendanceRow (Some 2) 20 Jobs.Present (Some "09:00:00") None None)
              2 SampleAuth.staff_row)
    as (r' & Hrow & Hout & _).
  - reflexivity.
  - reflexivity.
  - reflexivity.
  - reflexivity.
  - reflexivity.
  - exists r'. split; [exact Hrow | exact Hout].
Defined.

Lemma autoClockOut_session_reset_passes_gate_witness :
  Http.authenticateToken Sample.verify
    (Auth.sessions (Jobs.users (Jobs.autoClockOut 20 SampleJobs.office).2))
    (Http.Request Http.GET "/" (Some "first.login.token")) =
  Http.authenticateToken Sample.verify (Auth.sessions (Jobs.users SampleJobs.office))
    (Http.Request Http.GET "/" (Some "first.login.token")).
Proof.
  apply (autoClockOut_session_reset_passes_gate Sample.verify 20 SampleJobs.office
           (Http.Request Http.GET "/" (Some "first.login.token"))).
  intros u row Hv _ Hrow. vm_compute in Hv. injection Hv as <-.
  vm_compute in Hrow. injection Hrow as <-. reflexivity.
Defined.

Lemma absent_user_is_clocked_out_witness :
  Jobs.attendance
    (Jobs.autoClockOut 20
       (Jobs.autoAbsent SampleJobs.by_id 1 20 SampleJobs.office).2).2 !! 5 =
    Some (Jobs.AttendanceRow (Some 4) 20 Jobs.Absent None (Some "23:30:00")
            (Some "System Auto-marked | Auto Clock-out")) ∧
  Jobs.users
    (Jobs.autoClockOut 20
       (Jobs.autoAbsent SampleJobs.by_id 1 20 SampleJobs.office).2).2 !! 4 =
    Some (Auth.set_session None SampleJobs.clerk_row).
Proof.
  apply (absent_user_is_clocked_out SampleJobs.by_id 1 20 SampleJobs.office 4
           (Jobs.autoAbsent SampleJobs.by_id 1 20 SampleJobs.office).2 5
           (Jobs.absent_row 4 20 "System Auto-marked") 4 SampleJobs.clerk_row).
  - vm_compute. reflexivity.
  - reflexivity.
  - vm_compute. reflexivity.
  - reflexivity.
  - reflexivity.
  - reflexivity.
Defined.

(** At the end of the sequence the job fails: with one value left and two
    active users without a row the second id cannot be drawn; the statement
    aborts, no row is added and the sequence stays at its end. *)
Example autoAbsent_fails_at_the_end_of_the_sequence :
  Jobs.autoAbsent SampleJobs.by_id 1 20 (Jobs.Store SampleAuth.users ∅ 2147483647 []) =
    (Jobs.Failed, Jobs.Store SampleAuth.users ∅ 2147483648 []).
Proof. vm_compute. reflexivity. Qed.
